(** * Battleship V2: the game core of [script.js]

    A shallow embedding of the board model, the fleet placement, the
    HUNT/TARGET engine of the AI, the turn handlers and the save/load code of
    [src/battleship/script.js], followed by the properties proved about them.

    Conventions of the embedding.
    - The script keeps its state in top-level [let] bindings that every
      function mutates.  Here each function takes the part of the state it
      reads and returns the part it writes.
    - Cell keys are the strings ["r,c"] the script builds with [keyOf].
    - A JavaScript [Set] is an insertion-ordered sequence without repetition
      ([JSSet.t]); [Array.from] and iteration follow that order.
    - Row and column values are JavaScript numbers.  The embedding has the
      integers, [NaN] and [undefined] ([num]), and computes with the integers
      exactly.  It follows the script where every number is a safe integer
      (of magnitude below [2^53]): there the arithmetic of doubles is exact
      and a template literal writes all the digits.  That is so for every
      number the game makes from its own keys.  [Number] applied to a string
      reads the empty string and the decimal integers, written with digits
      and at most a leading minus sign, as [keyOf] writes them, and answers
      [NaN] on any other text; the script's [Number] also reads texts with
      white space around them, with a sign [+], a fraction, an exponent or a
      radix prefix, so that properties of keys that do not come from [keyOf]
      are stated for keys written as [keyOf] writes them.
    - [Math.random] is an oracle: a sequence of samples [k], each standing for
      the double [(k mod 2^53) / 2^53] of the interval [0, 1).  The product
      of such a double with an integer is rounded as a double is
      ([round53]).
    - The DOM (cell painting, status and turn texts, enabling of buttons) and
      the timer that re-enters [aiTakeTurnLoop] are presentation and are left
      out, with two exceptions: [markCell] throws when the cell it is to paint
      does not exist, and the two texts that [saveGame] copies into the
      payload are passed to it as arguments.
    - [localStorage] holds what [JSON.parse] makes of the stored text; the
      text [JSON.stringify] writes for a payload parses back to that payload.
      Strings are sequences of one-byte characters. *)

From Stdlib Require Import ZArith List String Ascii Bool Lia Eqdep_dec.
From Stdlib Require Import DecimalString QArith Qcanon.
Import ListNotations.

Local Open Scope string_scope.
Local Open Scope list_scope.
Local Open Scope Z_scope.

(** ** JavaScript numbers and cell keys *)

Definition GRID_SIZE : Z := 10.
Definition SHIPS : list Z := [5; 3; 2].

Inductive num : Type :=
| Int (z : Z)
| NaN
| Undefined.

(** Template-literal rendering [`${x}`] of a number: for an integer all its
    digits, which is what the script writes for the integers of magnitude
    below [10^21] (from there on it writes an exponent); the properties
    below keep to safe integers. *)
Definition num_to_string (x : num) : string :=
  match x with
  | Int z => NilZero.string_of_int (Z.to_int z)
  | NaN => "NaN"
  | Undefined => "undefined"
  end.

(** [Number(s)] on the texts the embedding covers: the empty string is 0, a
    text of digits with at most a leading minus sign is the integer it
    writes (the script reads the same number as long as it is a safe
    integer), and any other text is [NaN] here. *)
Definition Number (s : string) : num :=
  match s with
  | "" => Int 0
  | _ => match NilZero.int_of_string s with
         | Some i => Int (Z.of_int i)
         | None => NaN
         end
  end.

(** [x + d] for an integer literal [d]. *)
Definition num_plus (x : num) (d : Z) : num :=
  match x with
  | Int z => Int (z + d)
  | _ => NaN
  end.

(** [x >= 0 && x < GRID_SIZE]; a comparison with [NaN] or [undefined] is false. *)
Definition in_range (x : num) : bool :=
  match x with
  | Int z => (0 <=? z) && (z <? GRID_SIZE)
  | _ => false
  end.

(** Strict equality [x === y] of two numbers. *)
Definition num_strict_eq (x y : num) : bool :=
  match x, y with
  | Int a, Int b => a =? b
  | Undefined, Undefined => true
  | _, _ => false
  end.

(** [Math.min(...xs)] and [Math.max(...xs)] for a non-empty argument list
    [x :: xs]: any argument that is not a number makes the result [NaN]. *)
Fixpoint Math_min (x : num) (xs : list num) : num :=
  match xs with
  | [] => match x with Int z => Int z | _ => NaN end
  | y :: ys =>
      match x, Math_min y ys with
      | Int a, Int b => Int (Z.min a b)
      | _, _ => NaN
      end
  end.

Fixpoint Math_max (x : num) (xs : list num) : num :=
  match xs with
  | [] => match x with Int z => Int z | _ => NaN end
  | y :: ys =>
      match x, Math_max y ys with
      | Int a, Int b => Int (Z.max a b)
      | _, _ => NaN
      end
  end.

Record Coord : Type := mkCoord { r : num; c : num }.

Definition keyOf (r c : num) : string :=
  num_to_string r ++ "," ++ num_to_string c.

(** [k.split(",")]: the pieces between the commas (always at least one). *)
Fixpoint split_comma (k : string) : list string :=
  match k with
  | "" => [""]
  | String a k' =>
      if Ascii.eqb a ","%char then "" :: split_comma k'
      else match split_comma k' with
           | p :: ps => String a p :: ps
           | [] => [String a ""]
           end
  end.

(** [const [r, c] = k.split(",").map(Number)]: a missing piece is [undefined]. *)
Definition parseKey (k : string) : Coord :=
  match map Number (split_comma k) with
  | [] => mkCoord Undefined Undefined
  | [x] => mkCoord x Undefined
  | x :: y :: _ => mkCoord x y
  end.

Definition inBounds (r c : num) : bool := in_range r && in_range c.

(** ** Random numbers *)

(** A sample [k] of the oracle stands for the double [(k mod 2^53) / 2^53]
    that [Math.random()] returns. *)
Definition sample : Type := Z.
Definition two53 : Z := 2 ^ 53.

(** [Math.random() < 0.5] *)
Definition random_lt_half (k : sample) : bool := 2 * (k mod two53) <? two53.

(** The integers of magnitude below [2^53]: on them [+], [-] and [*] of
    doubles are exact as long as the result is one of them. *)
Definition safeInteger (z : Z) : bool := (- two53 <? z) && (z <? two53).

(** The product of two doubles is the exact product rounded to a double.
    [round53 P] is that rounding for a product of [P] units of [2^-53], in
    the same unit: [P] cut to 53 significant bits, to nearest, a tie to the
    even neighbour, with the sign kept.  (The products [randomInt] forms lie
    between [2^-53] and [2^106], far from the subnormal and the overflow
    range.) *)
Definition round53 (P : Z) : Z :=
  let a := Z.abs P in
  let s := Z.max 0 (Z.log2 a - 52) in
  let q := Z.shiftr a s in
  let rest := a - Z.shiftl q s in
  let up := (2 ^ s <? 2 * rest) || ((2 * rest =? 2 ^ s) && Z.odd q) in
  Z.sgn P * Z.shiftl (if up then q + 1 else q) s.

(** [randomInt(min, maxInclusive)] on the oracle sample [k]:
    [Math.floor(u * (maxInclusive - min + 1)) + min] with
    [u = (k mod 2^53) / 2^53], the product rounded as the double it is.  The
    subtraction and the two additions are taken as exact, which they are
    when [min], [maxInclusive] and [maxInclusive - min + 1] are safe
    integers, as in every call of the script. *)
Definition randomInt (min maxInclusive : Z) (k : sample) : Z :=
  round53 ((k mod two53) * (maxInclusive - min + 1)) / two53 + min.

(** ** JavaScript sets *)

(** The [SameValueZero] test that [Set] and [Array.prototype.includes] use. *)
Class JSEq (A : Type) : Type := same_value_zero : A -> A -> bool.

#[export] Instance string_JSEq : JSEq string := String.eqb.

Module JSSet.
Section Def.
Context {A : Type} `{JSEq A}.

(** [includes k l]: some element of [l] is the same value as [k]. *)
Definition includes (k : A) (l : list A) : bool :=
  existsb (same_value_zero k) l.

(** No element is the same value as an earlier one. *)
Fixpoint distinct (l : list A) : bool :=
  match l with
  | [] => true
  | x :: t => forallb (fun y => negb (same_value_zero y x)) t && distinct t
  end.

Lemma distinct_snoc (k : A) (l : list A) :
  distinct l = true -> includes k l = false -> distinct (l ++ [k]) = true.
Proof.
  unfold includes. induction l as [|x t IH]; simpl; intros Hd Hk.
  - reflexivity.
  - apply andb_true_iff in Hd as [Hx Ht].
    apply orb_false_iff in Hk as [Hkx Hkt].
    rewrite forallb_app, Hx, (IH Ht Hkt). simpl. now rewrite Hkx.
Qed.

Record t : Type := mk { elems : list A; elems_distinct : distinct elems = true }.

(** [new Set()] *)
Definition empty : t := mk [] eq_refl.

(** [s.has(k)] *)
Definition has (s : t) (k : A) : bool := includes k (elems s).

(** [s.size] *)
Definition size (s : t) : Z := Z.of_nat (List.length (elems s)).

(** [s.add(k)]: a new value goes to the end of the iteration order. *)
Definition add (k : A) (s : t) : t :=
  match includes k (elems s) as b return includes k (elems s) = b -> t with
  | true => fun _ => s
  | false => fun Hk => mk (elems s ++ [k]) (distinct_snoc k (elems s) (elems_distinct s) Hk)
  end eq_refl.

(** [new Set(a)] for an array [a]. *)
Definition of_array (a : list A) : t := fold_left (fun s k => add k s) a empty.

(** [Array.from(s)] *)
Definition to_array (s : t) : list A := elems s.

Lemma elems_add (k : A) (s : t) :
  elems (add k s) = if has s k then elems s else elems s ++ [k].
Proof.
  unfold add, has.
  generalize (distinct_snoc k (elems s) (elems_distinct s)).
  destruct (includes k (elems s)); reflexivity.
Qed.

Lemma add_has (k : A) (s : t) : has s k = true -> add k s = s.
Proof.
  unfold add, has.
  generalize (distinct_snoc k (elems s) (elems_distinct s)).
  destruct (includes k (elems s)); [reflexivity | discriminate].
Qed.

(** Two sets with the same iteration sequence are equal. *)
Lemma ext (s1 s2 : t) : elems s1 = elems s2 -> s1 = s2.
Proof.
  destruct s1 as [l1 p1], s2 as [l2 p2]; simpl; intros ->.
  f_equal. apply UIP_dec, bool_dec.
Qed.
End Def.
Arguments t A {_}.
End JSSet.

(** What a call can end in besides a value: an uncaught [TypeError], or the
    iteration budget of a modelled loop running out. *)
Inductive result (A : Type) : Type :=
| Ok (a : A)
| TypeError
| OutOfFuel.
Arguments Ok {A}.
Arguments TypeError {A}.
Arguments OutOfFuel {A}.

Definition bind {A B : Type} (m : result A) (f : A -> result B) : result B :=
  match m with
  | Ok a => f a
  | TypeError => TypeError
  | OutOfFuel => OutOfFuel
  end.

Notation "x <- m ;; k" := (bind m (fun x => k))
  (at level 61, m at next level, right associativity).

(** ** Boards *)

Record Board (K : Type) `{JSEq K} : Type := mkBoard {
  shipCells : JSSet.t K;
  hitCells : JSSet.t K;
  missCells : JSSet.t K;
}.
Arguments mkBoard {K _}.
Arguments shipCells {K _}.
Arguments hitCells {K _}.
Arguments missCells {K _}.

Definition createEmptyBoard : Board string :=
  mkBoard JSSet.empty JSSet.empty JSSet.empty.

Definition alreadyShot (board : Board string) (k : string) : bool :=
  JSSet.has (hitCells board) k || JSSet.has (missCells board) k.

(** The object [applyShot] returns: [{ valid: false }] or
    [{ valid: true, isHit, key }]. *)
Inductive Shot : Type :=
| Invalid
| Valid (isHit : bool) (key : string).

Definition valid (s : Shot) : bool :=
  match s with Invalid => false | Valid _ _ => true end.

(** [getCellEl(owner, r, c)] is [container.children[r * GRID_SIZE + c]]; each
    grid holds [GRID_SIZE * GRID_SIZE] buttons once [buildBoardUI] has run, so
    the element exists exactly when that index is one of them. *)
Definition cellExists (r c : num) : bool :=
  match r, c with
  | Int a, Int b =>
      (0 <=? a * GRID_SIZE + b) && (a * GRID_SIZE + b <? GRID_SIZE * GRID_SIZE)
  | _, _ => false
  end.

(** [markCell(owner, r, c, isHit)]: painting is not modelled, but reading
    [classList] of a missing element is a [TypeError]. *)
Definition markCell (r c : num) : result unit :=
  if cellExists r c then Ok tt else TypeError.

(** [applyShot(board, targetOwner, r, c)]: what the call returns or throws,
    and the board after it ([targetOwner] only selects the grid that
    [markCell] paints).  The board is written before [markCell] runs. *)
Definition applyShot (board : Board string) (r c : num) : result Shot * Board string :=
  let k := keyOf r c in
  if alreadyShot board k then (Ok Invalid, board)
  else
    let isHit := JSSet.has (shipCells board) k in
    let board' :=
      if isHit
      then mkBoard (shipCells board) (JSSet.add k (hitCells board)) (missCells board)
      else mkBoard (shipCells board) (hitCells board) (JSSet.add k (missCells board)) in
    (_ <- markCell r c ;; Ok (Valid isHit k), board').

Definition hasWon (defenderBoard : Board string) : bool :=
  JSSet.size (hitCells defenderBoard) =? JSSet.size (shipCells defenderBoard).

(** ** The state of a game *)

Inductive Turn : Type := USER | AI.
Inductive Mode : Type := HUNT | TARGET.

Record Shots : Type := mkShots { hits : Z; misses : Z }.

(** [aiState]: the mode, the keys to try next and the keys of the current
    cluster of hits (two arrays). *)
Record AiState (K : Type) : Type := mkAiState {
  mode : Mode;
  targetQueue : list K;
  clusterHits : list K;
}.
Arguments mkAiState {K}.
Arguments mode {K}.
Arguments targetQueue {K}.
Arguments clusterHits {K}.

(** The script's top-level bindings.  [K] is the type of the values held in
    the sets and arrays and [T] the type of the two tallies: strings and
    [Shots] in a running game, arbitrary JSON values right after [loadGame]. *)
Record Game (K T : Type) `{JSEq K} : Type := mkGame {
  userBoard : Board K;
  aiBoard : Board K;
  currentTurn : Turn;
  gameOver : bool;
  userShots : T;
  aiShots : T;
  aiState : AiState K;
}.
Arguments mkGame {K T _}.
Arguments userBoard {K T _}.
Arguments aiBoard {K T _}.
Arguments currentTurn {K T _}.
Arguments gameOver {K T _}.
Arguments userShots {K T _}.
Arguments aiShots {K T _}.
Arguments aiState {K T _}.

Definition GameState : Type := Game string Shots.

(** ** The AI: HUNT and TARGET *)

Definition coordInBounds (p : Coord) : bool := inBounds (r p) (c p).
Definition coordKey (p : Coord) : string := keyOf (r p) (c p).

Definition neighbors4 (r c : num) : list Coord :=
  filter coordInBounds
    [ mkCoord (num_plus r (-1)) c;
      mkCoord (num_plus r 1) c;
      mkCoord r (num_plus c (-1));
      mkCoord r (num_plus c 1) ].

(** The body of [for (const nb of neighbors4(r, c))] in the search of
    [recomputeClusterFromHit]. *)
Definition visitNeighbors (userBoard : Board string) (nbs : list Coord)
    (visited : JSSet.t string) (queue : list string) : JSSet.t string * list string :=
  fold_left
    (fun (vq : JSSet.t string * list string) nb =>
       let nk := coordKey nb in
       if negb (JSSet.has (fst vq) nk) && JSSet.has (hitCells userBoard) nk
       then (JSSet.add nk (fst vq), snd vq ++ [nk])
       else vq)
    nbs (visited, queue).

(** [while (queue.length) { const k = queue.shift(); ... }], at most [fuel]
    iterations. *)
Fixpoint clusterLoop (fuel : nat) (userBoard : Board string)
    (visited : JSSet.t string) (queue : list string) : result (list string) :=
  match queue with
  | [] => Ok (JSSet.to_array visited)
  | k :: queue' =>
      match fuel with
      | O => OutOfFuel
      | S fuel' =>
          let p := parseKey k in
          let vq := visitNeighbors userBoard (neighbors4 (r p) (c p)) visited queue' in
          clusterLoop fuel' userBoard (fst vq) (snd vq)
      end
  end.

(** The search visits [hitKey] and then only keys of cells of the grid, so
    one iteration per cell and one more are enough (see
    [recomputeClusterFromHit_returns]). *)
Definition clusterFuel : nat := S (Z.to_nat (GRID_SIZE * GRID_SIZE)).

Definition recomputeClusterFromHit (userBoard : Board string) (hitKey : string)
    : result (list string) :=
  clusterLoop clusterFuel userBoard (JSSet.add hitKey JSSet.empty) [hitKey].

Definition uniquePush (queue : list string) (k : string) : list string :=
  if JSSet.includes k queue then queue else queue ++ [k].

(** Returns the [aiState.targetQueue] it leaves. *)
Definition aiQueueAdjacentsFromHits (userBoard : Board string)
    (clusterHits : list string) (targetQueue : list string) : list string :=
  fold_left
    (fun queue hk =>
       let p := parseKey hk in
       fold_left
         (fun queue nb =>
            let nk := coordKey nb in
            if negb (alreadyShot userBoard nk) then uniquePush queue nk else queue)
         (neighbors4 (r p) (c p)) queue)
    clusterHits targetQueue.

Inductive Orientation : Type := H | V.

(** [null] is [None]. *)
Definition inferOrientation (clusterHits : list string) : option Orientation :=
  if (List.length clusterHits <? 2)%nat then None
  else
    let coords := map parseKey clusterHits in
    let allSameRow :=
      forallb (fun p => match coords with
                        | c0 :: _ => num_strict_eq (r p) (r c0)
                        | [] => false
                        end) coords in
    let allSameCol :=
      forallb (fun p => match coords with
                        | c0 :: _ => num_strict_eq (c p) (c c0)
                        | [] => false
                        end) coords in
    if allSameRow then Some H
    else if allSameCol then Some V
    else None.

(** [if (inBounds(p.r, p.c)) { const k = keyOf(p.r, p.c);
    if (!alreadyShot(userBoard, k)) front.push(k); }] *)
Definition pushExtension (userBoard : Board string) (p : Coord) (front : list string)
    : list string :=
  if coordInBounds p
  then if negb (alreadyShot userBoard (coordKey p)) then front ++ [coordKey p] else front
  else front.

(** Returns the [aiState.targetQueue] it leaves; reading [coords[0].r] of an
    empty cluster is a [TypeError]. *)
Definition extendLineTargets (userBoard : Board string) (clusterHits : list string)
    (orientation : Orientation) (targetQueue : list string) : result (list string) :=
  let coords := map parseKey clusterHits in
  match coords with
  | [] => TypeError
  | c0 :: rest =>
      let front :=
        match orientation with
        | H =>
            let row := r c0 in
            let minC := Math_min (c c0) (map c rest) in
            let maxC := Math_max (c c0) (map c rest) in
            let left := mkCoord row (num_plus minC (-1)) in
            let right := mkCoord row (num_plus maxC 1) in
            pushExtension userBoard right (pushExtension userBoard left [])
        | V =>
            let col := c c0 in
            let minR := Math_min (r c0) (map r rest) in
            let maxR := Math_max (r c0) (map r rest) in
            let up := mkCoord (num_plus minR (-1)) col in
            let down := mkCoord (num_plus maxR 1) col in
            pushExtension userBoard down (pushExtension userBoard up [])
        end in
      let queue := aiQueueAdjacentsFromHits userBoard clusterHits targetQueue in
      Ok (front ++ filter (fun k => negb (JSSet.includes k front)) queue)
  end.

(** The cells the two nested loops of [aiChooseHuntTarget] go through, in
    that order. *)
Definition gridIndices : list Z := map Z.of_nat (seq 0 (Z.to_nat GRID_SIZE)).
Definition gridCells : list Coord :=
  flat_map (fun r => map (fun c => mkCoord (Int r) (Int c)) gridIndices) gridIndices.

(** [(r + c) % 2 === 0] for a cell of the grid. *)
Definition evenParity (p : Coord) : bool :=
  match r p, c p with
  | Int a, Int b => Z.rem (a + b) 2 =? 0
  | _, _ => false
  end.

(** [undefined] (an index past the end of [pool]) is [None]. *)
Definition aiChooseHuntTarget (userBoard : Board string) (k : sample) : option Coord :=
  let unshot := filter (fun p => negb (alreadyShot userBoard (coordKey p))) gridCells in
  let (parityCells, otherCells) := partition evenParity unshot in
  let pool := match parityCells with [] => otherCells | _ :: _ => parityCells end in
  nth_error pool (Z.to_nat (randomInt 0 (Z.of_nat (List.length pool) - 1) k)).

(** Returns the cell ([null] is [None]) and the [aiState.targetQueue] left. *)
Fixpoint aiChooseTargetModeCell (userBoard : Board string) (targetQueue : list string)
    : option Coord * list string :=
  match targetQueue with
  | [] => (None, [])
  | k :: queue' =>
      if negb (alreadyShot userBoard k) then (Some (parseKey k), queue')
      else aiChooseTargetModeCell userBoard queue'
  end.

Definition aiDecideNextShot (userBoard : Board string) (st : AiState string) (k : sample)
    : option Coord * AiState string :=
  match mode st with
  | TARGET =>
      match aiChooseTargetModeCell userBoard (targetQueue st) with
      | (Some t, queue) => (Some t, mkAiState TARGET queue (clusterHits st))
      | (None, queue) => (aiChooseHuntTarget userBoard k, mkAiState HUNT queue [])
      end
  | HUNT => (aiChooseHuntTarget userBoard k, st)
  end.

Definition aiAfterHit (userBoard : Board string) (st : AiState string) (hitKey : string)
    : result (AiState string) :=
  cluster <- recomputeClusterFromHit userBoard hitKey ;;
  let queue := aiQueueAdjacentsFromHits userBoard cluster (targetQueue st) in
  match inferOrientation cluster with
  | Some ori =>
      queue' <- extendLineTargets userBoard cluster ori queue ;;
      Ok (mkAiState TARGET queue' cluster)
  | None => Ok (mkAiState TARGET queue cluster)
  end.

Definition aiAfterMiss (st : AiState string) : AiState string :=
  match targetQueue st with
  | [] => mkAiState HUNT (targetQueue st) []
  | _ :: _ => st
  end.

(** ** Turns *)

Definition endGame (g : GameState) : GameState :=
  mkGame (userBoard g) (aiBoard g) (currentTurn g) true
         (userShots g) (aiShots g) (aiState g).

Definition hitsPlusPlus (s : Shots) : Shots := mkShots (hits s + 1) (misses s).
Definition missesPlusPlus (s : Shots) : Shots := mkShots (hits s) (misses s + 1).

(** The click handler of the cell [(r, c)] of the AI board.  A handler that
    throws leaves behind what it had written so far; a result here is the
    state of a run that returned. *)
Definition onUserFireAtAI (g : GameState) (r c : num) : result GameState :=
  if gameOver g then Ok g
  else match currentTurn g with
  | AI => Ok g
  | USER =>
      let (thrown_or_shot, board) := applyShot (aiBoard g) r c in
      shot <- thrown_or_shot ;;
      match shot with
      | Invalid => Ok g
      | Valid true _ =>
          let g1 := mkGame (userBoard g) board (currentTurn g) (gameOver g)
                           (hitsPlusPlus (userShots g)) (aiShots g) (aiState g) in
          if hasWon (aiBoard g1) then Ok (endGame g1)
          else Ok (mkGame (userBoard g1) (aiBoard g1) USER (gameOver g1)
                          (userShots g1) (aiShots g1) (aiState g1))
      | Valid false _ =>
          Ok (mkGame (userBoard g) board AI (gameOver g)
                     (missesPlusPlus (userShots g)) (aiShots g) (aiState g))
      end
  end.

(** One run of [aiTakeTurnLoop]; [k] is the sample [Math.random] returns if
    the run asks for one.  Destructuring the [undefined] that
    [aiChooseHuntTarget] returns on an empty pool is a [TypeError]. *)
Definition aiTakeTurnLoop (g : GameState) (k : sample) : result GameState :=
  if gameOver g then Ok g
  else match currentTurn g with
  | USER => Ok g
  | AI =>
      match aiDecideNextShot (userBoard g) (aiState g) k with
      | (None, _) => TypeError
      | (Some p, st) =>
          let (thrown_or_shot, board) := applyShot (userBoard g) (r p) (c p) in
          shot <- thrown_or_shot ;;
          match shot with
          | Invalid =>
              Ok (mkGame (userBoard g) (aiBoard g) (currentTurn g) (gameOver g)
                         (userShots g) (aiShots g) st)
          | Valid true key =>
              st' <- aiAfterHit board st key ;;
              let g1 := mkGame board (aiBoard g) (currentTurn g) (gameOver g)
                               (userShots g) (hitsPlusPlus (aiShots g)) st' in
              if hasWon (userBoard g1) then Ok (endGame g1)
              else Ok (mkGame (userBoard g1) (aiBoard g1) AI (gameOver g1)
                              (userShots g1) (aiShots g1) (aiState g1))
          | Valid false _ =>
              Ok (mkGame board (aiBoard g) USER (gameOver g)
                         (userShots g) (missesPlusPlus (aiShots g)) (aiAfterMiss st))
          end
      end
  end.

(** ** Ship placement *)

(** The cells of the run of [length] cells that starts at [(startR, startC)]. *)
Definition candidateKeys (vertical : bool) (startR startC length : Z) : list string :=
  map (fun i => if vertical
                then keyOf (Int (startR + i)) (Int startC)
                else keyOf (Int startR) (Int (startC + i)))
      (map Z.of_nat (seq 0 (Z.to_nat length))).

(** The candidate one pass of the [while (true)] loop draws, from three
    samples of [Math.random]. *)
Definition drawCandidate (length : Z) (k1 k2 k3 : sample) : list string :=
  let vertical := random_lt_half k1 in
  let startR := if vertical then randomInt 0 (GRID_SIZE - length) k2
                else randomInt 0 (GRID_SIZE - 1) k2 in
  let startC := if vertical then randomInt 0 (GRID_SIZE - 1) k3
                else randomInt 0 (GRID_SIZE - length) k3 in
  candidateKeys vertical startR startC length.

Definition addAll (keys : list string) (s : JSSet.t string) : JSSet.t string :=
  fold_left (fun s k => JSSet.add k s) keys s.

(** [placeOneShipRandomly(board, length)] on the oracle [random], read from
    position [pos] on: the board and the position after the call, or
    [OutOfFuel] when [fuel] passes of the loop all ended in [continue]. *)
Fixpoint placeOneShipRandomly (fuel : nat) (random : nat -> sample) (pos : nat)
    (board : Board string) (length : Z) : result (Board string * nat) :=
  match fuel with
  | O => OutOfFuel
  | S fuel' =>
      let candidate :=
        drawCandidate length (random pos) (random (S pos)) (random (S (S pos))) in
      if existsb (fun k => JSSet.has (shipCells board) k) candidate
      then placeOneShipRandomly fuel' random (S (S (S pos))) board length
      else Ok (mkBoard (addAll candidate (shipCells board)) (hitCells board) (missCells board),
               S (S (S pos)))
  end.

(** [for (const length of SHIPS) placeOneShipRandomly(board, length)], each
    call with the budget [fuel]. *)
Fixpoint placeShips (fuel : nat) (random : nat -> sample) (pos : nat)
    (board : Board string) (lengths : list Z) : result (Board string * nat) :=
  match lengths with
  | [] => Ok (board, pos)
  | length :: rest =>
      bp <- placeOneShipRandomly fuel random pos board length ;;
      placeShips fuel random (snd bp) (fst bp) rest
  end.

Definition placeAllShipsRandomly (fuel : nat) (random : nat -> sample) (pos : nat)
    (board : Board string) : result (Board string * nat) :=
  placeShips fuel random pos board SHIPS.

Definition resetGame (fuel : nat) (random : nat -> sample) : result GameState :=
  up <- placeAllShipsRandomly fuel random 0%nat createEmptyBoard ;;
  ap <- placeAllShipsRandomly fuel random (snd up) createEmptyBoard ;;
  Ok (mkGame (fst up) (fst ap) USER false (mkShots 0 0) (mkShots 0 0)
             (mkAiState HUNT [] [])).

(** ** Saved games *)

#[local] Set Warnings "-register-all".

(** The values [JSON.parse] builds.  A number is a rational (every finite
    double is one; [-0] and [0] are not told apart, as in [SameValueZero] and
    in the truth test). *)
Inductive json : Type :=
| JNull
| JBool (b : bool)
| JNum (q : Qc)
| JStr (s : string)
| JArr (items : list json)
| JObj (fields : list (string * json)).

(** [SameValueZero] on parsed values: primitives by value, and two arrays or
    objects never, since every array or object of a parsed text is an object
    of its own. *)
#[export] Instance json_JSEq : JSEq json :=
  fun a b =>
    match a, b with
    | JNull, JNull => true
    | JBool x, JBool y => Bool.eqb x y
    | JNum x, JNum y => Qc_eq_bool x y
    | JStr x, JStr y => String.eqb x y
    | _, _ => false
    end.

(** The truth test of [!!v], [v || d] and [v ? a : b]. *)
Definition truthy (v : json) : bool :=
  match v with
  | JNull => false
  | JBool b => b
  | JNum q => negb (Qc_eq_bool q (Q2Qc 0))
  | JStr s => negb (String.eqb s "")
  | JArr _ => true
  | JObj _ => true
  end.

Fixpoint lookup (name : string) (fields : list (string * json)) : option json :=
  match fields with
  | [] => None
  | (n, v) :: rest => if String.eqb n name then Some v else lookup name rest
  end.

(** [v?.name], with [undefined] as [None]: only an object has one of the
    properties the script reads. *)
Definition get (v : option json) (name : string) : option json :=
  match v with
  | Some (JObj fields) => lookup name fields
  | _ => None
  end.

(** [v === s] for a string literal [s]. *)
Definition strictEqString (v : option json) (s : string) : bool :=
  match v with
  | Some (JStr x) => String.eqb x s
  | _ => false
  end.

(** [v || d] for a possibly undefined [v]. *)
Definition orElse (v : option json) (d : json) : json :=
  match v with
  | Some x => if truthy x then x else d
  | None => d
  end.

(** What [localStorage.getItem(SAVE_KEY)] holds: nothing, a text that is empty
    or that [JSON.parse] rejects, or a text that parses to [data].  The text
    [JSON.stringify] writes for a payload parses back to that payload. *)
Inductive storage : Type :=
| NoItem
| Unparseable
| Item (data : json).

Definition numberOfZ (z : Z) : json := JNum (Q2Qc (inject_Z z)).

Definition jsonOfTurn (t : Turn) : json :=
  JStr (match t with USER => "USER" | AI => "AI" end).

Definition jsonOfMode (m : Mode) : json :=
  JStr (match m with HUNT => "HUNT" | TARGET => "TARGET" end).

Definition jsonOfShots (s : Shots) : json :=
  JObj [("hits", numberOfZ (hits s)); ("misses", numberOfZ (misses s))].

Definition setToArray (s : JSSet.t string) : json :=
  JArr (map JStr (JSSet.to_array s)).

Definition jsonOfBoard (b : Board string) : json :=
  JObj [("shipCells", setToArray (shipCells b));
        ("hitCells", setToArray (hitCells b));
        ("missCells", setToArray (missCells b))].

(** The properties of the object [saveGame] builds, in the order it writes
    them.  [subtitle] and [status] are the texts of the two DOM elements it
    reads. *)
Definition payload (subtitle status : string) (g : GameState) : list (string * json) :=
  [("version", numberOfZ 2);
   ("currentTurn", jsonOfTurn (currentTurn g));
   ("gameOver", JBool (gameOver g));
   ("userShots", jsonOfShots (userShots g));
   ("aiShots", jsonOfShots (aiShots g));
   ("userBoard", jsonOfBoard (userBoard g));
   ("aiBoard", jsonOfBoard (aiBoard g));
   ("aiState", JObj [("mode", jsonOfMode (mode (aiState g)));
                     ("targetQueue", JArr (map JStr (targetQueue (aiState g))));
                     ("clusterHits", JArr (map JStr (clusterHits (aiState g))))]);
   ("ui", JObj [("subtitle", JStr subtitle); ("status", JStr status)])].

(** [saveGame()]: the item it stores. *)
Definition saveGame (subtitle status : string) (g : GameState) : storage :=
  Item (JObj (payload subtitle status g)).

(** [new Set(x)]: an array gives its items, a string its characters, and
    anything else is not iterable. *)
Definition newSet (x : json) : result (JSSet.t json) :=
  match x with
  | JArr items => Ok (JSSet.of_array items)
  | JStr s => Ok (JSSet.of_array (map (fun ch => JStr (String ch "")) (list_ascii_of_string s)))
  | _ => TypeError
  end.

(** [arrayToSet(a)] is [new Set(a || [])]. *)
Definition arrayToSet (a : option json) : result (JSSet.t json) :=
  newSet (orElse a (JArr [])).

Definition loadBoard (b : option json) : result (Board json) :=
  ships <- arrayToSet (get b "shipCells") ;;
  hit <- arrayToSet (get b "hitCells") ;;
  miss <- arrayToSet (get b "missCells") ;;
  Ok (mkBoard ships hit miss).

(** [const { r, c } = parseKey(k); markCell(owner, r, c, isHit);] for a value
    [k] of a restored set: [k.split] exists only on a string. *)
Definition paintKey (k : json) : result unit :=
  match k with
  | JStr s => let p := parseKey s in markCell (r p) (c p)
  | _ => TypeError
  end.

Fixpoint paintKeys (ks : list json) : result unit :=
  match ks with
  | [] => Ok tt
  | k :: rest => _ <- paintKey k ;; paintKeys rest
  end.

Definition arrayOrEmpty (v : option json) : list json :=
  match v with
  | Some (JArr items) => items
  | _ => []
  end.

(** [loadGame()]: [Ok None] when it returns [false], [Ok (Some g)] when it
    returns [true] with the bindings [g], [TypeError] when it throws. *)
Definition loadGame (item : storage) : result (option (Game json json)) :=
  match item with
  | NoItem => Ok None
  | Unparseable => Ok None
  | Item parsed =>
      let data := Some parsed in
      userBoard <- loadBoard (get data "userBoard") ;;
      aiBoard <- loadBoard (get data "aiBoard") ;;
      let currentTurn :=
        if strictEqString (get data "currentTurn") "AI" then AI else USER in
      let gameOver :=
        match get data "gameOver" with
        | Some v => truthy v
        | None => false
        end in
      let userShots := orElse (get data "userShots") (jsonOfShots (mkShots 0 0)) in
      let aiShots := orElse (get data "aiShots") (jsonOfShots (mkShots 0 0)) in
      let aiState :=
        mkAiState
          (if strictEqString (get (get data "aiState") "mode") "TARGET" then TARGET else HUNT)
          (arrayOrEmpty (get (get data "aiState") "targetQueue"))
          (arrayOrEmpty (get (get data "aiState") "clusterHits")) in
      _ <- paintKeys (JSSet.elems (hitCells userBoard)) ;;
      _ <- paintKeys (JSSet.elems (missCells userBoard)) ;;
      _ <- paintKeys (JSSet.elems (hitCells aiBoard)) ;;
      _ <- paintKeys (JSSet.elems (missCells aiBoard)) ;;
      Ok (Some (mkGame userBoard aiBoard currentTurn gameOver userShots aiShots aiState))
  end.


(** * Properties *)

(** ** Sets of keys *)

Lemma includes_In (k : string) (l : list string) :
  JSSet.includes k l = true <-> In k l.
Proof.
  unfold JSSet.includes. rewrite existsb_exists. split.
  - intros [x [Hin Heq]]. apply String.eqb_eq in Heq. now subst.
  - intros Hin. exists k. split; [assumption | apply String.eqb_refl].
Qed.

Lemma has_In (s : JSSet.t string) (k : string) :
  JSSet.has s k = true <-> In k (JSSet.elems s).
Proof. apply includes_In. Qed.

Lemma distinct_NoDup (l : list string) : JSSet.distinct l = true -> NoDup l.
Proof.
  induction l as [|x t IH]; simpl; intros Hd; constructor.
  - apply andb_true_iff in Hd as [Hx _]. intros Hin.
    rewrite forallb_forall in Hx. specialize (Hx x Hin).
    unfold same_value_zero, string_JSEq in Hx. now rewrite String.eqb_refl in Hx.
  - apply andb_true_iff in Hd as [_ Ht]. now apply IH.
Qed.

Lemma elems_NoDup (s : JSSet.t string) : NoDup (JSSet.elems s).
Proof. apply distinct_NoDup, JSSet.elems_distinct. Qed.

Lemma has_add (s : JSSet.t string) (k x : string) :
  JSSet.has (JSSet.add k s) x = JSSet.has s x || String.eqb x k.
Proof.
  unfold JSSet.has at 1. rewrite JSSet.elems_add.
  destruct (JSSet.has s k) eqn:Hk.
  - destruct (String.eqb x k) eqn:Hx.
    + apply String.eqb_eq in Hx. subst. fold (JSSet.has s k). rewrite Hk. reflexivity.
    + now rewrite orb_false_r.
  - unfold JSSet.includes. rewrite existsb_app. simpl. now rewrite orb_false_r.
Qed.

Lemma has_empty (x : string) : JSSet.has (@JSSet.empty string _) x = false.
Proof. reflexivity. Qed.

(** ** The board model *)

(** A shot at an already shot key is refused before anything is written. *)
Lemma applyShot_refused (board : Board string) (r c : num) :
  alreadyShot board (keyOf r c) = true -> applyShot board r c = (Ok Invalid, board).
Proof. intros Hshot. unfold applyShot. now rewrite Hshot. Qed.

(** Whatever a call did, its key is shot afterwards. *)
Lemma applyShot_marks (board : Board string) (r c : num) :
  alreadyShot (snd (applyShot board r c)) (keyOf r c) = true.
Proof.
  unfold applyShot. destruct (alreadyShot board (keyOf r c)) eqn:Hshot; simpl.
  - exact Hshot.
  - unfold alreadyShot.
    destruct (JSSet.has (shipCells board) (keyOf r c)); simpl;
      rewrite has_add, String.eqb_refl, ?orb_true_r; reflexivity.
Qed.

(** What a call that is not refused writes. *)
Lemma applyShot_fresh (board : Board string) (r c : num) :
  alreadyShot board (keyOf r c) = false ->
  snd (applyShot board r c) =
    if JSSet.has (shipCells board) (keyOf r c)
    then mkBoard (shipCells board) (JSSet.add (keyOf r c) (hitCells board)) (missCells board)
    else mkBoard (shipCells board) (hitCells board) (JSSet.add (keyOf r c) (missCells board)).
Proof.
  intros Hshot. unfold applyShot. rewrite Hshot.
  destruct (JSSet.has (shipCells board) (keyOf r c)); reflexivity.
Qed.

(** C7. Re-fire: a shot at a key that is already in [hitCells] or [missCells]
    returns [valid = false] and leaves the board, with its three sets, as it
    was; so the second of two shots at one cell is refused and changes
    nothing, whatever the first one did. *)
Theorem applyShot_refire_is_noop (board : Board string) (r c : num) :
  (alreadyShot board (keyOf r c) = true ->
     applyShot board r c = (Ok Invalid, board) /\ valid Invalid = false) /\
  (let board1 := snd (applyShot board r c) in
   applyShot board1 r c = (Ok Invalid, board1)).
Proof.
  split.
  - intros Hshot. split; [now apply applyShot_refused | reflexivity].
  - cbv zeta. apply applyShot_refused, applyShot_marks.
Qed.

(** The boards a sequence of calls of [applyShot] leaves, a call that throws
    in [markCell] included. *)
Definition applyShots (board : Board string) (shots : list (num * num)) : Board string :=
  fold_left (fun b rc => snd (applyShot b (fst rc) (snd rc))) shots board.

Definition hitMissDisjoint (board : Board string) : Prop :=
  forall k, JSSet.has (hitCells board) k = true -> JSSet.has (missCells board) k = false.

Definition hitsAreShips (board : Board string) : Prop :=
  forall k, JSSet.has (hitCells board) k = true -> JSSet.has (shipCells board) k = true.

(** Every key of [s1] is a key of [s2]. *)
Definition keptIn (s1 s2 : JSSet.t string) : Prop :=
  forall k, JSSet.has s1 k = true -> JSSet.has s2 k = true.

Lemma applyShot_step (board : Board string) (r c : num) :
  let board' := snd (applyShot board r c) in
  shipCells board' = shipCells board /\
  keptIn (hitCells board) (hitCells board') /\
  keptIn (missCells board) (missCells board') /\
  (hitMissDisjoint board -> hitMissDisjoint board') /\
  (hitsAreShips board -> hitsAreShips board').
Proof.
  cbv zeta. destruct (alreadyShot board (keyOf r c)) eqn:Hshot.
  - rewrite (applyShot_refused _ _ _ Hshot). simpl.
    repeat split; unfold keptIn; auto.
  - rewrite (applyShot_fresh _ _ _ Hshot).
    apply orb_false_iff in Hshot as [Hhit Hmiss].
    destruct (JSSet.has (shipCells board) (keyOf r c)) eqn:Hship; simpl;
      unfold keptIn, hitMissDisjoint, hitsAreShips; simpl;
      repeat split; try (intros k; rewrite has_add; intros ->; reflexivity); auto.
    + intros Hdis k. rewrite has_add. intros Hk.
      apply orb_true_iff in Hk as [Hk | Hk]; [now apply Hdis |].
      apply String.eqb_eq in Hk. now subst.
    + intros Hsub k. rewrite has_add. intros Hk.
      apply orb_true_iff in Hk as [Hk | Hk]; [now apply Hsub |].
      apply String.eqb_eq in Hk. now subst.
    + intros Hdis k Hk. rewrite has_add, (Hdis k Hk). simpl.
      destruct (String.eqb k (keyOf r c)) eqn:Hkk; [| reflexivity].
      apply String.eqb_eq in Hkk. subst. congruence.
Qed.

(** C4. Coverage: over any sequence of shots at a board, [shipCells] stays
    what it was, no key ever leaves [hitCells] or [missCells], the two stay
    disjoint if they were, and [hitCells] stays within [shipCells] if it was;
    all of it holds outright for a board that starts without shots. *)
Theorem applyShots_coverage (board : Board string) (shots : list (num * num)) :
  let board' := applyShots board shots in
  shipCells board' = shipCells board /\
  keptIn (hitCells board) (hitCells board') /\
  keptIn (missCells board) (missCells board') /\
  (hitMissDisjoint board -> hitMissDisjoint board') /\
  (hitsAreShips board -> hitsAreShips board') /\
  (forall ships : JSSet.t string,
     let fresh := applyShots (mkBoard ships JSSet.empty JSSet.empty) shots in
     hitMissDisjoint fresh /\ hitsAreShips fresh).
Proof.
  cbv zeta.
  assert (Hgen : forall b,
    shipCells (applyShots b shots) = shipCells b /\
    keptIn (hitCells b) (hitCells (applyShots b shots)) /\
    keptIn (missCells b) (missCells (applyShots b shots)) /\
    (hitMissDisjoint b -> hitMissDisjoint (applyShots b shots)) /\
    (hitsAreShips b -> hitsAreShips (applyShots b shots))).
  { induction shots as [|[r0 c0] rest IH]; intros b.
    - simpl. unfold keptIn. auto.
    - unfold applyShots in *. simpl.
      destruct (applyShot_step b r0 c0) as (Hs & Hh & Hm & Hd & Hsub).
      destruct (IH (snd (applyShot b r0 c0))) as (Hs' & Hh' & Hm' & Hd' & Hsub').
      repeat split.
      + now rewrite Hs'.
      + intros k Hk. now apply Hh', Hh.
      + intros k Hk. now apply Hm', Hm.
      + auto.
      + auto. }
  destruct (Hgen board) as (Hs & Hh & Hm & Hd & Hsub).
  repeat split; auto.
  - apply (Hgen (mkBoard ships JSSet.empty JSSet.empty)). intros k. simpl. discriminate.
  - apply (Hgen (mkBoard ships JSSet.empty JSSet.empty)). intros k. simpl. discriminate.
Qed.

(** With the hits among the ship cells, equal sizes mean that every ship cell
    is hit. *)
Lemma hasWon_iff_all_hit (board : Board string) :
  hitsAreShips board ->
  (hasWon board = true <-> keptIn (shipCells board) (hitCells board)).
Proof.
  intros Hsub.
  assert (Hincl : incl (JSSet.elems (hitCells board)) (JSSet.elems (shipCells board))).
  { intros k Hk. apply has_In, Hsub, has_In, Hk. }
  unfold hasWon, JSSet.size. rewrite Z.eqb_eq, Nat2Z.inj_iff. split.
  - intros Hlen k Hk. apply has_In. apply has_In in Hk.
    refine (NoDup_length_incl (elems_NoDup (hitCells board)) _ Hincl k Hk). lia.
  - intros Hall.
    assert (Hincl' : incl (JSSet.elems (shipCells board)) (JSSet.elems (hitCells board))).
    { intros k Hk. apply has_In, Hall, has_In, Hk. }
    pose proof (NoDup_incl_length (elems_NoDup (hitCells board)) Hincl).
    pose proof (NoDup_incl_length (elems_NoDup (shipCells board)) Hincl').
    lia.
Qed.

(** C8. Win exactness: on a board whose hits are all ship cells, [hasWon] is
    true exactly when every ship cell is a hit; so it is true when there is no
    ship cell at all. *)
Theorem hasWon_exact (board : Board string) (Hsub : hitsAreShips board) :
  (hasWon board = true <-> keptIn (shipCells board) (hitCells board)) /\
  (JSSet.elems (shipCells board) = [] -> hasWon board = true).
Proof.
  pose proof (hasWon_iff_all_hit board Hsub) as Hiff.
  split; [exact Hiff |].
  intros Hempty. apply Hiff. intros k Hk. apply has_In in Hk.
  rewrite Hempty in Hk. destruct Hk.
Qed.

Definition wonBoard : Board string :=
  mkBoard (JSSet.of_array ["0,0"; "0,1"]) (JSSet.of_array ["0,1"; "0,0"]) JSSet.empty.

Lemma hasWon_exact_witness :
  (hasWon wonBoard = true <-> keptIn (shipCells wonBoard) (hitCells wonBoard)) /\
  (JSSet.elems (shipCells wonBoard) = [] -> hasWon wonBoard = true).
Proof.
  apply (hasWon_exact wonBoard).
  intros k. unfold JSSet.has, JSSet.includes. simpl.
  unfold same_value_zero, string_JSEq.
  destruct (String.eqb k "0,1"), (String.eqb k "0,0"); simpl; intros Hk;
    solve [reflexivity | discriminate Hk].
Defined.

(** ** HUNT mode *)

Lemma gridIndices_spec (z : Z) : In z gridIndices <-> 0 <= z < GRID_SIZE.
Proof.
  unfold gridIndices. rewrite in_map_iff. split.
  - intros [n [Hn Hin]]. apply in_seq in Hin. unfold GRID_SIZE in *. simpl in Hin. lia.
  - intros Hz. exists (Z.to_nat z). split; [lia |].
    apply in_seq. unfold GRID_SIZE in *. simpl. lia.
Qed.

Lemma gridCells_spec (p : Coord) : In p gridCells <-> coordInBounds p = true.
Proof.
  unfold gridCells, coordInBounds, inBounds, in_range.
  rewrite in_flat_map. split.
  - intros [a [Ha Hin]]. apply in_map_iff in Hin as [b [Hp Hb]]. subst p. simpl.
    apply gridIndices_spec in Ha. apply gridIndices_spec in Hb.
    apply andb_true_iff; split; apply andb_true_iff; split; lia.
  - destruct p as [x y]. cbn [r c]. intros Hin.
    apply andb_true_iff in Hin as [Ha Hb].
    destruct x as [a| |]; try discriminate Ha.
    destruct y as [b| |]; try discriminate Hb.
    apply andb_true_iff in Ha as [Ha1 Ha2]. apply andb_true_iff in Hb as [Hb1 Hb2].
    exists a. split; [apply gridIndices_spec; lia |].
    apply in_map_iff. exists b. split; [reflexivity | apply gridIndices_spec; lia].
Qed.

(** Rounding moves a product by at most its [2^-53]-th part. *)
Lemma round53_error (P : Z) :
  0 <= P -> - P <= (round53 P - P) * two53 <= P.
Proof.
  intros HP. destruct (Z.eq_dec P 0) as [-> | Hne]; [vm_compute; split; discriminate |].
  assert (Hpos : 0 < P) by lia.
  unfold round53. rewrite (Z.abs_eq P HP), (Z.sgn_pos P Hpos), Z.mul_1_l.
  destruct (Z.log2_spec P Hpos) as [Hlow _].
  set (s := Z.max 0 (Z.log2 P - 52)).
  assert (Hs : 0 <= s) by (unfold s; lia).
  rewrite (Z.shiftr_div_pow2 P s Hs), !(Z.shiftl_mul_pow2 _ s Hs).
  assert (H2s : 0 < 2 ^ s) by (apply Z.pow_pos_nonneg; lia).
  pose proof (Z.div_mod P (2 ^ s) ltac:(lia)) as Hdm.
  pose proof (Z.mod_pos_bound P (2 ^ s) H2s) as Hrem.
  assert (Hunit : 2 ^ s * 2 ^ 52 <= P \/ P mod 2 ^ s = 0).
  { destruct (Z.max_spec 0 (Z.log2 P - 52)) as [[Hlt Hmax] | [Hle Hmax]]; fold s in Hmax.
    - left. rewrite Hmax, <- Z.pow_add_r by lia.
      replace (Z.log2 P - 52 + 52) with (Z.log2 P) by lia. exact Hlow.
    - right. now rewrite Hmax, Z.pow_0_r, Z.mod_1_r. }
  replace (P - P / 2 ^ s * 2 ^ s) with (P mod 2 ^ s) by lia.
  change two53 with (2 * 2 ^ 52).
  assert (H52 : 0 < 2 ^ 52) by reflexivity.
  remember (2 ^ 52) as T eqn:HeqT. remember (2 ^ s) as U eqn:HeqU.
  remember (P / U) as q eqn:Heqq. remember (P mod U) as rest eqn:Heqrest.
  clear HeqT HeqU Heqq Heqrest Hlow Hs s.
  destruct ((U <? 2 * rest) || ((2 * rest =? U) && Z.odd q)) eqn:Hup.
  - assert (Hhalf : U <= 2 * rest).
    { apply orb_true_iff in Hup as [Hup | Hup]; [apply Z.ltb_lt in Hup; lia |].
      apply andb_true_iff in Hup as [Hup _]. apply Z.eqb_eq in Hup. lia. }
    destruct Hunit as [Hunit | Hzero]; nia.
  - apply orb_false_iff in Hup as [Hup _]. apply Z.ltb_ge in Hup.
    destruct Hunit as [Hunit | Hzero]; nia.
Qed.

(** [randomInt(0, n - 1)] is an index of an array of [n > 0] elements: the
    rounded product stays below [n]. *)
Lemma randomInt_index (n : Z) (k : sample) :
  0 < n -> 0 <= randomInt 0 (n - 1) k < n.
Proof.
  intros Hn. unfold randomInt.
  assert (H53 : 0 < two53) by reflexivity.
  pose proof (Z.mod_pos_bound k two53 H53) as Hm.
  replace (n - 1 - 0 + 1) with n by lia. rewrite Z.add_0_r.
  pose proof (round53_error (k mod two53 * n) ltac:(nia)) as Herr.
  set (R := round53 (k mod two53 * n)) in *. set (m := k mod two53) in *.
  generalize dependent two53. intros T HT Hm Herr. split.
  - apply Z.div_pos; [nia | exact HT].
  - apply Z.div_lt_upper_bound; [exact HT |]. nia.
Qed.

(** The cells [aiChooseHuntTarget] collects: the grid cells not yet shot. *)
Definition unshotCells (userBoard : Board string) : list Coord :=
  filter (fun p => negb (alreadyShot userBoard (coordKey p))) gridCells.

Lemma unshotCells_spec (userBoard : Board string) (p : Coord) :
  In p (unshotCells userBoard) <->
  coordInBounds p = true /\ alreadyShot userBoard (coordKey p) = false.
Proof.
  unfold unshotCells. rewrite filter_In, gridCells_spec, negb_true_iff. reflexivity.
Qed.

Lemma aiChooseHuntTarget_pool (userBoard : Board string) (k : sample) :
  let parityCells := filter evenParity (unshotCells userBoard) in
  let otherCells := filter (fun p => negb (evenParity p)) (unshotCells userBoard) in
  let pool := match parityCells with [] => otherCells | _ :: _ => parityCells end in
  aiChooseHuntTarget userBoard k =
    nth_error pool (Z.to_nat (randomInt 0 (Z.of_nat (List.length pool) - 1) k)).
Proof.
  cbv zeta. unfold aiChooseHuntTarget. fold (unshotCells userBoard).
  rewrite partition_as_filter. reflexivity.
Qed.

Lemma aiChooseHuntTarget_unshot (userBoard : Board string) (k : sample) (p : Coord) :
  aiChooseHuntTarget userBoard k = Some p -> In p (unshotCells userBoard).
Proof.
  rewrite aiChooseHuntTarget_pool. cbv zeta. intros Hnth. apply nth_error_In in Hnth.
  destruct (filter evenParity (unshotCells userBoard)) eqn:Hpar.
  - now apply filter_In in Hnth.
  - rewrite <- Hpar in Hnth. now apply filter_In in Hnth.
Qed.

(** With an unshot cell left, the index drawn is an index of the pool. *)
Lemma aiChooseHuntTarget_returns (userBoard : Board string) (k : sample) (q : Coord) :
  In q (unshotCells userBoard) -> exists p, aiChooseHuntTarget userBoard k = Some p.
Proof.
  intros Hq. rewrite aiChooseHuntTarget_pool. cbv zeta.
  set (parityCells := filter evenParity (unshotCells userBoard)).
  set (otherCells := filter (fun p => negb (evenParity p)) (unshotCells userBoard)).
  set (pool := match parityCells with [] => otherCells | _ :: _ => parityCells end).
  assert (Hne : (0 < List.length pool)%nat).
  { destruct (evenParity q) eqn:Heven.
    - assert (Hin : In q parityCells) by (apply filter_In; auto).
      subst pool. destruct parityCells; [destruct Hin | simpl; lia].
    - assert (Hin : In q otherCells) by (apply filter_In; rewrite Heven; auto).
      subst pool. destruct parityCells; [| simpl; lia].
      destruct otherCells; [destruct Hin | simpl; lia]. }
  pose proof (randomInt_index (Z.of_nat (List.length pool)) k ltac:(lia)) as Hidx.
  destruct (nth_error pool (Z.to_nat (randomInt 0 (Z.of_nat (List.length pool) - 1) k)))
    as [p|] eqn:Hnth; [eauto |].
  apply nth_error_None in Hnth. lia.
Qed.

(** C9. HUNT mode always finds a shot: when some cell of the grid is not yet
    shot, [aiChooseHuntTarget] returns a cell (never [undefined]), that cell is
    on the grid and not yet shot, it has even parity whenever some unshot cell
    has, and [aiDecideNextShot] returns it in HUNT mode and returns some cell
    in any mode, so the [TypeError] of [aiTakeTurnLoop] cannot happen. *)
Theorem aiChooseHuntTarget_total (userBoard : Board string) (k : sample)
    (Hopen : exists q, coordInBounds q = true /\ alreadyShot userBoard (coordKey q) = false) :
  exists p,
    aiChooseHuntTarget userBoard k = Some p /\
    coordInBounds p = true /\
    alreadyShot userBoard (coordKey p) = false /\
    ((exists q, coordInBounds q = true /\
                alreadyShot userBoard (coordKey q) = false /\
                evenParity q = true) -> evenParity p = true) /\
    (forall queue cluster,
       aiDecideNextShot userBoard (mkAiState HUNT queue cluster) k
       = (Some p, mkAiState HUNT queue cluster)) /\
    (forall st, exists p' st', aiDecideNextShot userBoard st k = (Some p', st')).
Proof.
  destruct Hopen as [q Hq]. apply unshotCells_spec in Hq.
  destruct (aiChooseHuntTarget_returns userBoard k q Hq) as [p Hhunt].
  exists p.
  pose proof (aiChooseHuntTarget_unshot userBoard k p Hhunt) as Hp.
  apply unshotCells_spec in Hp as [Hb Hs].
  repeat split; try assumption.
  - intros [q' (Hb' & Hs' & He')].
    assert (Hin : In q' (filter evenParity (unshotCells userBoard))).
    { apply filter_In. split; [apply unshotCells_spec; auto | exact He']. }
    rewrite aiChooseHuntTarget_pool in Hhunt. cbv zeta in Hhunt.
    apply nth_error_In in Hhunt.
    destruct (filter evenParity (unshotCells userBoard)) eqn:Hpar; [destruct Hin |].
    rewrite <- Hpar in Hhunt. now apply filter_In in Hhunt.
  - intros queue cluster. unfold aiDecideNextShot. simpl. now rewrite Hhunt.
  - intros st. unfold aiDecideNextShot. destruct (mode st).
    + rewrite Hhunt. eauto.
    + destruct (aiChooseTargetModeCell userBoard (targetQueue st)) as [[t|] queue].
      * eauto.
      * rewrite Hhunt. eauto.
Qed.

Definition openBoard : Board string :=
  mkBoard (JSSet.of_array ["4,3"; "4,4"; "4,5"])
          (JSSet.of_array ["4,4"])
          (JSSet.of_array ["0,0"; "0,1"]).

Lemma aiChooseHuntTarget_total_witness :
  exists p,
    aiChooseHuntTarget openBoard 12345 = Some p /\
    coordInBounds p = true /\
    alreadyShot openBoard (coordKey p) = false /\
    ((exists q, coordInBounds q = true /\
                alreadyShot openBoard (coordKey q) = false /\
                evenParity q = true) -> evenParity p = true) /\
    (forall queue cluster,
       aiDecideNextShot openBoard (mkAiState HUNT queue cluster) 12345
       = (Some p, mkAiState HUNT queue cluster)) /\
    (forall st, exists p' st', aiDecideNextShot openBoard st 12345 = (Some p', st')).
Proof.
  apply (aiChooseHuntTarget_total openBoard 12345).
  exists (mkCoord (Int 0) (Int 2)). split; reflexivity.
Defined.

(** ** TARGET mode: the search of the cluster ends *)

Definition gridKeys : list string := map coordKey gridCells.

(** The keys of grid cells that the search has not visited yet. *)
Definition unvisited (visited : JSSet.t string) : nat :=
  List.length (filter (fun k => negb (JSSet.has visited k)) gridKeys).
Arguments unvisited : simpl never.

Lemma filter_length_lt {A : Type} (f g : A -> bool) (l : list A) (x : A) :
  (forall y, f y = true -> g y = true) ->
  In x l -> g x = true -> f x = false ->
  (List.length (filter f l) < List.length (filter g l))%nat.
Proof.
  intros Hfg Hin Hgx Hfx.
  assert (Hle : forall l', (List.length (filter f l') <= List.length (filter g l'))%nat).
  { induction l' as [|y t IH]; simpl; [lia |].
    destruct (f y) eqn:Hfy.
    - rewrite (Hfg y Hfy). simpl. lia.
    - destruct (g y); simpl; lia. }
  induction l as [|y t IH]; [destruct Hin |].
  simpl. destruct Hin as [-> | Hin].
  - rewrite Hfx, Hgx. simpl. specialize (Hle t). lia.
  - specialize (IH Hin). destruct (f y) eqn:Hfy.
    + rewrite (Hfg y Hfy). simpl. lia.
    + destruct (g y); simpl; lia.
Qed.

Lemma unvisited_add (visited : JSSet.t string) (nk : string) :
  In nk gridKeys -> JSSet.has visited nk = false ->
  (unvisited (JSSet.add nk visited) < unvisited visited)%nat.
Proof.
  intros Hin Hnk. unfold unvisited.
  apply filter_length_lt with (x := nk).
  - intros y. rewrite has_add, !negb_true_iff. intros Hy.
    now apply orb_false_iff in Hy as [Hy _].
  - exact Hin.
  - now rewrite Hnk.
  - now rewrite has_add, String.eqb_refl, orb_true_r.
Qed.

Lemma neighbors4_inBounds (r c : num) (nb : Coord) :
  In nb (neighbors4 r c) -> coordInBounds nb = true.
Proof. unfold neighbors4. intros Hin. now apply filter_In in Hin. Qed.

Lemma coordKey_gridKeys (p : Coord) : coordInBounds p = true -> In (coordKey p) gridKeys.
Proof. intros Hp. apply in_map, gridCells_spec, Hp. Qed.

(** A pass over the neighbours pushes no more keys than it visits. *)
Lemma visitNeighbors_measure (userBoard : Board string) (nbs : list Coord) :
  (forall nb, In nb nbs -> coordInBounds nb = true) ->
  forall (visited : JSSet.t string) (queue : list string),
    (List.length (snd (visitNeighbors userBoard nbs visited queue))
     + unvisited (fst (visitNeighbors userBoard nbs visited queue))
     <= List.length queue + unvisited visited)%nat.
Proof.
  unfold visitNeighbors.
  induction nbs as [|nb rest IH]; intros Hnbs visited queue; simpl; [lia |].
  assert (Hrest : forall nb', In nb' rest -> coordInBounds nb' = true)
    by (intros nb' Hin; apply Hnbs; now right).
  destruct (negb (JSSet.has visited (coordKey nb))
            && JSSet.has (hitCells userBoard) (coordKey nb)) eqn:Hcond.
  - apply andb_true_iff in Hcond as [Hnew _]. apply negb_true_iff in Hnew.
    pose proof (unvisited_add visited (coordKey nb)
                  (coordKey_gridKeys nb (Hnbs nb (or_introl eq_refl))) Hnew) as Hlt.
    specialize (IH Hrest (JSSet.add (coordKey nb) visited) (queue ++ [coordKey nb])).
    rewrite length_app in IH. simpl in IH. lia.
  - replace (visited, queue) with (fst (visited, queue), snd (visited, queue)) by reflexivity.
    apply (IH Hrest visited queue).
Qed.

Lemma clusterLoop_returns (userBoard : Board string) (fuel : nat) :
  forall (visited : JSSet.t string) (queue : list string),
    (List.length queue + unvisited visited <= fuel)%nat ->
    exists cluster, clusterLoop fuel userBoard visited queue = Ok cluster.
Proof.
  induction fuel as [|fuel IH]; intros visited queue Hfuel.
  - destruct queue; [simpl; eauto | cbn [List.length] in Hfuel; lia].
  - destruct queue as [|k queue']; [simpl; eauto |].
    cbn [clusterLoop]. apply IH.
    pose proof (visitNeighbors_measure userBoard
                  (neighbors4 (r (parseKey k)) (c (parseKey k)))
                  (neighbors4_inBounds _ _) visited queue') as Hstep.
    cbn [List.length] in Hfuel. lia.
Qed.

(** The budget of [recomputeClusterFromHit] is never used up. *)
Lemma recomputeClusterFromHit_returns (userBoard : Board string) (hitKey : string) :
  exists cluster, recomputeClusterFromHit userBoard hitKey = Ok cluster.
Proof.
  unfold recomputeClusterFromHit. apply clusterLoop_returns.
  unfold unvisited.
  pose proof (filter_length_le
                (fun k => negb (JSSet.has (JSSet.add hitKey JSSet.empty) k)) gridKeys) as Hle.
  assert (Hkeys : List.length gridKeys = 100%nat) by (vm_compute; reflexivity).
  assert (Hfuel : clusterFuel = 101%nat) by (vm_compute; reflexivity).
  cbn [List.length]. lia.
Qed.

Lemma inferOrientation_nonempty (clusterHits : list string) (ori : Orientation) :
  inferOrientation clusterHits = Some ori -> clusterHits <> [].
Proof. intros Hori ->. discriminate Hori. Qed.

Lemma extendLineTargets_returns (userBoard : Board string) (clusterHits : list string)
    (ori : Orientation) (targetQueue : list string) :
  clusterHits <> [] ->
  exists queue, extendLineTargets userBoard clusterHits ori targetQueue = Ok queue.
Proof.
  intros Hne. unfold extendLineTargets.
  destruct clusterHits as [|hk rest]; [congruence |]. simpl. eauto.
Qed.

(** [aiAfterHit] neither throws nor runs out of budget, and leaves the AI
    in TARGET mode. *)
Lemma aiAfterHit_returns (userBoard : Board string) (st : AiState string) (hitKey : string) :
  exists st', aiAfterHit userBoard st hitKey = Ok st' /\ mode st' = TARGET.
Proof.
  unfold aiAfterHit.
  destruct (recomputeClusterFromHit_returns userBoard hitKey) as [cluster ->]. simpl.
  destruct (inferOrientation cluster) as [ori|] eqn:Hori; [| eauto].
  destruct (extendLineTargets_returns userBoard cluster ori
              (aiQueueAdjacentsFromHits userBoard cluster (targetQueue st))
              (inferOrientation_nonempty _ _ Hori)) as [queue ->].
  simpl. eauto.
Qed.

(** ** The turn rule *)





Lemma applyShot_valid (board : Board string) (r c : num) :
  cellExists r c = true -> alreadyShot board (keyOf r c) = false ->
  fst (applyShot board r c) = Ok (Valid (JSSet.has (shipCells board) (keyOf r c)) (keyOf r c)).
Proof.
  intros Hcell Hshot. unfold applyShot, markCell. now rewrite Hshot, Hcell.
Qed.


(** A game with one ship of three cells in row 4, columns 3 to 5, on each
    board. *)
Definition rowShipBoard : Board string :=
  mkBoard (JSSet.of_array [keyOf (Int 4) (Int 3); keyOf (Int 4) (Int 4); keyOf (Int 4) (Int 5)])
          JSSet.empty JSSet.empty.

Definition rowShipGame (turn : Turn) : GameState :=
  mkGame rowShipBoard rowShipBoard turn false (mkShots 0 0) (mkShots 0 0)
         (mkAiState HUNT [] []).


(** The user hits at (4,4) and keeps the turn; the user misses at (0,0) and
    the turn passes. *)
Example user_hit_keeps_turn :
  exists g', onUserFireAtAI (rowShipGame USER) (Int 4) (Int 4) = Ok g' /\
             currentTurn g' = USER /\ gameOver g' = false.
Proof. eexists. vm_compute. repeat split. Qed.

Example user_miss_passes_turn :
  exists g', onUserFireAtAI (rowShipGame USER) (Int 0) (Int 0) = Ok g' /\
             currentTurn g' = AI /\ gameOver g' = false.
Proof. eexists. vm_compute. repeat split. Qed.

(** ** The targeting scenario *)

(** A hit of the AI at [(r, c)], as the hit branch of [aiTakeTurnLoop]
    records it: [applyShot] puts the key into [hitCells], then
    [aiAfterHit(shot.key)] runs.  A shot that is not a hit leaves the AI state
    alone. *)
Definition recordHit (bs : Board string * AiState string) (r c : num)
    : result (Board string * AiState string) :=
  let (thrown_or_shot, board) := applyShot (fst bs) r c in
  shot <- thrown_or_shot ;;
  match shot with
  | Valid true key => st <- aiAfterHit board (snd bs) key ;; Ok (board, st)
  | _ => Ok (board, snd bs)
  end.

Definition freshAiState : AiState string := mkAiState HUNT [] [].

Definition afterFirstHit : result (Board string * AiState string) :=
  recordHit (rowShipBoard, freshAiState) (Int 4) (Int 4).

Definition afterSecondHit : result (Board string * AiState string) :=
  bs <- afterFirstHit ;; recordHit bs (Int 4) (Int 3).

Definition afterThirdHit : result (Board string * AiState string) :=
  bs <- afterSecondHit ;; recordHit bs (Int 4) (Int 5).

(** The AI state of a result, when there is one. *)
Definition aiStateOf (res : result (Board string * AiState string))
    : option (AiState string) :=
  match res with Ok bs => Some (snd bs) | _ => None end.

(** After the hit at (4,4): one hit, no orientation, the four neighbours
    queued. *)
Lemma first_hit_state :
  aiStateOf afterFirstHit =
    Some (mkAiState TARGET ["3,4"; "5,4"; "4,3"; "4,5"] ["4,4"]).
Proof. vm_compute. reflexivity. Qed.

(** After the hit at (4,3): the row is known and its two ends lead the
    queue. *)
Lemma second_hit_state :
  aiStateOf afterSecondHit =
    Some (mkAiState TARGET ["4,2"; "4,5"; "3,4"; "5,4"; "4,3"; "3,3"; "5,3"]
                    ["4,3"; "4,4"]).
Proof. vm_compute. reflexivity. Qed.

Lemma third_hit_state :
  aiStateOf afterThirdHit =
    Some (mkAiState TARGET
            ["4,2"; "4,6"; "4,5"; "3,4"; "5,4"; "4,3"; "3,3"; "5,3"; "3,5"; "5,5"]
            ["4,5"; "4,4"; "4,3"]).
Proof. vm_compute. reflexivity. Qed.

(** C1. Targeting convergence: against a board whose only ship is row 4,
    columns 3 to 5, hits recorded at (4,4), (4,3) and (4,5) in that order, from
    a fresh AI state, leave the AI in TARGET mode with [clusterHits] holding
    exactly the three cells, the orientation inferred as horizontal, and a
    [targetQueue] that starts with the two line extensions (4,2) and (4,6),
    none of which comes again among the candidates behind them. *)
Theorem targeting_convergence :
  exists st rest,
    aiStateOf afterThirdHit = Some st /\
    mode st = TARGET /\
    (forall k, In k (clusterHits st) <->
               k = keyOf (Int 4) (Int 3) \/ k = keyOf (Int 4) (Int 4)
               \/ k = keyOf (Int 4) (Int 5)) /\
    List.length (clusterHits st) = 3%nat /\
    inferOrientation (clusterHits st) = Some H /\
    targetQueue st = keyOf (Int 4) (Int 2) :: keyOf (Int 4) (Int 6) :: rest /\
    JSSet.includes (keyOf (Int 4) (Int 2)) rest = false /\
    JSSet.includes (keyOf (Int 4) (Int 6)) rest = false.
Proof.
  eexists. eexists. split; [exact third_hit_state |].
  cbn [mode clusterHits targetQueue].
  split; [reflexivity |]. split.
  - intros k. change (keyOf (Int 4) (Int 3)) with "4,3".
    change (keyOf (Int 4) (Int 4)) with "4,4".
    change (keyOf (Int 4) (Int 5)) with "4,5".
    simpl. intuition congruence.
  - repeat split; vm_compute; reflexivity.
Qed.

(** ** Ship placement: the retry loop *)

(** The candidate drawn by the pass of the loop that starts reading the
    oracle at [pos]. *)
Definition candidateAt (random : nat -> sample) (pos : nat) (length : Z) : list string :=
  drawCandidate length (random pos) (random (S pos)) (random (S (S pos))).

(** [candidate.some(k => board.shipCells.has(k))] *)
Definition overlaps (board : Board string) (candidate : list string) : bool :=
  existsb (fun k => JSSet.has (shipCells board) k) candidate.

(** Every cell of the grid is a ship cell. *)
Definition gridFull (board : Board string) : Prop :=
  forall p, coordInBounds p = true -> JSSet.has (shipCells board) (coordKey p) = true.

Definition fullBoard : Board string :=
  mkBoard (JSSet.of_array gridKeys) JSSet.empty JSSet.empty.

Lemma has_fold_add (l : list string) (s : JSSet.t string) (x : string) :
  JSSet.has (fold_left (fun s k => JSSet.add k s) l s) x = JSSet.has s x || JSSet.includes x l.
Proof.
  revert s. induction l as [|k t IH]; intros s; simpl.
  - now rewrite orb_false_r.
  - rewrite IH, has_add. unfold same_value_zero, string_JSEq.
    now rewrite orb_assoc.
Qed.

Lemma fullBoard_gridFull : gridFull fullBoard.
Proof.
  intros p Hp. change (shipCells fullBoard) with (JSSet.of_array gridKeys).
  unfold JSSet.of_array. rewrite has_fold_add. apply orb_true_iff. right.
  apply includes_In, coordKey_gridKeys, Hp.
Qed.

Lemma randomInt_range (hi : Z) (k : sample) :
  0 <= hi -> 0 <= randomInt 0 hi k <= hi.
Proof.
  intros Hhi. pose proof (randomInt_index (hi + 1) k ltac:(lia)) as Hidx.
  replace (hi + 1 - 1) with hi in Hidx by lia. lia.
Qed.

(** A candidate for a ship that fits the grid starts at a cell of the grid. *)
Lemma drawCandidate_head (length : Z) (k1 k2 k3 : sample) :
  1 <= length <= GRID_SIZE ->
  exists p rest, coordInBounds p = true /\ drawCandidate length k1 k2 k3 = coordKey p :: rest.
Proof.
  intros Hlen. unfold drawCandidate, candidateKeys.
  destruct (Z.to_nat length) as [|m] eqn:Hm; [lia |].
  pose proof (randomInt_range (GRID_SIZE - length) k2 ltac:(lia)) as Hr2.
  pose proof (randomInt_range (GRID_SIZE - 1) k2 ltac:(unfold GRID_SIZE; lia)) as Hr2'.
  pose proof (randomInt_range (GRID_SIZE - length) k3 ltac:(lia)) as Hr3.
  pose proof (randomInt_range (GRID_SIZE - 1) k3 ltac:(unfold GRID_SIZE; lia)) as Hr3'.
  cbn [seq map Z.of_nat].
  destruct (random_lt_half k1).
  - exists (mkCoord (Int (randomInt 0 (GRID_SIZE - length) k2 + 0))
                    (Int (randomInt 0 (GRID_SIZE - 1) k3))).
    eexists. split; [| reflexivity].
    unfold coordInBounds, inBounds, in_range. cbn [r c].
    apply andb_true_iff; split; apply andb_true_iff; split; lia.
  - exists (mkCoord (Int (randomInt 0 (GRID_SIZE - 1) k2))
                    (Int (randomInt 0 (GRID_SIZE - length) k3 + 0))).
    eexists. split; [| reflexivity].
    unfold coordInBounds, inBounds, in_range. cbn [r c].
    apply andb_true_iff; split; apply andb_true_iff; split; lia.
Qed.

Lemma gridFull_overlaps (board : Board string) (length : Z) (k1 k2 k3 : sample) :
  gridFull board -> 1 <= length <= GRID_SIZE ->
  overlaps board (drawCandidate length k1 k2 k3) = true.
Proof.
  intros Hfull Hlen.
  destruct (drawCandidate_head length k1 k2 k3 Hlen) as (p & rest & Hp & ->).
  unfold overlaps. simpl. now rewrite (Hfull p Hp).
Qed.

(** While every candidate the oracle yields overlaps, the loop goes on. *)
Lemma placeOneShipRandomly_blocked (random : nat -> sample) (board : Board string)
    (length : Z) :
  (forall pos, overlaps board (candidateAt random pos length) = true) ->
  forall fuel pos, placeOneShipRandomly fuel random pos board length = OutOfFuel.
Proof.
  intros Hall. induction fuel as [|fuel IH]; intros pos; simpl; [reflexivity |].
  specialize (Hall pos). unfold overlaps, candidateAt in Hall. rewrite Hall. apply IH.
Qed.

(** The loop returns at the first candidate that does not overlap. *)
Lemma placeOneShipRandomly_accepts (random : nat -> sample) (board : Board string)
    (length : Z) (n : nat) :
  forall pos fuel,
    (forall i, (i < n)%nat -> overlaps board (candidateAt random (pos + 3 * i) length) = true) ->
    overlaps board (candidateAt random (pos + 3 * n) length) = false ->
    (n < fuel)%nat ->
    placeOneShipRandomly fuel random pos board length =
      Ok (mkBoard (addAll (candidateAt random (pos + 3 * n) length) (shipCells board))
                  (hitCells board) (missCells board),
          (pos + 3 * (n + 1))%nat).
Proof.
  induction n as [|n IH]; intros pos fuel Hbefore Hfree Hfuel;
    (destruct fuel as [|fuel]; [lia |]); simpl placeOneShipRandomly.
  - replace (pos + 3 * 0)%nat with pos in * by lia.
    unfold overlaps, candidateAt in Hfree. rewrite Hfree.
    replace (pos + 3 * (0 + 1))%nat with (S (S (S pos))) by lia. reflexivity.
  - pose proof (Hbefore 0%nat ltac:(lia)) as Hfirst.
    replace (pos + 3 * 0)%nat with pos in Hfirst by lia.
    unfold overlaps, candidateAt in Hfirst. rewrite Hfirst.
    rewrite (IH (S (S (S pos))) fuel).
    + replace (S (S (S pos)) + 3 * n)%nat with (pos + 3 * S n)%nat by lia.
      replace (S (S (S pos)) + 3 * (n + 1))%nat with (pos + 3 * (S n + 1))%nat by lia.
      reflexivity.
    + intros i Hi. replace (S (S (S pos)) + 3 * i)%nat with (pos + 3 * S i)%nat by lia.
      apply Hbefore. lia.
    + replace (S (S (S pos)) + 3 * n)%nat with (pos + 3 * S n)%nat by lia. exact Hfree.
    + lia.
Qed.

(** The run of [length] cells that starts at [(startR, startC)] and goes
    down ([vertical]) or to the right lies on the grid. *)
Definition runOnGrid (vertical : bool) (startR startC length : Z) : Prop :=
  0 <= startR /\ 0 <= startC /\
  if vertical
  then startR + length <= GRID_SIZE /\ startC < GRID_SIZE
  else startR < GRID_SIZE /\ startC + length <= GRID_SIZE.

(** The [i]-th cell of that run. *)
Definition runCell (vertical : bool) (startR startC i : Z) : Coord :=
  if vertical
  then mkCoord (Int (startR + i)) (Int startC)
  else mkCoord (Int startR) (Int (startC + i)).

(** Every run of [length] cells on the grid meets a ship cell. *)
Definition noFreeRun (board : Board string) (length : Z) : Prop :=
  forall vertical startR startC,
    runOnGrid vertical startR startC length ->
    exists i, 0 <= i < length /\
              JSSet.has (shipCells board) (coordKey (runCell vertical startR startC i)) = true.

(** The candidate of a pass is a run on the grid, whatever the samples. *)
Lemma drawCandidate_start (length : Z) (k1 k2 k3 : sample) :
  length <= GRID_SIZE ->
  exists vertical startR startC,
    runOnGrid vertical startR startC length /\
    drawCandidate length k1 k2 k3 = candidateKeys vertical startR startC length.
Proof.
  intros Hlen. unfold drawCandidate, runOnGrid.
  pose proof (randomInt_range (GRID_SIZE - length) k2 ltac:(lia)) as Hr2.
  pose proof (randomInt_range (GRID_SIZE - 1) k2 ltac:(unfold GRID_SIZE; lia)) as Hr2'.
  pose proof (randomInt_range (GRID_SIZE - length) k3 ltac:(lia)) as Hr3.
  pose proof (randomInt_range (GRID_SIZE - 1) k3 ltac:(unfold GRID_SIZE; lia)) as Hr3'.
  exists (random_lt_half k1). destruct (random_lt_half k1).
  - exists (randomInt 0 (GRID_SIZE - length) k2), (randomInt 0 (GRID_SIZE - 1) k3).
    repeat split; lia.
  - exists (randomInt 0 (GRID_SIZE - 1) k2), (randomInt 0 (GRID_SIZE - length) k3).
    repeat split; lia.
Qed.

Lemma candidateKeys_cell (vertical : bool) (startR startC length i : Z) :
  0 <= i < length ->
  In (coordKey (runCell vertical startR startC i))
     (candidateKeys vertical startR startC length).
Proof.
  intros Hi. unfold candidateKeys. apply in_map_iff. exists i. split.
  - unfold runCell. now destruct vertical.
  - apply in_map_iff. exists (Z.to_nat i). split; [lia |]. apply in_seq. lia.
Qed.

Lemma noFreeRun_overlaps (board : Board string) (length : Z) (k1 k2 k3 : sample) :
  noFreeRun board length -> length <= GRID_SIZE ->
  overlaps board (drawCandidate length k1 k2 k3) = true.
Proof.
  intros Hnone Hlen.
  destruct (drawCandidate_start length k1 k2 k3 Hlen) as (v & a & b & Hrun & ->).
  destruct (Hnone v a b Hrun) as (i & Hi & Hship).
  unfold overlaps. apply existsb_exists.
  exists (coordKey (runCell v a b i)). split; [now apply candidateKeys_cell | exact Hship].
Qed.

(** C3, as the code has it.  Placing one ship is a loop without a cap on its
    passes and without a [PlacementError]: it returns at the first candidate
    the oracle yields that meets no ship cell, having added that candidate's
    cells and nothing else; while the candidates overlap it goes on, so that
    on a board on which every run of that length on the grid meets a ship
    cell (a full grid is one) it returns for no oracle and no number of
    passes. *)
Theorem placeOneShipRandomly_unbounded (random : nat -> sample) (board : Board string)
    (length : Z) :
  (forall n pos fuel,
     (forall i, (i < n)%nat ->
                overlaps board (candidateAt random (pos + 3 * i) length) = true) ->
     overlaps board (candidateAt random (pos + 3 * n) length) = false ->
     (n < fuel)%nat ->
     placeOneShipRandomly fuel random pos board length =
       Ok (mkBoard (addAll (candidateAt random (pos + 3 * n) length) (shipCells board))
                   (hitCells board) (missCells board),
           (pos + 3 * (n + 1))%nat)) /\
  ((forall pos, overlaps board (candidateAt random pos length) = true) ->
   forall fuel pos, placeOneShipRandomly fuel random pos board length = OutOfFuel) /\
  (gridFull board -> 1 <= length <= GRID_SIZE ->
   forall fuel pos, placeOneShipRandomly fuel random pos board length = OutOfFuel) /\
  (noFreeRun board length -> length <= GRID_SIZE ->
   forall fuel pos, placeOneShipRandomly fuel random pos board length = OutOfFuel).
Proof.
  split; [| split; [| split]].
  - intros n pos fuel. apply placeOneShipRandomly_accepts.
  - apply placeOneShipRandomly_blocked.
  - intros Hfull Hlen. apply placeOneShipRandomly_blocked.
    intros pos. now apply gridFull_overlaps.
  - intros Hnone Hlen. apply placeOneShipRandomly_blocked.
    intros pos. now apply noFreeRun_overlaps.
Qed.

(** An oracle that repeats one sample. *)
Definition constantRandom (k : sample) : nat -> sample := fun _ => k.

(** A board whose ship cells are the fifty cells of even parity: it has
    fifty free cells, and no two of them are next to each other. *)
Definition checkerBoard : Board string :=
  mkBoard (JSSet.of_array (map coordKey (filter evenParity gridCells)))
          JSSet.empty JSSet.empty.

Lemma checkerBoard_has (a b : Z) :
  0 <= a < GRID_SIZE -> 0 <= b < GRID_SIZE -> (a + b) mod 2 = 0 ->
  JSSet.has (shipCells checkerBoard) (keyOf (Int a) (Int b)) = true.
Proof.
  intros Ha Hb Heven. change (shipCells checkerBoard)
    with (JSSet.of_array (map coordKey (filter evenParity gridCells))).
  unfold JSSet.of_array. rewrite has_fold_add. apply orb_true_iff. right.
  apply includes_In. apply (in_map coordKey _ (mkCoord (Int a) (Int b))).
  apply filter_In. split.
  - apply gridCells_spec. unfold coordInBounds, inBounds, in_range. cbn [r c].
    apply andb_true_iff; split; apply andb_true_iff; split; lia.
  - unfold evenParity. cbn [r c]. apply Z.eqb_eq.
    rewrite Z.rem_mod_nonneg by lia. exact Heven.
Qed.

Lemma checkerBoard_noFreeRun : noFreeRun checkerBoard 2.
Proof.
  intros vertical a b (Ha & Hb & Hfit). unfold GRID_SIZE in Hfit.
  destruct (Z.eq_dec ((a + b) mod 2) 0) as [Heven | Hodd].
  - exists 0. split; [lia |]. unfold runCell, coordKey.
    destruct vertical; cbn [r c]; apply checkerBoard_has; unfold GRID_SIZE; try lia;
      now rewrite Z.add_0_r.
  - exists 1. split; [lia |]. unfold runCell, coordKey.
    assert (Hnext : (a + b + 1) mod 2 = 0).
    { pose proof (Z.mod_pos_bound (a + b) 2 ltac:(lia)) as Hm.
      pose proof (Z.div_mod (a + b) 2 ltac:(lia)) as Hd.
      apply Z.mod_divide; [lia |]. exists ((a + b) / 2 + 1). lia. }
    destruct vertical; cbn [r c]; apply checkerBoard_has; unfold GRID_SIZE; try lia.
    + now replace (a + 1 + b) with (a + b + 1) by lia.
    + now replace (a + (b + 1)) with (a + b + 1) by lia.
Qed.

(** On an empty board the first candidate is accepted; on the full board no
    ship of two cells is ever placed, and neither on the board whose ship
    cells are the cells of even parity, half of whose grid is free. *)
Lemma placeOneShipRandomly_unbounded_witness :
  placeOneShipRandomly 1 (constantRandom 0) 0 createEmptyBoard 5 =
    Ok (mkBoard (addAll (candidateAt (constantRandom 0) 0 5) JSSet.empty)
                JSSet.empty JSSet.empty, 3%nat) /\
  (forall fuel pos, placeOneShipRandomly fuel (constantRandom 0) pos fullBoard 2 = OutOfFuel) /\
  JSSet.size (shipCells checkerBoard) = 50 /\
  (forall fuel pos,
     placeOneShipRandomly fuel (constantRandom 0) pos checkerBoard 2 = OutOfFuel).
Proof.
  split; [| split; [| split]].
  - apply (proj1 (placeOneShipRandomly_unbounded (constantRandom 0) createEmptyBoard 5)
             0%nat 0%nat 1%nat).
    + intros i Hi. lia.
    + vm_compute. reflexivity.
    + lia.
  - apply (proj1 (proj2 (proj2 (placeOneShipRandomly_unbounded
                                  (constantRandom 0) fullBoard 2)))).
    + exact fullBoard_gridFull.
    + unfold GRID_SIZE. lia.
  - vm_compute. reflexivity.
  - apply (proj2 (proj2 (proj2 (placeOneShipRandomly_unbounded
                                  (constantRandom 0) checkerBoard 2)))).
    + exact checkerBoard_noFreeRun.
    + unfold GRID_SIZE. lia.
Defined.

(** C3, as claimed, fails: the grid of [fullBoard] has a hundred ship cells,
    and placing a ship of two cells on it ends for no oracle, whatever number
    of passes is allowed, neither with a board nor with an error. *)
Lemma placement_on_full_board_never_ends :
  JSSet.size (shipCells fullBoard) = GRID_SIZE * GRID_SIZE /\
  (forall (random : nat -> sample) (fuel pos : nat),
     placeOneShipRandomly fuel random pos fullBoard 2 = OutOfFuel) /\
  ~ (forall (random : nat -> sample) (board : Board string) (length : Z),
       exists (cap : nat) (outcome : result (Board string * nat)),
         outcome <> OutOfFuel /\
         placeOneShipRandomly cap random 0 board length = outcome).
Proof.
  assert (Hnever : forall (random : nat -> sample) (fuel pos : nat),
             placeOneShipRandomly fuel random pos fullBoard 2 = OutOfFuel).
  { intros random fuel pos. apply placeOneShipRandomly_blocked.
    intros pos'. apply gridFull_overlaps; [exact fullBoard_gridFull | unfold GRID_SIZE; lia]. }
  split; [vm_compute; reflexivity |]. split; [exact Hnever |].
  intros Htotal.
  destruct (Htotal (constantRandom 0) fullBoard 2) as (cap & outcome & Hout & Hrun).
  rewrite Hnever in Hrun. congruence.
Qed.

(** ** Saved games: what [loadGame] restores *)

(** The restored set [S] holds the keys of [s], as strings, in the same
    order. *)
Definition sameSet (s : JSSet.t string) (S : JSSet.t json) : Prop :=
  JSSet.elems S = map JStr (JSSet.elems s).

Definition sameBoard (b : Board string) (B : Board json) : Prop :=
  sameSet (shipCells b) (shipCells B) /\
  sameSet (hitCells b) (hitCells B) /\
  sameSet (missCells b) (missCells B).

(** The restored tally [S] reads as the tally [s]: [S.hits] and [S.misses]
    are its two numbers. *)
Definition sameTally (s : Shots) (S : json) : Prop :=
  get (Some S) "hits" = Some (JNum (Q2Qc (inject_Z (hits s)))) /\
  get (Some S) "misses" = Some (JNum (Q2Qc (inject_Z (misses s)))).

(** The bindings [G] that [loadGame] leaves hold the values of the running
    game [g]: the same sets, turn, flag, tallies, mode, queue and cluster. *)
Definition sameState (g : GameState) (G : Game json json) : Prop :=
  sameBoard (userBoard g) (userBoard G) /\
  sameBoard (aiBoard g) (aiBoard G) /\
  currentTurn G = currentTurn g /\
  gameOver G = gameOver g /\
  sameTally (userShots g) (userShots G) /\
  sameTally (aiShots g) (aiShots G) /\
  mode (aiState G) = mode (aiState g) /\
  targetQueue (aiState G) = map JStr (targetQueue (aiState g)) /\
  clusterHits (aiState G) = map JStr (clusterHits (aiState g)).

Lemma includes_map_JStr (x : string) (l : list string) :
  JSSet.includes (JStr x) (map JStr l) = JSSet.includes x l.
Proof.
  unfold JSSet.includes. induction l as [|a t IH]; simpl; [reflexivity |].
  now rewrite IH.
Qed.

Lemma fold_add_JStr (l : list string) :
  forall (S : JSSet.t json) (l0 : list string),
    JSSet.elems S = map JStr l0 -> NoDup (l0 ++ l) ->
    JSSet.elems (fold_left (fun s k => JSSet.add k s) (map JStr l) S) = map JStr (l0 ++ l).
Proof.
  induction l as [|a t IH]; intros S l0 HS Hnd; simpl.
  - now rewrite app_nil_r.
  - replace (l0 ++ a :: t) with ((l0 ++ [a]) ++ t) in * by (now rewrite <- app_assoc).
    apply IH; [| exact Hnd].
    rewrite JSSet.elems_add. unfold JSSet.has. rewrite HS, includes_map_JStr.
    assert (Hnot : JSSet.includes a l0 = false).
    { destruct (JSSet.includes a l0) eqn:Hin; [| reflexivity].
      apply includes_In in Hin. exfalso.
      rewrite <- app_assoc in Hnd. simpl in Hnd.
      apply NoDup_remove_2 in Hnd. apply Hnd, in_or_app. now left. }
    rewrite Hnot, map_app. reflexivity.
Qed.

(** [new Set] of the array written for a set gives that set back. *)
Lemma of_array_setToArray (s : JSSet.t string) :
  sameSet s (JSSet.of_array (map JStr (JSSet.to_array s))).
Proof.
  unfold sameSet, JSSet.of_array, JSSet.to_array.
  apply (fold_add_JStr (JSSet.elems s) JSSet.empty []); [reflexivity |].
  apply elems_NoDup.
Qed.

Lemma elems_fold_add_subset {A : Type} `{JSEq A} (l : list A) :
  forall (s : JSSet.t A) (x : A),
    In x (JSSet.elems (fold_left (fun s k => JSSet.add k s) l s)) ->
    In x (JSSet.elems s) \/ In x l.
Proof.
  induction l as [|a t IH]; intros s x Hx; simpl in *; [now left |].
  apply IH in Hx as [Hx | Hx]; [| now right; right].
  rewrite JSSet.elems_add in Hx. destruct (JSSet.has s a); [now left |].
  apply in_app_or in Hx as [Hx | [Hx | []]]; [now left | right; now left].
Qed.

Lemma of_array_subset (items : list json) (x : json) :
  In x (JSSet.elems (JSSet.of_array items)) -> In x items.
Proof.
  intros Hx. apply elems_fold_add_subset in Hx as [[] | Hx]. exact Hx.
Qed.

(** The key of a grid cell parses back to that cell, whose button exists. *)
Lemma gridCells_roundtrip :
  forallb (fun p => let q := parseKey (coordKey p) in
                    num_strict_eq (r q) (r p) && num_strict_eq (c q) (c p)
                    && cellExists (r p) (c p)) gridCells = true.
Proof. vm_compute. reflexivity. Qed.

Lemma num_strict_eq_Int (x : num) (z : Z) : num_strict_eq x (Int z) = true -> x = Int z.
Proof.
  destruct x as [a| |]; simpl; try discriminate. intros Ha. apply Z.eqb_eq in Ha. now subst.
Qed.

Lemma parseKey_coordKey (p : Coord) :
  coordInBounds p = true ->
  parseKey (coordKey p) = p /\ cellExists (r p) (c p) = true.
Proof.
  intros Hp. pose proof gridCells_roundtrip as Hall.
  rewrite forallb_forall in Hall. apply gridCells_spec in Hp as Hin.
  specialize (Hall p Hin). cbv zeta in Hall.
  apply andb_true_iff in Hall as [Hall Hcell]. apply andb_true_iff in Hall as [Hr Hc].
  split; [| exact Hcell].
  unfold coordInBounds, inBounds, in_range in Hp.
  destruct p as [[a| |] [b| |]]; cbn [r c] in *; try discriminate;
    try (rewrite andb_false_r in Hp; discriminate).
  apply num_strict_eq_Int in Hr. apply num_strict_eq_Int in Hc.
  destruct (parseKey (coordKey {| r := Int a; c := Int b |})) as [x y].
  cbn [r c] in *. now subst.
Qed.

Lemma gridKeys_cell (k : string) :
  In k gridKeys -> exists p, coordInBounds p = true /\ k = coordKey p.
Proof.
  unfold gridKeys. rewrite in_map_iff. intros [p [Hk Hp]].
  exists p. split; [now apply gridCells_spec | now symmetry].
Qed.

Lemma paintKey_grid (k : string) : In k gridKeys -> paintKey (JStr k) = Ok tt.
Proof.
  intros Hk. destruct (gridKeys_cell k Hk) as (p & Hp & ->).
  destruct (parseKey_coordKey p Hp) as [Hparse Hcell].
  unfold paintKey, markCell. now rewrite Hparse, Hcell.
Qed.

Lemma paintKeys_grid (ks : list json) :
  (forall x, In x ks -> exists k, x = JStr k /\ In k gridKeys) ->
  paintKeys ks = Ok tt.
Proof.
  induction ks as [|x rest IH]; intros Hall; simpl; [reflexivity |].
  destruct (Hall x (or_introl eq_refl)) as (k & -> & Hk).
  rewrite (paintKey_grid k Hk). simpl. apply IH. intros y Hy. apply Hall. now right.
Qed.

(** The hit and miss keys of a board are keys of grid cells. *)
Definition shotsOnGrid (board : Board string) : Prop :=
  incl (JSSet.elems (hitCells board)) gridKeys /\
  incl (JSSet.elems (missCells board)) gridKeys.

(** What [loadBoard] builds from the object written for [b]. *)
Definition restoredBoard (b : Board string) : Board json :=
  mkBoard (JSSet.of_array (map JStr (JSSet.to_array (shipCells b))))
          (JSSet.of_array (map JStr (JSSet.to_array (hitCells b))))
          (JSSet.of_array (map JStr (JSSet.to_array (missCells b)))).

Lemma loadBoard_jsonOfBoard (b : Board string) :
  loadBoard (Some (jsonOfBoard b)) = Ok (restoredBoard b).
Proof. reflexivity. Qed.

Lemma restoredBoard_same (b : Board string) : sameBoard b (restoredBoard b).
Proof. repeat split; apply of_array_setToArray. Qed.

Lemma paintKeys_restored (s : JSSet.t string) :
  incl (JSSet.elems s) gridKeys ->
  paintKeys (JSSet.elems (JSSet.of_array (map JStr (JSSet.to_array s)))) = Ok tt.
Proof.
  intros Hgrid. rewrite (of_array_setToArray s). apply paintKeys_grid.
  intros x Hx. apply in_map_iff in Hx as (k & <- & Hk). eauto.
Qed.

(** Round trip for a game whose shots are on the grid. *)
Lemma loadGame_saveGame (subtitle status : string) (g : GameState) :
  shotsOnGrid (userBoard g) -> shotsOnGrid (aiBoard g) ->
  exists G, loadGame (saveGame subtitle status g) = Ok (Some G) /\ sameState g G.
Proof.
  intros [Huh Hum] [Hah Ham].
  exists (mkGame (restoredBoard (userBoard g)) (restoredBoard (aiBoard g))
                 (currentTurn g) (gameOver g)
                 (jsonOfShots (userShots g)) (jsonOfShots (aiShots g))
                 (mkAiState (mode (aiState g))
                            (map JStr (targetQueue (aiState g)))
                            (map JStr (clusterHits (aiState g))))).
  split.
  - unfold saveGame, loadGame.
    cbn [payload get lookup String.eqb Ascii.eqb Bool.eqb].
    rewrite !loadBoard_jsonOfBoard.
    cbn [bind restoredBoard hitCells missCells].
    rewrite (paintKeys_restored _ Huh), (paintKeys_restored _ Hum),
            (paintKeys_restored _ Hah), (paintKeys_restored _ Ham).
    cbn [bind orElse truthy jsonOfShots arrayOrEmpty jsonOfTurn jsonOfMode strictEqString].
    destruct (currentTurn g), (gameOver g), (mode (aiState g)); reflexivity.
  - unfold sameState, sameTally.
    cbn [userBoard aiBoard currentTurn gameOver userShots aiShots aiState
         mode targetQueue clusterHits].
    repeat split; try reflexivity; apply of_array_setToArray.
Qed.

(** ** The states a game goes through *)

(** A game starts with [resetGame]; then the user clicks cells of the AI grid
    and [aiTakeTurnLoop] runs. *)
Inductive reachable : GameState -> Prop :=
| reach_reset (fuel : nat) (random : nat -> sample) (g : GameState) :
    resetGame fuel random = Ok g -> reachable g
| reach_user (g g' : GameState) (r c : num) :
    reachable g -> inBounds r c = true -> onUserFireAtAI g r c = Ok g' -> reachable g'
| reach_ai (g g' : GameState) (k : sample) :
    reachable g -> aiTakeTurnLoop g k = Ok g' -> reachable g'.

(** All shots and all queued keys are keys of grid cells. *)
Definition keysOnGrid (g : GameState) : Prop :=
  shotsOnGrid (userBoard g) /\ shotsOnGrid (aiBoard g) /\
  incl (targetQueue (aiState g)) gridKeys.

Lemma elems_add_incl (s : JSSet.t string) (k : string) (l : list string) :
  incl (JSSet.elems s) l -> In k l -> incl (JSSet.elems (JSSet.add k s)) l.
Proof.
  intros Hs Hk. rewrite JSSet.elems_add. destruct (JSSet.has s k); [exact Hs |].
  apply incl_app; [exact Hs |]. intros x [<- | []]. exact Hk.
Qed.

Lemma applyShot_onGrid (board : Board string) (r c : num) :
  inBounds r c = true -> shotsOnGrid board -> shotsOnGrid (snd (applyShot board r c)).
Proof.
  intros Hin [Hh Hm].
  assert (Hk : In (keyOf r c) gridKeys) by (apply (coordKey_gridKeys (mkCoord r c)), Hin).
  destruct (alreadyShot board (keyOf r c)) eqn:Hshot.
  - rewrite (applyShot_refused _ _ _ Hshot). now split.
  - rewrite (applyShot_fresh _ _ _ Hshot).
    destruct (JSSet.has (shipCells board) (keyOf r c)); split; simpl;
      auto using elems_add_incl.
Qed.

Lemma placeOneShipRandomly_shots (fuel : nat) (random : nat -> sample) (length : Z)
    (board : Board string) :
  forall pos board' pos',
    placeOneShipRandomly fuel random pos board length = Ok (board', pos') ->
    hitCells board' = hitCells board /\ missCells board' = missCells board.
Proof.
  induction fuel as [|fuel IH]; intros pos board' pos'; simpl; [discriminate |].
  destruct (existsb _ _).
  - apply IH.
  - intros Heq. injection Heq as <- _. now split.
Qed.

Lemma placeShips_shots (fuel : nat) (random : nat -> sample) (lengths : list Z) :
  forall pos board board' pos',
    placeShips fuel random pos board lengths = Ok (board', pos') ->
    hitCells board' = hitCells board /\ missCells board' = missCells board.
Proof.
  induction lengths as [|length rest IH]; intros pos board board' pos'; simpl.
  - intros Heq. injection Heq as <- _. now split.
  - destruct (placeOneShipRandomly fuel random pos board length) as [[b1 p1]| |] eqn:Hone;
      simpl; try discriminate.
    intros Hrest. apply IH in Hrest as [Hh Hm].
    apply placeOneShipRandomly_shots in Hone as [Hh1 Hm1]. split; congruence.
Qed.

Lemma resetGame_keysOnGrid (fuel : nat) (random : nat -> sample) (g : GameState) :
  resetGame fuel random = Ok g -> keysOnGrid g.
Proof.
  unfold resetGame, placeAllShipsRandomly.
  destruct (placeShips fuel random 0 createEmptyBoard SHIPS) as [[ub p1]| |] eqn:Hu;
    cbn [bind fst snd]; try discriminate.
  destruct (placeShips fuel random p1 createEmptyBoard SHIPS) as [[ab p2]| |] eqn:Ha;
    cbn [bind fst snd]; try discriminate.
  intros Heq. injection Heq as <-.
  apply placeShips_shots in Hu as [Huh Hum]. apply placeShips_shots in Ha as [Hah Ham].
  unfold keysOnGrid, shotsOnGrid. simpl. rewrite Huh, Hum, Hah, Ham. simpl.
  repeat split; apply incl_nil_l.
Qed.

Lemma aiChooseTargetModeCell_spec (userBoard : Board string) (queue : list string) :
  incl (snd (aiChooseTargetModeCell userBoard queue)) queue /\
  forall t, fst (aiChooseTargetModeCell userBoard queue) = Some t ->
            exists k, In k queue /\ t = parseKey k.
Proof.
  induction queue as [|k rest [IHq IHt]]; simpl.
  - split; [apply incl_refl | discriminate].
  - destruct (negb (alreadyShot userBoard k)); simpl.
    + split; [apply incl_tl, incl_refl |].
      intros t Ht. injection Ht as <-. exists k. split; [now left | reflexivity].
    + split; [now apply incl_tl |].
      intros t Ht. destruct (IHt t Ht) as (k' & Hk' & ->). exists k'. split; [now right | reflexivity].
Qed.

(** From a queue of grid keys the AI picks a cell of the grid and keeps a
    queue of grid keys. *)
Lemma aiDecideNextShot_onGrid (userBoard : Board string) (st st' : AiState string)
    (k : sample) (p : Coord) :
  incl (targetQueue st) gridKeys ->
  aiDecideNextShot userBoard st k = (Some p, st') ->
  coordInBounds p = true /\ incl (targetQueue st') gridKeys.
Proof.
  intros Hq. unfold aiDecideNextShot.
  destruct (aiChooseTargetModeCell_spec userBoard (targetQueue st)) as [Hincl Hcell].
  destruct (mode st).
  - intros Heq. injection Heq as Hhunt <-. split; [| exact Hq].
    now apply aiChooseHuntTarget_unshot, unshotCells_spec in Hhunt.
  - destruct (aiChooseTargetModeCell userBoard (targetQueue st)) as [[t|] queue];
      simpl in *; intros Heq; injection Heq as Hp <-; simpl.
    + subst t. destruct (Hcell p eq_refl) as (k' & Hk' & ->).
      destruct (gridKeys_cell k' (Hq k' Hk')) as (q & Hqb & ->).
      destruct (parseKey_coordKey q Hqb) as [-> _].
      split; [exact Hqb | exact (incl_tran Hincl Hq)].
    + split; [| exact (incl_tran Hincl Hq)].
      now apply aiChooseHuntTarget_unshot, unshotCells_spec in Hp.
Qed.

Lemma uniquePush_incl (queue : list string) (k : string) (l : list string) :
  incl queue l -> In k l -> incl (uniquePush queue k) l.
Proof.
  intros Hq Hk. unfold uniquePush. destruct (JSSet.includes k queue); [exact Hq |].
  apply incl_app; [exact Hq |]. intros x [<- | []]. exact Hk.
Qed.

Lemma aiQueueAdjacentsFromHits_onGrid (userBoard : Board string) (clusterHits : list string) :
  forall queue, incl queue gridKeys ->
                incl (aiQueueAdjacentsFromHits userBoard clusterHits queue) gridKeys.
Proof.
  unfold aiQueueAdjacentsFromHits.
  induction clusterHits as [|hk rest IH]; intros queue Hq; simpl; [exact Hq |].
  apply IH.
  pose proof (neighbors4_inBounds (r (parseKey hk)) (c (parseKey hk))) as Hnb.
  revert queue Hq.
  induction (neighbors4 (r (parseKey hk)) (c (parseKey hk))) as [|nb nbs IHn];
    intros queue Hq; simpl; [exact Hq |].
  apply IHn; [intros nb' Hin; apply Hnb; now right |].
  destruct (negb (alreadyShot userBoard (coordKey nb))); [| exact Hq].
  apply uniquePush_incl; [exact Hq |].
  apply coordKey_gridKeys, Hnb. now left.
Qed.

Lemma pushExtension_onGrid (userBoard : Board string) (p : Coord) (front : list string) :
  incl front gridKeys -> incl (pushExtension userBoard p front) gridKeys.
Proof.
  intros Hf. unfold pushExtension.
  destruct (coordInBounds p) eqn:Hp; [| exact Hf].
  destruct (negb (alreadyShot userBoard (coordKey p))); [| exact Hf].
  apply incl_app; [exact Hf |]. intros x [<- | []]. now apply coordKey_gridKeys.
Qed.

Lemma extendLineTargets_onGrid (userBoard : Board string) (clusterHits : list string)
    (ori : Orientation) (queue queue' : list string) :
  incl queue gridKeys ->
  extendLineTargets userBoard clusterHits ori queue = Ok queue' ->
  incl queue' gridKeys.
Proof.
  intros Hq. unfold extendLineTargets.
  destruct (map parseKey clusterHits) as [|c0 rest]; [discriminate |].
  intros Heq. injection Heq as <-.
  apply incl_app.
  - destruct ori; repeat apply pushExtension_onGrid; apply incl_nil_l.
  - intros x Hx. apply filter_In in Hx as [Hx _].
    now apply (aiQueueAdjacentsFromHits_onGrid userBoard clusterHits queue Hq).
Qed.

Lemma aiAfterHit_onGrid (userBoard : Board string) (st st' : AiState string)
    (hitKey : string) :
  incl (targetQueue st) gridKeys ->
  aiAfterHit userBoard st hitKey = Ok st' ->
  incl (targetQueue st') gridKeys.
Proof.
  intros Hq. unfold aiAfterHit.
  destruct (recomputeClusterFromHit userBoard hitKey) as [cluster| |]; simpl; try discriminate.
  pose proof (aiQueueAdjacentsFromHits_onGrid userBoard cluster _ Hq) as Hadj.
  destruct (inferOrientation cluster) as [ori|].
  - destruct (extendLineTargets userBoard cluster ori _) as [queue'| |] eqn:Hext;
      simpl; try discriminate.
    intros Heq. injection Heq as <-. simpl.
    exact (extendLineTargets_onGrid _ _ _ _ _ Hadj Hext).
  - intros Heq. injection Heq as <-. exact Hadj.
Qed.

(** Closes a goal [keysOnGrid _] whose three parts are among the hypotheses. *)
Ltac grid_done :=
  unfold keysOnGrid, endGame;
  cbn [userBoard aiBoard aiState targetQueue];
  repeat match goal with |- _ /\ _ => split end; assumption.

Lemma onUserFireAtAI_keysOnGrid (g g' : GameState) (r c : num) :
  inBounds r c = true -> keysOnGrid g -> onUserFireAtAI g r c = Ok g' -> keysOnGrid g'.
Proof.
  intros Hin (Hu & Ha & Hq). unfold onUserFireAtAI.
  destruct (gameOver g); [intros Heq; injection Heq as <-; grid_done |].
  destruct (currentTurn g); [| intros Heq; injection Heq as <-; grid_done].
  pose proof (applyShot_onGrid (aiBoard g) r c Hin Ha) as Ha'.
  destruct (applyShot (aiBoard g) r c) as [[shot| |] board];
    cbn [bind snd] in *; try discriminate.
  destruct shot as [|[|] key].
  - intros Heq. injection Heq as <-. grid_done.
  - cbn [aiBoard]. destruct (hasWon board); intros Heq; injection Heq as <-; grid_done.
  - intros Heq. injection Heq as <-. grid_done.
Qed.

Lemma aiAfterMiss_onGrid (st : AiState string) :
  incl (targetQueue st) gridKeys -> incl (targetQueue (aiAfterMiss st)) gridKeys.
Proof.
  intros Hq. unfold aiAfterMiss. destruct (targetQueue st) eqn:Hst; simpl.
  - apply incl_nil_l.
  - now rewrite Hst.
Qed.

Lemma aiTakeTurnLoop_keysOnGrid (g g' : GameState) (k : sample) :
  keysOnGrid g -> aiTakeTurnLoop g k = Ok g' -> keysOnGrid g'.
Proof.
  intros (Hu & Ha & Hq). unfold aiTakeTurnLoop.
  destruct (gameOver g); [intros Heq; injection Heq as <-; grid_done |].
  destruct (currentTurn g); [intros Heq; injection Heq as <-; grid_done |].
  destruct (aiDecideNextShot (userBoard g) (aiState g) k) as [[p|] st] eqn:Hdec;
    [| discriminate].
  destruct (aiDecideNextShot_onGrid _ _ _ _ _ Hq Hdec) as [Hp Hq'].
  pose proof (applyShot_onGrid (userBoard g) (r p) (c p) Hp Hu) as Hu'.
  destruct (applyShot (userBoard g) (r p) (c p)) as [[shot| |] board];
    cbn [bind snd] in *; try discriminate.
  destruct shot as [|[|] key].
  - intros Heq. injection Heq as <-. grid_done.
  - destruct (aiAfterHit board st key) as [st'| |] eqn:Hhit; cbn [bind]; try discriminate.
    pose proof (aiAfterHit_onGrid _ _ _ _ Hq' Hhit) as Hq''.
    cbn [userBoard]. destruct (hasWon board); intros Heq; injection Heq as <-; grid_done.
  - pose proof (aiAfterMiss_onGrid st Hq') as Hq''.
    intros Heq. injection Heq as <-. grid_done.
Qed.

Lemma reachable_keysOnGrid (g : GameState) : reachable g -> keysOnGrid g.
Proof.
  induction 1 as [fuel random g Hreset | g g' r c _ IH Hin Hstep | g g' k _ IH Hstep].
  - exact (resetGame_keysOnGrid fuel random g Hreset).
  - exact (onUserFireAtAI_keysOnGrid g g' r c Hin IH Hstep).
  - exact (aiTakeTurnLoop_keysOnGrid g g' k IH Hstep).
Qed.

(** ** A game that started with [resetGame] never throws *)

Definition shipsOnGrid (board : Board string) : Prop :=
  incl (JSSet.elems (shipCells board)) gridKeys.

Definition missesAreWater (board : Board string) : Prop :=
  forall k, JSSet.has (missCells board) k = true -> JSSet.has (shipCells board) k = false.

(** What the AI relies on in the user's board: the ships are on the grid,
    hits are ship cells, misses are not, and the board is not won while the
    game goes on. *)
Definition userBoardSound (g : GameState) : Prop :=
  shipsOnGrid (userBoard g) /\
  hitsAreShips (userBoard g) /\
  missesAreWater (userBoard g) /\
  (gameOver g = false -> hasWon (userBoard g) = false).

Lemma applyShot_missesAreWater (board : Board string) (r c : num) :
  missesAreWater board -> missesAreWater (snd (applyShot board r c)).
Proof.
  intros Hw. destruct (alreadyShot board (keyOf r c)) eqn:Hshot.
  - now rewrite (applyShot_refused _ _ _ Hshot).
  - rewrite (applyShot_fresh _ _ _ Hshot).
    destruct (JSSet.has (shipCells board) (keyOf r c)) eqn:Hship; [exact Hw |].
    intros k. cbn [missCells shipCells]. rewrite has_add. intros Hk.
    apply orb_true_iff in Hk as [Hk | Hk]; [now apply Hw |].
    apply String.eqb_eq in Hk. now subst.
Qed.

(** A miss leaves [hasWon] as it was, and what a valid shot reports is
    whether its key is a ship cell. *)
Lemma applyShot_result (board : Board string) (r c : num) (isHit : bool) (key : string) :
  fst (applyShot board r c) = Ok (Valid isHit key) ->
  isHit = JSSet.has (shipCells board) (keyOf r c) /\
  (isHit = false -> hasWon (snd (applyShot board r c)) = hasWon board).
Proof.
  unfold applyShot. destruct (alreadyShot board (keyOf r c)); [discriminate |].
  cbn [fst snd]. destruct (markCell r c); cbn [bind]; try discriminate.
  intros Heq. injection Heq as <- _. split; [reflexivity |].
  intros Hmiss. now rewrite Hmiss.
Qed.

Lemma drawCandidate_onGrid (length : Z) (k1 k2 k3 : sample) :
  length <= GRID_SIZE -> incl (drawCandidate length k1 k2 k3) gridKeys.
Proof.
  intros Hlen k Hk. unfold drawCandidate, candidateKeys in Hk.
  apply in_map_iff in Hk as (i & Hk & Hi).
  apply in_map_iff in Hi as (n & <- & Hn). apply in_seq in Hn.
  pose proof (randomInt_range (GRID_SIZE - length) k2 ltac:(lia)) as Hr2.
  pose proof (randomInt_range (GRID_SIZE - 1) k2 ltac:(unfold GRID_SIZE; lia)) as Hr2'.
  pose proof (randomInt_range (GRID_SIZE - length) k3 ltac:(lia)) as Hr3.
  pose proof (randomInt_range (GRID_SIZE - 1) k3 ltac:(unfold GRID_SIZE; lia)) as Hr3'.
  subst k. destruct (random_lt_half k1).
  - apply (coordKey_gridKeys (mkCoord _ _)).
    unfold coordInBounds, inBounds, in_range. cbn [r c].
    apply andb_true_iff; split; apply andb_true_iff; split; lia.
  - apply (coordKey_gridKeys (mkCoord _ _)).
    unfold coordInBounds, inBounds, in_range. cbn [r c].
    apply andb_true_iff; split; apply andb_true_iff; split; lia.
Qed.

Lemma addAll_incl (keys : list string) :
  forall (s : JSSet.t string) (l : list string),
    incl (JSSet.elems s) l -> incl keys l -> incl (JSSet.elems (addAll keys s)) l.
Proof.
  unfold addAll. induction keys as [|k rest IH]; intros s l Hs Hkeys; simpl; [exact Hs |].
  apply IH.
  - apply elems_add_incl; [exact Hs | apply Hkeys; now left].
  - intros x Hx. apply Hkeys. now right.
Qed.

(** A placed ship lies on the grid, keeps the earlier ships, and has a cell. *)
Lemma placeOneShipRandomly_ships (fuel : nat) (random : nat -> sample) (length : Z) :
  1 <= length <= GRID_SIZE ->
  forall pos board board' pos',
    placeOneShipRandomly fuel random pos board length = Ok (board', pos') ->
    (shipsOnGrid board -> shipsOnGrid board') /\
    exists k, JSSet.has (shipCells board') k = true.
Proof.
  intros Hlen. induction fuel as [|fuel IH]; intros pos board board' pos';
    cbn [placeOneShipRandomly]; [discriminate |].
  destruct (existsb _ _); [apply IH |].
  intros Heq. injection Heq as <- _. cbn [shipCells]. split.
  - intros Hgrid. apply addAll_incl; [exact Hgrid |].
    apply drawCandidate_onGrid. lia.
  - destruct (drawCandidate_head length (random pos) (random (S pos)) (random (S (S pos))) Hlen)
      as (p & rest & _ & ->).
    exists (coordKey p). unfold addAll. rewrite has_fold_add.
    apply orb_true_iff. right. apply includes_In. now left.
Qed.

Lemma placeOneShipRandomly_keeps (fuel : nat) (random : nat -> sample) (length : Z) :
  forall pos board board' pos',
    placeOneShipRandomly fuel random pos board length = Ok (board', pos') ->
    keptIn (shipCells board) (shipCells board').
Proof.
  induction fuel as [|fuel IH]; intros pos board board' pos';
    cbn [placeOneShipRandomly]; [discriminate |].
  destruct (existsb _ _); [apply IH |].
  intros Heq. injection Heq as <- _. cbn [shipCells].
  intros k Hk. unfold addAll. rewrite has_fold_add, Hk. reflexivity.
Qed.

Lemma placeShips_ships (fuel : nat) (random : nat -> sample) (lengths : list Z) :
  (forall length, In length lengths -> 1 <= length <= GRID_SIZE) ->
  forall pos board board' pos',
    placeShips fuel random pos board lengths = Ok (board', pos') ->
    (shipsOnGrid board -> shipsOnGrid board') /\
    keptIn (shipCells board) (shipCells board') /\
    (lengths <> [] -> exists k, JSSet.has (shipCells board') k = true).
Proof.
  induction lengths as [|length rest IH]; intros Hlens pos board board' pos';
    cbn [placeShips].
  - intros Heq. injection Heq as <- _. repeat split; [auto | intros k Hk; exact Hk | congruence].
  - destruct (placeOneShipRandomly fuel random pos board length) as [[b1 p1]| |] eqn:Hone;
      cbn [bind fst snd]; try discriminate.
    intros Hrest.
    destruct (placeOneShipRandomly_ships fuel random length (Hlens length (or_introl eq_refl))
                pos board b1 p1 Hone) as [Hgrid1 [k1 Hk1]].
    pose proof (placeOneShipRandomly_keeps fuel random length pos board b1 p1 Hone) as Hkeep1.
    destruct (IH (fun l Hl => Hlens l (or_intror Hl)) p1 b1 board' pos' Hrest)
      as (Hgrid2 & Hkeep2 & _).
    repeat split.
    + auto.
    + intros k Hk. apply Hkeep2, Hkeep1, Hk.
    + intros _. exists k1. apply Hkeep2, Hk1.
Qed.

Lemma SHIPS_fit (length : Z) : In length SHIPS -> 1 <= length <= GRID_SIZE.
Proof. unfold SHIPS, GRID_SIZE. simpl. intros [<- | [<- | [<- | []]]]; lia. Qed.

Lemma resetGame_userBoardSound (fuel : nat) (random : nat -> sample) (g : GameState) :
  resetGame fuel random = Ok g -> userBoardSound g.
Proof.
  unfold resetGame, placeAllShipsRandomly.
  destruct (placeShips fuel random 0 createEmptyBoard SHIPS) as [[ub p1]| |] eqn:Hu;
    cbn [bind fst snd]; try discriminate.
  destruct (placeShips fuel random p1 createEmptyBoard SHIPS) as [[ab p2]| |] eqn:Ha;
    cbn [bind fst snd]; try discriminate.
  intros Heq. injection Heq as <-.
  destruct (placeShips_ships fuel random SHIPS SHIPS_fit _ _ _ _ Hu) as (Hgrid & _ & Hsome).
  destruct (placeShips_shots fuel random SHIPS _ _ _ _ Hu) as [Hhit Hmiss].
  destruct (Hsome ltac:(discriminate)) as [k Hk].
  unfold userBoardSound. cbn [userBoard gameOver].
  split; [apply Hgrid, incl_nil_l |].
  split; [intros x; rewrite Hhit; discriminate |].
  split; [intros x; rewrite Hmiss; discriminate |].
  intros _. unfold hasWon, JSSet.size. rewrite Hhit. cbn [JSSet.elems createEmptyBoard hitCells JSSet.empty List.length].
  apply has_In in Hk. destruct (JSSet.elems (shipCells ub)); [destruct Hk |].
  apply Z.eqb_neq. cbn [List.length]. lia.
Qed.

Lemma onUserFireAtAI_userBoardSound (g g' : GameState) (r c : num) :
  userBoardSound g -> onUserFireAtAI g r c = Ok g' -> userBoardSound g'.
Proof.
  intros Hs. unfold onUserFireAtAI.
  destruct (gameOver g) eqn:Hover; [intros Heq; injection Heq as <-; exact Hs |].
  destruct (currentTurn g); [| intros Heq; injection Heq as <-; exact Hs].
  destruct (applyShot (aiBoard g) r c) as [[shot| |] board]; cbn [bind]; try discriminate.
  destruct Hs as (H1 & H2 & H3 & H4).
  destruct shot as [|[|] key].
  - intros Heq. injection Heq as <-. unfold userBoardSound. auto.
  - cbn [aiBoard]. destruct (hasWon board); intros Heq; injection Heq as <-;
      unfold userBoardSound, endGame; cbn [userBoard gameOver]; repeat split; auto;
      intros; discriminate.
  - intros Heq. injection Heq as <-.
    unfold userBoardSound; cbn [userBoard gameOver]; repeat split; auto.
Qed.

Lemma aiTakeTurnLoop_userBoardSound (g g' : GameState) (k : sample) :
  userBoardSound g -> aiTakeTurnLoop g k = Ok g' -> userBoardSound g'.
Proof.
  intros Hs. unfold aiTakeTurnLoop.
  destruct (gameOver g) eqn:Hover; [intros Heq; injection Heq as <-; exact Hs |].
  destruct (currentTurn g); [intros Heq; injection Heq as <-; exact Hs |].
  destruct (aiDecideNextShot (userBoard g) (aiState g) k) as [[p|] st]; [| discriminate].
  destruct Hs as (H1 & H2 & H3 & H4).
  destruct (applyShot_step (userBoard g) (r p) (c p)) as (Hships & _ & _ & _ & Hsub).
  pose proof (applyShot_missesAreWater (userBoard g) (r p) (c p) H3) as Hwater.
  pose proof (applyShot_result (userBoard g) (r p) (c p)) as Hres.
  destruct (applyShot (userBoard g) (r p) (c p)) as [[shot| |] board];
    cbn [bind fst snd] in *; try discriminate.
  assert (Hgrid : shipsOnGrid board) by (unfold shipsOnGrid; now rewrite Hships).
  destruct shot as [|[|] key].
  - intros Heq. injection Heq as <-. unfold userBoardSound. cbn [userBoard gameOver]. auto.
  - destruct (aiAfterHit board st key) as [st'| |]; cbn [bind]; try discriminate.
    cbn [userBoard]. destruct (hasWon board) eqn:Hwon; intros Heq; injection Heq as <-;
      unfold userBoardSound, endGame; cbn [userBoard gameOver]; repeat split; auto;
      intros; discriminate.
  - intros Heq. injection Heq as <-.
    unfold userBoardSound; cbn [userBoard gameOver]; repeat split; auto.
    intros _. destruct (Hres false key eq_refl) as [_ Hsame]. rewrite (Hsame eq_refl). auto.
Qed.

Lemma reachable_userBoardSound (g : GameState) : reachable g -> userBoardSound g.
Proof.
  induction 1 as [fuel random g Hreset | g g' r c _ IH Hin Hstep | g g' k _ IH Hstep].
  - exact (resetGame_userBoardSound fuel random g Hreset).
  - exact (onUserFireAtAI_userBoardSound g g' r c IH Hstep).
  - exact (aiTakeTurnLoop_userBoardSound g g' k IH Hstep).
Qed.

(** While the game goes on, some cell of the user's grid is not yet shot. *)
Lemma userBoardSound_unshot (g : GameState) :
  userBoardSound g -> gameOver g = false ->
  exists q, In q (unshotCells (userBoard g)).
Proof.
  intros (Hgrid & Hsub & Hwater & Hlive) Hover.
  destruct (existsb (fun p => negb (alreadyShot (userBoard g) (coordKey p))) gridCells)
    eqn:Hex.
  - apply existsb_exists in Hex as (q & Hq & Hfree).
    exists q. unfold unshotCells. apply filter_In. now split.
  - exfalso.
    assert (Hall : keptIn (shipCells (userBoard g)) (hitCells (userBoard g))).
    { intros k Hk.
      destruct (gridKeys_cell k (Hgrid k (proj1 (has_In _ _) Hk))) as (p & Hp & ->).
      destruct (alreadyShot (userBoard g) (coordKey p)) eqn:Hshot.
      - unfold alreadyShot in Hshot. apply orb_true_iff in Hshot as [Hhit | Hmiss];
          [exact Hhit |].
        apply Hwater in Hmiss. congruence.
      - assert (Hyes : existsb (fun p => negb (alreadyShot (userBoard g) (coordKey p)))
                         gridCells = true).
        { apply existsb_exists. exists p. split; [now apply gridCells_spec |].
          now rewrite Hshot. }
        congruence. }
    apply (hasWon_iff_all_hit _ Hsub) in Hall. rewrite (Hlive Hover) in Hall. discriminate.
Qed.

Lemma aiDecideNextShot_returns (userBoard : Board string) (st : AiState string)
    (k : sample) (q : Coord) :
  In q (unshotCells userBoard) ->
  exists p st', aiDecideNextShot userBoard st k = (Some p, st').
Proof.
  intros Hq. destruct (aiChooseHuntTarget_returns userBoard k q Hq) as [p Hhunt].
  unfold aiDecideNextShot. destruct (mode st).
  - rewrite Hhunt. eauto.
  - destruct (aiChooseTargetModeCell userBoard (targetQueue st)) as [[t|] queue].
    + eauto.
    + rewrite Hhunt. eauto.
Qed.

Lemma applyShot_returns (board : Board string) (r c : num) :
  cellExists r c = true -> exists shot, fst (applyShot board r c) = Ok shot.
Proof.
  intros Hcell. unfold applyShot, markCell.
  destruct (alreadyShot board (keyOf r c)); cbn [fst]; [eauto |].
  rewrite Hcell. cbn [bind]. eauto.
Qed.

Lemma onUserFireAtAI_returns (g : GameState) (r c : num) :
  inBounds r c = true -> exists g', onUserFireAtAI g r c = Ok g'.
Proof.
  intros Hin. unfold onUserFireAtAI.
  destruct (gameOver g); [eauto |]. destruct (currentTurn g); [| eauto].
  destruct (parseKey_coordKey (mkCoord r c) Hin) as [_ Hcell].
  change (cellExists r c = true) in Hcell.
  destruct (applyShot_returns (aiBoard g) r c Hcell) as [shot Hshot].
  destruct (applyShot (aiBoard g) r c) as [res board]. cbn [fst] in Hshot. subst res.
  cbn [bind]. destruct shot as [|[|] key]; [eauto | | eauto].
  destruct (hasWon _); eauto.
Qed.

Lemma aiTakeTurnLoop_returns (g : GameState) (k : sample) :
  keysOnGrid g -> userBoardSound g -> exists g', aiTakeTurnLoop g k = Ok g'.
Proof.
  intros (_ & _ & Hq) Hs. unfold aiTakeTurnLoop.
  destruct (gameOver g) eqn:Hover; [eauto |]. destruct (currentTurn g); [eauto |].
  destruct (userBoardSound_unshot g Hs Hover) as [q Hunshot].
  destruct (aiDecideNextShot_returns (userBoard g) (aiState g) k q Hunshot)
    as (p & st & Hdec).
  rewrite Hdec.
  destruct (aiDecideNextShot_onGrid _ _ _ _ _ Hq Hdec) as [Hp _].
  destruct (parseKey_coordKey p Hp) as [_ Hcell].
  destruct (applyShot_returns (userBoard g) (r p) (c p) Hcell) as [shot Hshot].
  destruct (applyShot (userBoard g) (r p) (c p)) as [res board]. cbn [fst] in Hshot. subst res.
  cbn [bind]. destruct shot as [|[|] key]; [eauto | | eauto].
  destruct (aiAfterHit_returns board st key) as [st' [-> _]]. cbn [bind].
  destruct (hasWon _); eauto.
Qed.

(** From a reachable state no handler throws and no modelled loop runs out of
    budget: every click on a cell of the grid and every run of
    [aiTakeTurnLoop] returns, so the states of the runs that return are all
    the states there are. *)
Lemma reachable_never_throws (g : GameState) :
  reachable g ->
  (forall r c, inBounds r c = true -> exists g', onUserFireAtAI g r c = Ok g') /\
  (forall k, exists g', aiTakeTurnLoop g k = Ok g').
Proof.
  intros Hreach. split.
  - intros r c Hin. now apply onUserFireAtAI_returns.
  - intros k. apply aiTakeTurnLoop_returns.
    + now apply reachable_keysOnGrid.
    + now apply reachable_userBoardSound.
Qed.

(** C5. Round trip: for every state a game reaches, whatever the two DOM
    texts are, [loadGame] on what [saveGame] stored returns [true] and leaves
    bindings that hold the same three sets of each board (same keys, same
    order), the same turn, game-over flag and tallies, and the same mode,
    queue and cluster of the AI. *)
Theorem persistence_roundtrip (g : GameState) (subtitle status : string)
    (Hreach : reachable g) :
  exists G, loadGame (saveGame subtitle status g) = Ok (Some G) /\ sameState g G.
Proof.
  destruct (reachable_keysOnGrid g Hreach) as (Hu & Ha & _).
  now apply loadGame_saveGame.
Qed.

(** A game in the middle of TARGET mode: a new game, the user misses at
    (0,0), the AI hits at (0,2) while hunting and hits again below it. *)
Definition demoRandom (n : nat) : sample := Z.of_nat n * 1234567890123456 + 77.

Definition demoGame : result GameState :=
  g0 <- resetGame 5 demoRandom ;;
  g1 <- onUserFireAtAI g0 (Int 0) (Int 0) ;;
  g2 <- aiTakeTurnLoop g1 (two53 / 50 + 1) ;;
  aiTakeTurnLoop g2 0.

Definition demoState : GameState :=
  Eval vm_compute in
    match demoGame with Ok g => g | _ => rowShipGame USER end.

(** A new game, one click of the user and two runs of the AI. *)
Lemma reachable_after_three (fuel : nat) (random : nat -> sample) (r c : num)
    (k1 k2 : sample) (g : GameState) :
  inBounds r c = true ->
  (g0 <- resetGame fuel random ;;
   g1 <- onUserFireAtAI g0 r c ;;
   g2 <- aiTakeTurnLoop g1 k1 ;;
   aiTakeTurnLoop g2 k2) = Ok g ->
  reachable g.
Proof.
  intros Hin.
  destruct (resetGame fuel random) as [g0| |] eqn:H0; cbn [bind]; try discriminate.
  destruct (onUserFireAtAI g0 r c) as [g1| |] eqn:H1; cbn [bind]; try discriminate.
  destruct (aiTakeTurnLoop g1 k1) as [g2| |] eqn:H2; cbn [bind]; try discriminate.
  intros H3.
  apply (reach_ai g2 g k2); [| exact H3].
  apply (reach_ai g1 g2 k1); [| exact H2].
  apply (reach_user g0 g1 r c); [| exact Hin | exact H1].
  exact (reach_reset fuel random g0 H0).
Qed.

Lemma demoGame_reachable (g : GameState) : demoGame = Ok g -> reachable g.
Proof.
  exact (reachable_after_three 5 demoRandom (Int 0) (Int 0) (two53 / 50 + 1) 0 g eq_refl).
Qed.

Example demoState_is_mid_target :
  demoGame = Ok demoState /\
  currentTurn demoState = AI /\
  aiState demoState =
    mkAiState TARGET ["2,2"; "0,1"; "0,3"; "1,1"; "1,3"] ["1,2"; "0,2"].
Proof. split; [| split]; vm_compute; reflexivity. Qed.

Lemma persistence_roundtrip_witness :
  exists G,
    loadGame (saveGame "Your turn" "AI hit your ship! AI shoots again." demoState) = Ok (Some G) /\
    sameState demoState G.
Proof.
  apply (persistence_roundtrip demoState).
  apply demoGame_reachable. vm_compute. reflexivity.
Defined.

(** ** Saved games: the version and the enumerations *)

(** [obj[name] = v] on the properties of an object. *)
Fixpoint setField (name : string) (v : json) (fields : list (string * json))
    : list (string * json) :=
  match fields with
  | [] => [(name, v)]
  | (n, x) :: rest =>
      if String.eqb n name then (n, v) :: rest else (n, x) :: setField name v rest
  end.

(** [delete obj[name]] *)
Definition removeField (name : string) (fields : list (string * json))
    : list (string * json) :=
  filter (fun nx => negb (String.eqb (fst nx) name)) fields.

Lemma lookup_setField_other (name name' : string) (v : json) (fields : list (string * json)) :
  name' <> name -> lookup name' (setField name v fields) = lookup name' fields.
Proof.
  intros Hne. induction fields as [|[n x] rest IH]; simpl.
  - destruct (String.eqb name name') eqn:Heq; [| reflexivity].
    apply String.eqb_eq in Heq. congruence.
  - destruct (String.eqb n name) eqn:Hn; simpl.
    + apply String.eqb_eq in Hn. subst n.
      destruct (String.eqb name name') eqn:Heq; [| reflexivity].
      apply String.eqb_eq in Heq. congruence.
    + now rewrite IH.
Qed.

Lemma lookup_removeField_other (name name' : string) (fields : list (string * json)) :
  name' <> name -> lookup name' (removeField name fields) = lookup name' fields.
Proof.
  intros Hne. induction fields as [|[n x] rest IH]; simpl; [reflexivity |].
  destruct (String.eqb n name) eqn:Hn; simpl.
  - apply String.eqb_eq in Hn. subst n.
    destruct (String.eqb name name') eqn:Heq; [| exact IH].
    apply String.eqb_eq in Heq. congruence.
  - now rewrite IH.
Qed.

(** [loadGame] reads seven properties of the parsed object, and "version" is
    not one of them. *)
Lemma loadGame_reads (fields1 fields2 : list (string * json)) :
  (forall name, name <> "version" -> lookup name fields1 = lookup name fields2) ->
  loadGame (Item (JObj fields1)) = loadGame (Item (JObj fields2)).
Proof.
  intros Hsame. unfold loadGame. cbn [get].
  rewrite (Hsame "userBoard"), (Hsame "aiBoard"), (Hsame "currentTurn"),
          (Hsame "gameOver"), (Hsame "userShots"), (Hsame "aiShots"),
          (Hsame "aiState") by discriminate.
  reflexivity.
Qed.

(** C2, as the code has it.  [loadGame] does not look at the version: a saved
    object loads to the same result whatever its "version" property is set to
    and also without one; so what [saveGame] wrote for a reachable game, with
    any value in place of the version, still restores that game. *)
Theorem loadGame_ignores_version (fields : list (string * json)) (v : json) :
  loadGame (Item (JObj (setField "version" v fields))) = loadGame (Item (JObj fields)) /\
  loadGame (Item (JObj (removeField "version" fields))) = loadGame (Item (JObj fields)) /\
  (forall (g : GameState) (subtitle status : string),
     fields = payload subtitle status g -> reachable g ->
     exists G, loadGame (Item (JObj (setField "version" v fields))) = Ok (Some G) /\
               sameState g G).
Proof.
  assert (Hset : loadGame (Item (JObj (setField "version" v fields)))
                 = loadGame (Item (JObj fields))).
  { apply loadGame_reads. intros name Hne. now apply lookup_setField_other. }
  split; [exact Hset |]. split.
  - apply loadGame_reads. intros name Hne. now apply lookup_removeField_other.
  - intros g subtitle status -> Hreach. rewrite Hset.
    destruct (reachable_keysOnGrid g Hreach) as (Hu & Ha & _).
    now apply (loadGame_saveGame subtitle status g).
Qed.

(** What [loadGame] leaves for an object without any property: the values of
    a fresh game (with no ships). *)
Definition zeroTally : json :=
  JObj [("hits", JNum (Q2Qc (inject_Z 0))); ("misses", JNum (Q2Qc (inject_Z 0)))].

Definition defaultBindings : Game json json :=
  mkGame (mkBoard JSSet.empty JSSet.empty JSSet.empty)
         (mkBoard JSSet.empty JSSet.empty JSSet.empty)
         USER false zeroTally zeroTally
         (mkAiState HUNT [] []).

(** The saved [demoState] with 99 written as its version. *)
Definition futureSnapshot : json :=
  JObj (setField "version" (numberOfZ 99) (payload "" "" demoState)).

Lemma numberOfZ_inj (a b : Z) : numberOfZ a = numberOfZ b -> a = b.
Proof.
  intros Heq. injection Heq as Heq.
  apply (f_equal Qnum) in Heq.
  change (Qnum (Qred (inject_Z a)) = Qnum (Qred (inject_Z b))) in Heq.
  assert (Hred : forall z, Qnum (Qred (inject_Z z)) = z).
  { intros z. unfold inject_Z, Qred. pose proof (Z.ggcd_correct_divisors z 1) as Hd.
    pose proof (Z.ggcd_gcd z 1) as Hg. rewrite Z.gcd_1_r in Hg.
    destruct (Z.ggcd z 1) as [gd [n d]]. simpl in *. destruct Hd as [Hz _]. lia. }
  now rewrite !Hred in Heq.
Qed.

(** C2, as claimed, fails: [futureSnapshot] carries version 99, not the 2 the
    program writes, and [loadGame] takes its fields as they are, the AI's turn
    and TARGET mode with its queue among them, where the defaults are the
    user's turn and HUNT mode with an empty queue. *)
Lemma future_version_is_trusted :
  get (Some futureSnapshot) "version" = Some (numberOfZ 99) /\
  numberOfZ 99 <> numberOfZ 2 /\
  loadGame (Item (JObj [])) = Ok (Some defaultBindings) /\
  exists G,
    loadGame (Item futureSnapshot) = Ok (Some G) /\
    sameState demoState G /\
    currentTurn G = AI /\
    mode (aiState G) = TARGET /\
    targetQueue (aiState G) = [JStr "2,2"; JStr "0,1"; JStr "0,3"; JStr "1,1"; JStr "1,3"] /\
    G <> defaultBindings.
Proof.
  split; [vm_compute; reflexivity |].
  split; [intros Heq; apply numberOfZ_inj in Heq; discriminate |].
  split; [vm_compute; reflexivity |].
  assert (Hgrid : keysOnGrid demoState).
  { apply reachable_keysOnGrid, demoGame_reachable. vm_compute. reflexivity. }
  destruct Hgrid as (Hu & Ha & _).
  destruct (loadGame_saveGame "" "" demoState Hu Ha) as (G & Hload & Hsame).
  exists G. unfold futureSnapshot.
  split.
  - rewrite <- Hload. apply loadGame_reads.
    intros name Hne. now apply lookup_setField_other.
  - split; [exact Hsame |].
    destruct Hsame as (_ & _ & Hturn & _ & _ & _ & Hmode & Hqueue & _).
    split; [rewrite Hturn; vm_compute; reflexivity |].
    split; [rewrite Hmode; vm_compute; reflexivity |].
    split; [rewrite Hqueue; vm_compute; reflexivity |].
    intros ->. simpl in Hturn. revert Hturn. vm_compute. discriminate.
Qed.

(** The value of a set property that [loadGame] can turn into a set: no
    value, or an array. *)
Definition arrayOrAbsent (v : option json) : bool :=
  match v with
  | None => true
  | Some (JArr _) => true
  | Some _ => false
  end.

(** The value of a [hitCells] or [missCells] property whose cells can be
    painted: no value, or an array of keys of grid cells. *)
Definition gridKeysOrAbsent (v : option json) : bool :=
  match v with
  | None => true
  | Some (JArr items) =>
      forallb (fun x => match x with
                        | JStr k => JSSet.includes k gridKeys
                        | _ => false
                        end) items
  | Some _ => false
  end.

Definition validBoard (b : option json) : bool :=
  arrayOrAbsent (get b "shipCells")
  && gridKeysOrAbsent (get b "hitCells")
  && gridKeysOrAbsent (get b "missCells").

(** A structurally valid snapshot: each of the six set properties is absent
    or an array, and the shots are keys of grid cells.  Nothing is asked of
    the other properties. *)
Definition structurallyValid (data : json) : bool :=
  validBoard (get (Some data) "userBoard") && validBoard (get (Some data) "aiBoard").

Lemma arrayToSet_arrayOrAbsent (v : option json) :
  arrayOrAbsent v = true -> arrayToSet v = Ok (JSSet.of_array (arrayOrEmpty v)).
Proof. destruct v as [[]|]; simpl; try discriminate; reflexivity. Qed.

Lemma gridKeysOrAbsent_array (v : option json) :
  gridKeysOrAbsent v = true ->
  arrayOrAbsent v = true /\
  paintKeys (JSSet.elems (JSSet.of_array (arrayOrEmpty v))) = Ok tt.
Proof.
  intros Hv.
  destruct v as [[| | | |items|]|]; cbn [gridKeysOrAbsent] in Hv; try discriminate Hv;
    (split; [reflexivity |]); cbn [arrayOrEmpty]; [| reflexivity].
  apply paintKeys_grid. intros x Hx. apply of_array_subset in Hx.
  rewrite forallb_forall in Hv. specialize (Hv x Hx).
  destruct x; try discriminate Hv. eexists. split; [reflexivity |]. now apply includes_In.
Qed.

Lemma loadBoard_validBoard (b : option json) :
  validBoard b = true ->
  exists B, loadBoard b = Ok B /\
            paintKeys (JSSet.elems (hitCells B)) = Ok tt /\
            paintKeys (JSSet.elems (missCells B)) = Ok tt.
Proof.
  unfold validBoard. intros Hb.
  apply andb_true_iff in Hb as [Hb Hmiss]. apply andb_true_iff in Hb as [Hship Hhit].
  apply gridKeysOrAbsent_array in Hhit as [Hhit Hpaint1].
  apply gridKeysOrAbsent_array in Hmiss as [Hmiss Hpaint2].
  unfold loadBoard.
  rewrite (arrayToSet_arrayOrAbsent _ Hship), (arrayToSet_arrayOrAbsent _ Hhit),
          (arrayToSet_arrayOrAbsent _ Hmiss).
  cbn [bind]. eexists. split; [reflexivity |]. split; assumption.
Qed.

Lemma strictEqString_true (v : option json) (s : string) :
  strictEqString v s = true <-> v = Some (JStr s).
Proof.
  destruct v as [[]|]; simpl; split; try discriminate.
  - intros Heq. apply String.eqb_eq in Heq. now subst.
  - intros Heq. injection Heq as ->. apply String.eqb_refl.
Qed.

(** C10. Loading normalizes the two enumerations: a structurally valid
    snapshot loads ([loadGame] returns [true], it does not throw), the turn it
    restores is the AI's when the "currentTurn" property is the string "AI"
    and the user's for any other value or none, and the mode it restores is
    TARGET when the "mode" property of "aiState" is the string "TARGET" and
    HUNT for any other value or none. *)
Theorem loadGame_normalizes_enums (data : json) (Hvalid : structurallyValid data = true) :
  exists G,
    loadGame (Item data) = Ok (Some G) /\
    (get (Some data) "currentTurn" = Some (JStr "AI") -> currentTurn G = AI) /\
    (get (Some data) "currentTurn" <> Some (JStr "AI") -> currentTurn G = USER) /\
    (get (get (Some data) "aiState") "mode" = Some (JStr "TARGET") ->
     mode (aiState G) = TARGET) /\
    (get (get (Some data) "aiState") "mode" <> Some (JStr "TARGET") ->
     mode (aiState G) = HUNT).
Proof.
  unfold structurallyValid in Hvalid. apply andb_true_iff in Hvalid as [Hu Ha].
  destruct (loadBoard_validBoard _ Hu) as (UB & HUB & Hp1 & Hp2).
  destruct (loadBoard_validBoard _ Ha) as (AB & HAB & Hp3 & Hp4).
  unfold loadGame. rewrite HUB, HAB. cbn [bind]. rewrite Hp1, Hp2, Hp3, Hp4. cbn [bind].
  eexists. split; [reflexivity |]. cbn [currentTurn aiState mode].
  repeat split.
  - intros Heq. apply strictEqString_true in Heq. now rewrite Heq.
  - intros Hne. destruct (strictEqString (get (Some data) "currentTurn") "AI") eqn:Heq;
      [| reflexivity].
    apply strictEqString_true in Heq. contradiction.
  - intros Heq. apply strictEqString_true in Heq. now rewrite Heq.
  - intros Hne.
    destruct (strictEqString (get (get (Some data) "aiState") "mode") "TARGET") eqn:Heq;
      [| reflexivity].
    apply strictEqString_true in Heq. contradiction.
Qed.

(** A snapshot that names the turn "COMPUTER" and the mode "FINISHING". *)
Definition renamedSnapshot : json :=
  JObj [("version", numberOfZ 2);
        ("currentTurn", JStr "COMPUTER");
        ("gameOver", JBool false);
        ("userBoard", JObj [("shipCells", JArr [JStr "4,3"; JStr "4,4"; JStr "4,5"]);
                            ("hitCells", JArr [JStr "4,4"]);
                            ("missCells", JArr [JStr "0,0"])]);
        ("aiBoard", JObj [("shipCells", JArr [JStr "1,1"; JStr "1,2"])]);
        ("aiState", JObj [("mode", JStr "FINISHING");
                          ("targetQueue", JArr [JStr "3,4"; JStr "5,4"]);
                          ("clusterHits", JArr [JStr "4,4"])])].

Lemma loadGame_normalizes_enums_witness :
  exists G,
    loadGame (Item renamedSnapshot) = Ok (Some G) /\
    (get (Some renamedSnapshot) "currentTurn" = Some (JStr "AI") -> currentTurn G = AI) /\
    (get (Some renamedSnapshot) "currentTurn" <> Some (JStr "AI") -> currentTurn G = USER) /\
    (get (get (Some renamedSnapshot) "aiState") "mode" = Some (JStr "TARGET") ->
     mode (aiState G) = TARGET) /\
    (get (get (Some renamedSnapshot) "aiState") "mode" <> Some (JStr "TARGET") ->
     mode (aiState G) = HUNT).
Proof.
  apply (loadGame_normalizes_enums renamedSnapshot). vm_compute. reflexivity.
Defined.

(** The renamed snapshot loads as the user's turn in HUNT mode, with its
    queue kept. *)
Example renamedSnapshot_loads :
  exists G,
    loadGame (Item renamedSnapshot) = Ok (Some G) /\
    currentTurn G = USER /\ mode (aiState G) = HUNT /\
    targetQueue (aiState G) = [JStr "3,4"; JStr "5,4"].
Proof. eexists. split; [vm_compute; reflexivity |]. split; [| split]; reflexivity. Qed.

(** ** More about reachable games *)

Definition demoStart : GameState :=
  Eval vm_compute in
    match resetGame 5 demoRandom with Ok g => g | _ => rowShipGame USER end.

(** X1. From a state a game reaches, every click on a cell of the grid and every
    run of [aiTakeTurnLoop] returns: no [TypeError], in particular not the one
    of an empty pool in HUNT mode, and no loop out of budget. *)
Theorem reachable_runs_return (g : GameState) (Hreach : reachable g) :
  (forall r c, inBounds r c = true -> exists g', onUserFireAtAI g r c = Ok g') /\
  (forall k, exists g', aiTakeTurnLoop g k = Ok g') /\
  (gameOver g = false -> exists q, In q (unshotCells (userBoard g))).
Proof.
  destruct (reachable_never_throws g Hreach) as [Huser Hai].
  split; [exact Huser |]. split; [exact Hai |].
  intros Hover. apply userBoardSound_unshot; [| exact Hover].
  now apply reachable_userBoardSound.
Qed.

Lemma reachable_runs_return_witness :
  (forall r c, inBounds r c = true -> exists g', onUserFireAtAI demoState r c = Ok g') /\
  (forall k, exists g', aiTakeTurnLoop demoState k = Ok g') /\
  (gameOver demoState = false -> exists q, In q (unshotCells (userBoard demoState))).
Proof.
  apply (reachable_runs_return demoState).
  apply demoGame_reachable. vm_compute. reflexivity.
Defined.

Lemma aiChooseTargetModeCell_unshot (userBoard : Board string) (queue : list string)
    (t : Coord) :
  fst (aiChooseTargetModeCell userBoard queue) = Some t ->
  exists k, In k queue /\ t = parseKey k /\ alreadyShot userBoard k = false.
Proof.
  induction queue as [|k rest IH]; simpl; [discriminate |].
  destruct (alreadyShot userBoard k) eqn:Hshot; simpl.
  - intros Ht. destruct (IH Ht) as (k' & Hk' & Hp & Hs). exists k'. auto.
  - intros Ht. injection Ht as <-. exists k. auto.
Qed.

(** X2. The AI never fires twice at a cell: in a state a game reaches, the cell
    [aiDecideNextShot] picks is a cell of the grid that is not yet shot, so
    that [applyShot] takes the shot as valid and the branch of
    [aiTakeTurnLoop] marked "should not happen" is not taken. *)
Theorem ai_never_refires (g : GameState) (k : sample) (p : Coord) (st : AiState string)
    (Hreach : reachable g)
    (Hdec : aiDecideNextShot (userBoard g) (aiState g) k = (Some p, st)) :
  coordInBounds p = true /\
  alreadyShot (userBoard g) (coordKey p) = false /\
  fst (applyShot (userBoard g) (r p) (c p)) =
    Ok (Valid (JSSet.has (shipCells (userBoard g)) (coordKey p)) (coordKey p)).
Proof.
  destruct (reachable_keysOnGrid g Hreach) as (_ & _ & Hq).
  destruct (aiDecideNextShot_onGrid _ _ _ _ _ Hq Hdec) as [Hp _].
  assert (Hfresh : alreadyShot (userBoard g) (coordKey p) = false).
  { unfold aiDecideNextShot in Hdec. destruct (mode (aiState g)).
    - injection Hdec as Hhunt _.
      now apply aiChooseHuntTarget_unshot, unshotCells_spec in Hhunt.
    - pose proof (aiChooseTargetModeCell_unshot (userBoard g) (targetQueue (aiState g))) as Hcell.
      destruct (aiChooseTargetModeCell (userBoard g) (targetQueue (aiState g)))
        as [[t|] queue]; simpl in Hcell; injection Hdec as Hhunt _.
      + subst t. destruct (Hcell p eq_refl) as (k' & Hk' & Hparse & Hshot).
        destruct (gridKeys_cell k' (Hq k' Hk')) as (q & Hqb & ->).
        destruct (parseKey_coordKey q Hqb) as [Hback _].
        rewrite Hback in Hparse. now subst p.
      + now apply aiChooseHuntTarget_unshot, unshotCells_spec in Hhunt. }
  repeat split; [exact Hp | exact Hfresh |].
  destruct (parseKey_coordKey p Hp) as [_ Hcell].
  exact (applyShot_valid (userBoard g) (r p) (c p) Hcell Hfresh).
Qed.

Lemma ai_never_refires_witness :
  coordInBounds (mkCoord (Int 2) (Int 2)) = true /\
  alreadyShot (userBoard demoState) (coordKey (mkCoord (Int 2) (Int 2))) = false /\
  fst (applyShot (userBoard demoState) (Int 2) (Int 2)) =
    Ok (Valid (JSSet.has (shipCells (userBoard demoState)) (coordKey (mkCoord (Int 2) (Int 2))))
              (coordKey (mkCoord (Int 2) (Int 2)))).
Proof.
  apply (ai_never_refires demoState 0 (mkCoord (Int 2) (Int 2))
           (mkAiState TARGET ["0,1"; "0,3"; "1,1"; "1,3"] ["1,2"; "0,2"])).
  - apply demoGame_reachable. vm_compute. reflexivity.
  - vm_compute. reflexivity.
Defined.

(** *** The fleet *)

Lemma coordKey_inj (p q : Coord) :
  coordInBounds p = true -> coordInBounds q = true -> coordKey p = coordKey q -> p = q.
Proof.
  intros Hp Hq Heq.
  transitivity (parseKey (coordKey p)); [symmetry; apply parseKey_coordKey, Hp |].
  rewrite Heq. apply parseKey_coordKey, Hq.
Qed.

Lemma drawCandidate_length (length : Z) (k1 k2 k3 : sample) :
  List.length (drawCandidate length k1 k2 k3) = Z.to_nat length.
Proof.
  unfold drawCandidate, candidateKeys. now rewrite !length_map, length_seq.
Qed.

(** The cells of a candidate are pairwise different. *)
Lemma drawCandidate_NoDup (length : Z) (k1 k2 k3 : sample) :
  length <= GRID_SIZE -> NoDup (drawCandidate length k1 k2 k3).
Proof.
  intros Hlen. unfold drawCandidate, candidateKeys.
  pose proof (randomInt_range (GRID_SIZE - length) k2 ltac:(lia)) as Hr2.
  pose proof (randomInt_range (GRID_SIZE - 1) k2 ltac:(unfold GRID_SIZE; lia)) as Hr2'.
  pose proof (randomInt_range (GRID_SIZE - length) k3 ltac:(lia)) as Hr3.
  pose proof (randomInt_range (GRID_SIZE - 1) k3 ltac:(unfold GRID_SIZE; lia)) as Hr3'.
  apply NoDup_map_NoDup_ForallPairs.
  - intros i j Hi Hj Heq.
    apply in_map_iff in Hi as (n & <- & Hn). apply in_seq in Hn.
    apply in_map_iff in Hj as (m & <- & Hm). apply in_seq in Hm.
    destruct (random_lt_half k1).
    + apply (coordKey_inj (mkCoord _ _) (mkCoord _ _)) in Heq; [injection Heq; lia | |];
        unfold coordInBounds, inBounds, in_range; cbn [r c];
        apply andb_true_iff; split; apply andb_true_iff; split; lia.
    + apply (coordKey_inj (mkCoord _ _) (mkCoord _ _)) in Heq; [injection Heq; lia | |];
        unfold coordInBounds, inBounds, in_range; cbn [r c];
        apply andb_true_iff; split; apply andb_true_iff; split; lia.
  - apply NoDup_map_NoDup_ForallPairs; [| apply seq_NoDup].
    intros n m _ _ Heq. lia.
Qed.

Lemma size_add_new (s : JSSet.t string) (k : string) :
  JSSet.has s k = false -> JSSet.size (JSSet.add k s) = JSSet.size s + 1.
Proof.
  intros Hk. unfold JSSet.size. rewrite JSSet.elems_add, Hk, length_app. simpl. lia.
Qed.

(** Adding keys that are new and pairwise different adds that many. *)
Lemma size_addAll (keys : list string) :
  NoDup keys ->
  forall s, (forall k, In k keys -> JSSet.has s k = false) ->
            JSSet.size (addAll keys s) = JSSet.size s + Z.of_nat (List.length keys).
Proof.
  unfold addAll. induction 1 as [|k rest Hk Hnd IH]; intros s Hnew; simpl fold_left.
  - cbn [List.length]. lia.
  - rewrite IH.
    + rewrite size_add_new by (apply Hnew; now left). cbn [List.length]. lia.
    + intros x Hx. rewrite has_add, (Hnew x (or_intror Hx)). simpl.
      apply String.eqb_neq. intros ->. contradiction.
Qed.

Lemma placeOneShipRandomly_size (fuel : nat) (random : nat -> sample) (length : Z) :
  0 <= length <= GRID_SIZE ->
  forall pos board board' pos',
    placeOneShipRandomly fuel random pos board length = Ok (board', pos') ->
    JSSet.size (shipCells board') = JSSet.size (shipCells board) + length.
Proof.
  intros Hlen. induction fuel as [|fuel IH]; intros pos board board' pos';
    cbn [placeOneShipRandomly]; [discriminate |].
  destruct (existsb _ _) eqn:Hover; [apply IH |].
  intros Heq. injection Heq as <- _. cbn [shipCells].
  rewrite size_addAll.
  - rewrite drawCandidate_length. lia.
  - apply drawCandidate_NoDup. lia.
  - intros k Hk.
    destruct (JSSet.has (shipCells board) k) eqn:Hhas; [| reflexivity].
    assert (Hyes : existsb (fun k => JSSet.has (shipCells board) k)
                     (drawCandidate length (random pos) (random (S pos)) (random (S (S pos))))
                   = true) by (apply existsb_exists; eauto).
    congruence.
Qed.

Lemma placeShips_size (fuel : nat) (random : nat -> sample) (lengths : list Z) :
  (forall length, In length lengths -> 1 <= length <= GRID_SIZE) ->
  forall pos board board' pos',
    placeShips fuel random pos board lengths = Ok (board', pos') ->
    JSSet.size (shipCells board') = JSSet.size (shipCells board) + fold_right Z.add 0 lengths.
Proof.
  induction lengths as [|length rest IH]; intros Hlens pos board board' pos';
    cbn [placeShips fold_right].
  - intros Heq. injection Heq as <- _. lia.
  - destruct (placeOneShipRandomly fuel random pos board length) as [[b1 p1]| |] eqn:Hone;
      cbn [bind fst snd]; try discriminate.
    intros Hrest.
    pose proof (Hlens length (or_introl eq_refl)) as Hlen.
    rewrite (IH (fun l Hl => Hlens l (or_intror Hl)) p1 b1 board' pos' Hrest).
    rewrite (placeOneShipRandomly_size fuel random length ltac:(lia) pos board b1 p1 Hone).
    lia.
Qed.

(** X3. Placement without overlap: whenever [resetGame] returns, each board holds
    5 + 3 + 2 = 10 ship cells, all of them on the grid, so no two ships share
    a cell. *)
Theorem fleet_has_ten_cells (fuel : nat) (random : nat -> sample) (g : GameState)
    (Hreset : resetGame fuel random = Ok g) :
  JSSet.size (shipCells (userBoard g)) = 5 + 3 + 2 /\
  JSSet.size (shipCells (aiBoard g)) = 5 + 3 + 2 /\
  shipsOnGrid (userBoard g) /\ shipsOnGrid (aiBoard g).
Proof.
  unfold resetGame, placeAllShipsRandomly in Hreset.
  destruct (placeShips fuel random 0 createEmptyBoard SHIPS) as [[ub p1]| |] eqn:Hu;
    cbn [bind fst snd] in Hreset; try discriminate.
  destruct (placeShips fuel random p1 createEmptyBoard SHIPS) as [[ab p2]| |] eqn:Ha;
    cbn [bind fst snd] in Hreset; try discriminate.
  injection Hreset as <-. cbn [userBoard aiBoard].
  pose proof (placeShips_size fuel random SHIPS SHIPS_fit _ _ _ _ Hu) as Hsu.
  pose proof (placeShips_size fuel random SHIPS SHIPS_fit _ _ _ _ Ha) as Hsa.
  destruct (placeShips_ships fuel random SHIPS SHIPS_fit _ _ _ _ Hu) as (Hgu & _ & _).
  destruct (placeShips_ships fuel random SHIPS SHIPS_fit _ _ _ _ Ha) as (Hga & _ & _).
  change (JSSet.size (shipCells createEmptyBoard)) with 0 in *.
  change (fold_right Z.add 0 SHIPS) with 10 in *.
  repeat split; try lia; [apply Hgu | apply Hga]; apply incl_nil_l.
Qed.

Lemma fleet_has_ten_cells_witness :
  JSSet.size (shipCells (userBoard demoStart)) = 5 + 3 + 2 /\
  JSSet.size (shipCells (aiBoard demoStart)) = 5 + 3 + 2 /\
  shipsOnGrid (userBoard demoStart) /\ shipsOnGrid (aiBoard demoStart).
Proof.
  apply (fleet_has_ten_cells 5 demoRandom demoStart). vm_compute. reflexivity.
Defined.

(** * Further properties of the script *)

From Stdlib Require DecimalZ DecimalPos.
From Stdlib Require Import Relations Sorted.

(** ** Keys and cells *)

Fixpoint commaFree (s : string) : bool :=
  match s with
  | "" => true
  | String a s' => negb (Ascii.eqb a ","%char) && commaFree s'
  end.

Lemma split_comma_commaFree (s : string) : commaFree s = true -> split_comma s = [s].
Proof.
  induction s as [|a s IH]; simpl; [reflexivity |].
  intros Hs. apply andb_true_iff in Hs as [Ha Hs]. apply negb_true_iff in Ha.
  now rewrite Ha, (IH Hs).
Qed.

Lemma split_comma_app (s1 s2 : string) :
  commaFree s1 = true -> split_comma (s1 ++ "," ++ s2) = s1 :: split_comma s2.
Proof.
  induction s1 as [|a s1 IH]; simpl; [reflexivity |].
  intros Hs. apply andb_true_iff in Hs as [Ha Hs]. apply negb_true_iff in Ha.
  rewrite Ha. simpl in IH. now rewrite (IH Hs).
Qed.

Lemma string_of_uint_commaFree (d : Decimal.uint) :
  commaFree (NilEmpty.string_of_uint d) = true.
Proof. induction d; simpl; auto. Qed.

Lemma num_to_string_commaFree (z : Z) : commaFree (num_to_string (Int z)) = true.
Proof.
  unfold num_to_string.
  destruct (Z.to_int z) as [d|d]; simpl; destruct d; simpl;
    auto using string_of_uint_commaFree.
Qed.

Lemma to_int_not_nil (z : Z) :
  Z.to_int z <> Decimal.Pos Decimal.Nil /\ Z.to_int z <> Decimal.Neg Decimal.Nil.
Proof.
  destruct z as [|p|p]; simpl; split; try discriminate;
    intros Heq; injection Heq; apply DecimalPos.Unsigned.to_uint_nonnil.
Qed.

(** [Number] reads back the text written for an integer. *)
Lemma Number_num_to_string (z : Z) : Number (num_to_string (Int z)) = Int z.
Proof.
  unfold Number, num_to_string.
  destruct (to_int_not_nil z) as [Hpos Hneg].
  pose proof (NilZero.isi (Z.to_int z) Hpos Hneg) as Hisi.
  destruct (NilZero.string_of_int (Z.to_int z)) as [|a s]; [discriminate Hisi |].
  rewrite Hisi. now rewrite DecimalZ.of_to.
Qed.

Lemma parseKey_keyOf_Int (x y : Z) :
  parseKey (keyOf (Int x) (Int y)) = mkCoord (Int x) (Int y).
Proof.
  unfold parseKey, keyOf.
  rewrite (split_comma_app _ _ (num_to_string_commaFree x)).
  rewrite (split_comma_commaFree _ (num_to_string_commaFree y)).
  cbn [map]. now rewrite !Number_num_to_string.
Qed.

Lemma keyOf_Int_inj (a b a' b' : Z) :
  keyOf (Int a) (Int b) = keyOf (Int a') (Int b') -> a = a' /\ b = b'.
Proof.
  intros Heq. apply (f_equal parseKey) in Heq.
  rewrite !parseKey_keyOf_Int in Heq. injection Heq as -> ->. now split.
Qed.

(** X4. Keys and cells: for all safe integers [a] and [b] (the integers of
    magnitude below [2^53], which a JavaScript number holds exactly and a
    template literal writes digit by digit), [parseKey] reads the key [keyOf]
    writes for (a, b) back as (a, b); so two such cells with the same key are
    the same cell, and no such key is the key written for [NaN]. *)
Theorem parseKey_keyOf (a b : Z)
    (Ha : safeInteger a = true) (Hb : safeInteger b = true) :
  parseKey (keyOf (Int a) (Int b)) = mkCoord (Int a) (Int b) /\
  (forall a' b', safeInteger a' = true -> safeInteger b' = true ->
                 keyOf (Int a) (Int b) = keyOf (Int a') (Int b') -> a = a' /\ b = b') /\
  keyOf (Int a) (Int b) <> keyOf NaN NaN.
Proof.
  split; [apply parseKey_keyOf_Int |].
  split; [intros a' b' _ _; apply keyOf_Int_inj |].
  intros Heq. apply (f_equal parseKey) in Heq.
  rewrite parseKey_keyOf_Int in Heq. vm_compute in Heq. discriminate Heq.
Qed.

Lemma parseKey_keyOf_witness :
  parseKey (keyOf (Int (-3)) (Int 9007199254740991))
  = mkCoord (Int (-3)) (Int 9007199254740991) /\
  (forall a' b', safeInteger a' = true -> safeInteger b' = true ->
                 keyOf (Int (-3)) (Int 9007199254740991) = keyOf (Int a') (Int b') ->
                 -3 = a' /\ 9007199254740991 = b') /\
  keyOf (Int (-3)) (Int 9007199254740991) <> keyOf NaN NaN.
Proof.
  apply (parseKey_keyOf (-3) 9007199254740991).
  - reflexivity.
  - reflexivity.
Defined.

(** X5. [randomInt(min, max)] stays within its bounds: for safe integers
    [min <= max] with a safe [max - min + 1] (so that the subtraction and the
    additions of the script are exact), the result is at least [min] and at
    most [max] whatever [Math.random] returns: the product [u * (max - min +
    1)], rounded as a double, stays below [max - min + 1]. *)
Theorem randomInt_within (min maxInclusive : Z) (k : sample)
    (Hmin : safeInteger min = true) (Hmax : safeInteger maxInclusive = true)
    (Hspan : safeInteger (maxInclusive - min + 1) = true)
    (Hle : min <= maxInclusive) :
  min <= randomInt min maxInclusive k <= maxInclusive.
Proof.
  pose proof (randomInt_index (maxInclusive - min + 1) k ltac:(lia)) as Hidx.
  unfold randomInt in *.
  replace (maxInclusive - min + 1 - 1 - 0 + 1) with (maxInclusive - min + 1) in Hidx by lia.
  lia.
Qed.

Lemma randomInt_within_witness : 3 <= randomInt 3 7 (two53 - 1) <= 7.
Proof.
  apply (randomInt_within 3 7 (two53 - 1)).
  - reflexivity.
  - reflexivity.
  - reflexivity.
  - lia.
Defined.

(** Two integer cells next to each other in a row or in a column. *)
Definition adjacent (p q : Coord) : Prop :=
  match r p, c p, r q, c q with
  | Int a, Int b, Int a', Int b' => Z.abs (a - a') + Z.abs (b - b') = 1
  | _, _, _, _ => False
  end.

Lemma neighbors4_In (a b : Z) (q : Coord) :
  In q (neighbors4 (Int a) (Int b)) <->
  coordInBounds q = true /\ adjacent (mkCoord (Int a) (Int b)) q.
Proof.
  unfold neighbors4. rewrite filter_In. cbn [num_plus In].
  split.
  - intros [Hin Hb]. split; [exact Hb |].
    destruct Hin as [<- | [<- | [<- | [<- | []]]]]; unfold adjacent; cbn [r c]; lia.
  - intros [Hb Hadj]. split; [| exact Hb].
    destruct q as [[a'| |] [b'| |]]; unfold adjacent in Hadj; cbn [r c] in Hadj;
      try contradiction.
    assert (Hcases : (a' = a + -1 /\ b' = b) \/ (a' = a + 1 /\ b' = b) \/
                     (a' = a /\ b' = b + -1) \/ (a' = a /\ b' = b + 1)) by lia.
    destruct Hcases as [[-> ->] | [[-> ->] | [[-> ->] | [-> ->]]]]; auto.
Qed.

(** The place of a cell next to (a, b) in the order up, down, left, right. *)
Definition direction (a b : Z) (q : Coord) : Z :=
  match r q, c q with
  | Int a', Int b' =>
      if a' <? a then 0 else if a <? a' then 1 else if b' <? b then 2 else 3
  | _, _ => 4
  end.

Lemma direction_four (a b : Z) :
  direction a b (mkCoord (Int (a + -1)) (Int b)) = 0 /\
  direction a b (mkCoord (Int (a + 1)) (Int b)) = 1 /\
  direction a b (mkCoord (Int a) (Int (b + -1))) = 2 /\
  direction a b (mkCoord (Int a) (Int (b + 1))) = 3.
Proof.
  unfold direction. cbn [r c].
  repeat split;
    repeat match goal with
           | |- context [?x <? ?y] => destruct (Z.ltb_spec x y); try lia
           end; reflexivity.
Qed.

(** X6. [neighbors4] of an integer cell holds exactly the cells of the grid
    next to it in its row or column (never a diagonal one, never the cell
    itself, never one off the grid), each once, so at most four, and in the
    order up, down, left, right. *)
Theorem neighbors4_spec (a b : Z) :
  (forall q, In q (neighbors4 (Int a) (Int b)) <->
             coordInBounds q = true /\ adjacent (mkCoord (Int a) (Int b)) q) /\
  NoDup (neighbors4 (Int a) (Int b)) /\
  (List.length (neighbors4 (Int a) (Int b)) <= 4)%nat /\
  StronglySorted (fun p q => direction a b p < direction a b q)
                 (neighbors4 (Int a) (Int b)).
Proof.
  split; [intros q; apply neighbors4_In | split; [| split]].
  - unfold neighbors4. apply NoDup_filter. cbn [num_plus].
    repeat constructor; cbn [In]; intros Hin;
      repeat (destruct Hin as [Hin | Hin]; [injection Hin; lia |]); exact Hin.
  - unfold neighbors4.
    etransitivity; [apply filter_length_le |]. cbn [List.length]. lia.
  - destruct (direction_four a b) as (Hup & Hdown & Hleft & Hright).
    unfold neighbors4. cbn [num_plus filter].
    destruct (coordInBounds (mkCoord (Int (a + -1)) (Int b))),
             (coordInBounds (mkCoord (Int (a + 1)) (Int b))),
             (coordInBounds (mkCoord (Int a) (Int (b + -1)))),
             (coordInBounds (mkCoord (Int a) (Int (b + 1))));
      repeat constructor; rewrite ?Hup, ?Hdown, ?Hleft, ?Hright; lia.
Qed.

(** ** The cluster of a hit *)

(** [q] is a hit cell of the grid next to [p]. *)
Definition hitNeighbor (userBoard : Board string) (p q : Coord) : Prop :=
  adjacent p q /\ coordInBounds q = true /\
  JSSet.has (hitCells userBoard) (coordKey q) = true.

(** [q] is reached from [p] by steps from a cell to a hit cell next to it. *)
Definition sameCluster (userBoard : Board string) (p q : Coord) : Prop :=
  clos_refl_trans Coord (hitNeighbor userBoard) p q.

Definition integerCell (p : Coord) : Prop :=
  exists a b, p = mkCoord (Int a) (Int b).

Lemma inBounds_integerCell (p : Coord) : coordInBounds p = true -> integerCell p.
Proof.
  unfold coordInBounds, inBounds, in_range.
  destruct p as [[a| |] [b| |]]; cbn [r c]; intros Hp;
    try discriminate Hp; try (rewrite andb_false_r in Hp; discriminate Hp).
  now exists a, b.
Qed.

Lemma coordKey_integerCell_inj (p q : Coord) :
  integerCell p -> integerCell q -> coordKey p = coordKey q -> p = q.
Proof.
  intros (a & b & ->) (a' & b' & ->) Heq. unfold coordKey in Heq. cbn [r c] in Heq.
  apply keyOf_Int_inj in Heq as [-> ->]. reflexivity.
Qed.

(** What one pass over the neighbours adds: the keys of the hit neighbours
    not yet visited, to the set and to the queue alike. *)
Lemma visitNeighbors_adds (userBoard : Board string) (nbs : list Coord) :
  forall (visited : JSSet.t string) (queue : list string),
  exists added,
    JSSet.elems (fst (visitNeighbors userBoard nbs visited queue))
      = JSSet.elems visited ++ added /\
    snd (visitNeighbors userBoard nbs visited queue) = queue ++ added /\
    (forall x, In x added ->
               exists nb, In nb nbs /\ x = coordKey nb /\
                          JSSet.has (hitCells userBoard) x = true) /\
    (forall nb, In nb nbs -> JSSet.has (hitCells userBoard) (coordKey nb) = true ->
                In (coordKey nb) (JSSet.elems visited ++ added)).
Proof.
  unfold visitNeighbors.
  induction nbs as [|nb rest IH]; intros visited queue; cbn [fold_left fst snd].
  - exists []. rewrite !app_nil_r. repeat split; intros ? []; contradiction.
  - destruct (JSSet.has visited (coordKey nb)) eqn:Hvis; cbn [negb andb].
    + destruct (IH visited queue) as (added & He & Hq & Hadd & Hall).
      exists added. repeat split; try assumption.
      * intros x Hx. destruct (Hadd x Hx) as (nb' & Hin & Hrest). exists nb'. split; [now right | exact Hrest].
      * intros nb' [<- | Hin] Hhit; [| now apply Hall].
        apply in_or_app. left. now apply has_In.
    + destruct (JSSet.has (hitCells userBoard) (coordKey nb)) eqn:Hhit.
      * destruct (IH (JSSet.add (coordKey nb) visited) (queue ++ [coordKey nb]))
          as (added & He & Hq & Hadd & Hall).
        rewrite JSSet.elems_add, Hvis in He, Hall.
        exists (coordKey nb :: added).
        rewrite <- app_assoc in He, Hq, Hall. cbn [app] in He, Hq, Hall.
        repeat split; try assumption.
        -- intros x [<- | Hx]; [exists nb; auto with datatypes |].
           destruct (Hadd x Hx) as (nb' & Hin & Hrest). exists nb'. split; [now right | exact Hrest].
        -- intros nb' [<- | Hin] Hhit'; [| now apply Hall].
           apply in_or_app. right. now left.
      * destruct (IH visited queue) as (added & He & Hq & Hadd & Hall).
        exists added. repeat split; try assumption.
        -- intros x Hx. destruct (Hadd x Hx) as (nb' & Hin & Hrest). exists nb'. split; [now right | exact Hrest].
        -- intros nb' [<- | Hin] Hhit'; [congruence | now apply Hall].
Qed.

(** What holds of the set of visited keys and of the queue throughout the
    search from the integer cell [p0]. *)
Definition searching (userBoard : Board string) (p0 : Coord)
    (visited : JSSet.t string) (queue : list string) : Prop :=
  (forall k, In k (JSSet.elems visited) ->
             exists q, k = coordKey q /\ integerCell q /\ sameCluster userBoard p0 q) /\
  incl queue (JSSet.elems visited) /\
  (forall q, integerCell q -> In (coordKey q) (JSSet.elems visited) ->
             In (coordKey q) queue \/
             forall q', hitNeighbor userBoard q q' -> In (coordKey q') (JSSet.elems visited)) /\
  (exists rest, JSSet.elems visited = coordKey p0 :: rest).

Lemma searching_step (userBoard : Board string) (p0 : Coord)
    (visited : JSSet.t string) (k : string) (queue : list string) :
  searching userBoard p0 visited (k :: queue) ->
  let p := parseKey k in
  let vq := visitNeighbors userBoard (neighbors4 (r p) (c p)) visited queue in
  searching userBoard p0 (fst vq) (snd vq).
Proof.
  intros (Hsound & Hqueue & Hclosed & rest & Hhead). cbv zeta.
  destruct (Hsound k (Hqueue k (or_introl eq_refl))) as (q & -> & Hint & Hreach).
  destruct Hint as (a & b & ->).
  change (coordKey {| r := Int a; c := Int b |}) with (keyOf (Int a) (Int b)) in *.
  rewrite parseKey_keyOf_Int. cbn [r c].
  destruct (visitNeighbors_adds userBoard (neighbors4 (Int a) (Int b)) visited queue)
    as (added & He & Hq & Hadd & Hall).
  unfold searching. rewrite He, Hq.
  assert (Hnew : forall x, In x added ->
            exists nb, x = coordKey nb /\ hitNeighbor userBoard (mkCoord (Int a) (Int b)) nb).
  { intros x Hx. destruct (Hadd x Hx) as (nb & Hin & -> & Hhit).
    apply neighbors4_In in Hin as [Hb Hadj]. exists nb. now repeat split. }
  repeat split.
  - intros x Hx. apply in_app_or in Hx as [Hx | Hx]; [now apply Hsound |].
    destruct (Hnew x Hx) as (nb & -> & Hnb). exists nb. split; [reflexivity |].
    split; [apply inBounds_integerCell, Hnb |].
    eapply rt_trans; [exact Hreach | apply rt_step, Hnb].
  - apply incl_app.
    + intros x Hx. apply in_or_app. left. apply Hqueue. now right.
    + intros x Hx. apply in_or_app. now right.
  - intros q Hint Hq'. apply in_app_or in Hq' as [Hq' | Hq'].
    + destruct (Hclosed q Hint Hq') as [[Hk | Hin] | Hcl].
      * right. apply (coordKey_integerCell_inj (mkCoord (Int a) (Int b)) q) in Hk;
          [| now exists a, b | exact Hint]. subst q.
        intros q' (Hadj & Hb & Hhit). apply Hall; [| exact Hhit].
        apply neighbors4_In. now split.
      * left. apply in_or_app. now left.
      * right. intros q' Hq''. apply in_or_app. left. now apply Hcl.
    + left. apply in_or_app. now right.
  - exists (rest ++ added). now rewrite Hhead.
Qed.

(** A set of visited keys that holds the start, only cells of its cluster,
    and with each cell its hit neighbours, holds the cluster. *)
Lemma searching_done (userBoard : Board string) (p0 : Coord) (visited : JSSet.t string) :
  integerCell p0 ->
  searching userBoard p0 visited [] ->
  forall q, sameCluster userBoard p0 q -> In (coordKey q) (JSSet.elems visited).
Proof.
  intros Hint (_ & _ & Hclosed & rest & Hhead) q Hreach.
  apply clos_rt_rtn1 in Hreach.
  induction Hreach as [|q1 q2 Hstep Hreach IHr]; [rewrite Hhead; now left |].
  assert (Hint1 : integerCell q1).
  { destruct Hreach as [|y z Hyz _]; [exact Hint | apply inBounds_integerCell, Hyz]. }
  destruct (Hclosed q1 Hint1 IHr) as [[] | Hcl]. now apply Hcl.
Qed.

Lemma clusterLoop_component (userBoard : Board string) (p0 : Coord) (fuel : nat) :
  integerCell p0 ->
  forall visited queue cluster,
    searching userBoard p0 visited queue ->
    clusterLoop fuel userBoard visited queue = Ok cluster ->
    NoDup cluster /\
    hd_error cluster = Some (coordKey p0) /\
    (forall k, In k cluster -> exists q, k = coordKey q /\ sameCluster userBoard p0 q) /\
    (forall q, sameCluster userBoard p0 q -> In (coordKey q) cluster).
Proof.
  intros Hint.
  assert (Hend : forall visited cluster,
            searching userBoard p0 visited [] ->
            Ok (JSSet.to_array visited) = Ok cluster ->
            NoDup cluster /\
            hd_error cluster = Some (coordKey p0) /\
            (forall k, In k cluster ->
                       exists q, k = coordKey q /\ sameCluster userBoard p0 q) /\
            (forall q, sameCluster userBoard p0 q -> In (coordKey q) cluster)).
  { intros visited cluster Hs Heq. injection Heq as <-. unfold JSSet.to_array.
    pose proof (searching_done userBoard p0 visited Hint Hs) as Hall.
    destruct Hs as (Hsound & _ & _ & rest & Hhead).
    split; [apply elems_NoDup |]. split; [now rewrite Hhead |].
    split; [| exact Hall].
    intros k Hk. destruct (Hsound k Hk) as (q & Hq & _ & Hr). eauto. }
  induction fuel as [|fuel IH]; intros visited queue cluster Hs;
    destruct queue as [|k queue]; cbn [clusterLoop].
  - now apply Hend.
  - discriminate.
  - now apply Hend.
  - apply IH, searching_step, Hs.
Qed.

(** X7. The cluster of a hit: called with the key of an integer cell,
    [recomputeClusterFromHit] returns (its loop ends), and what it returns
    starts with that key, holds no key twice, and holds exactly the keys of
    the cells reached from that cell by steps to a hit cell of the grid next
    to the current one in its row or column. *)
Theorem recomputeClusterFromHit_component (userBoard : Board string) (a b : Z) :
  exists cluster,
    recomputeClusterFromHit userBoard (keyOf (Int a) (Int b)) = Ok cluster /\
    NoDup cluster /\
    hd_error cluster = Some (keyOf (Int a) (Int b)) /\
    (forall k, In k cluster <->
               exists q, k = coordKey q /\
                         sameCluster userBoard (mkCoord (Int a) (Int b)) q).
Proof.
  destruct (recomputeClusterFromHit_returns userBoard (keyOf (Int a) (Int b)))
    as [cluster Hrun].
  exists cluster. split; [exact Hrun |].
  assert (Hstart : searching userBoard (mkCoord (Int a) (Int b))
                     (JSSet.add (keyOf (Int a) (Int b)) JSSet.empty)
                     [keyOf (Int a) (Int b)]).
  { unfold searching. rewrite JSSet.elems_add. cbn.
    repeat split.
    - intros k [<- | []]. exists (mkCoord (Int a) (Int b)).
      split; [reflexivity |]. split; [now exists a, b | apply rt_refl].
    - apply incl_refl.
    - intros q _ Hq. now left.
    - now exists []. }
  destruct (clusterLoop_component userBoard (mkCoord (Int a) (Int b)) clusterFuel
              ltac:(now exists a, b) _ _ cluster Hstart Hrun)
    as (Hnd & Hhd & Hsound & Hcomplete).
  split; [exact Hnd |]. split; [exact Hhd |].
  intros k. split; [apply Hsound |].
  intros (q & -> & Hreach). now apply Hcomplete.
Qed.

(** ** The queue of targets *)

Lemma aiChooseTargetModeCell_pops (userBoard : Board string) (queue : list string) :
  match aiChooseTargetModeCell userBoard queue with
  | (Some t, rest) =>
      exists shot key,
        queue = shot ++ key :: rest /\
        (forall x, In x shot -> alreadyShot userBoard x = true) /\
        alreadyShot userBoard key = false /\ t = parseKey key
  | (None, rest) =>
      rest = [] /\ forall x, In x queue -> alreadyShot userBoard x = true
  end.
Proof.
  induction queue as [|k queue IH]; cbn [aiChooseTargetModeCell].
  - split; [reflexivity | intros x []].
  - destruct (alreadyShot userBoard k) eqn:Hk; cbn [negb].
    + destruct (aiChooseTargetModeCell userBoard queue) as [[t|] rest].
      * destruct IH as (shot & key & -> & Hshot & Hkey & Ht).
        exists (k :: shot), key. repeat split; try assumption.
        intros x [<- | Hx]; [exact Hk | now apply Hshot].
      * destruct IH as [-> Hall]. split; [reflexivity |].
        intros x [<- | Hx]; [exact Hk | now apply Hall].
    + exists [], k. repeat split; [intros x [] | exact Hk].
Qed.

(** X8. Taking the next target: in TARGET mode [aiDecideNextShot] drops the
    queued keys that are already shot up to the first that is not, returns
    the cell of that key and keeps the keys behind it, the mode and the
    cluster; when every queued key is already shot it empties the queue,
    clears the cluster, goes back to HUNT mode and returns what
    [aiChooseHuntTarget] returns. *)
Theorem aiDecideNextShot_target (userBoard : Board string) (st : AiState string)
    (k : sample) (Hmode : mode st = TARGET) :
  (exists shot key rest,
     targetQueue st = shot ++ key :: rest /\
     (forall x, In x shot -> alreadyShot userBoard x = true) /\
     alreadyShot userBoard key = false /\
     aiDecideNextShot userBoard st k
       = (Some (parseKey key), mkAiState TARGET rest (clusterHits st))) \/
  ((forall x, In x (targetQueue st) -> alreadyShot userBoard x = true) /\
   aiDecideNextShot userBoard st k
     = (aiChooseHuntTarget userBoard k, mkAiState HUNT [] [])).
Proof.
  unfold aiDecideNextShot. rewrite Hmode.
  pose proof (aiChooseTargetModeCell_pops userBoard (targetQueue st)) as Hpop.
  destruct (aiChooseTargetModeCell userBoard (targetQueue st)) as [[t|] rest].
  - left. destruct Hpop as (shot & key & Hq & Hshot & Hkey & ->).
    exists shot, key, rest. repeat split; assumption.
  - right. destruct Hpop as [-> Hall]. split; [exact Hall | reflexivity].
Qed.

Lemma aiDecideNextShot_target_witness :
  (exists shot key rest,
     targetQueue (aiState demoState) = shot ++ key :: rest /\
     (forall x, In x shot -> alreadyShot (userBoard demoState) x = true) /\
     alreadyShot (userBoard demoState) key = false /\
     aiDecideNextShot (userBoard demoState) (aiState demoState) 0
       = (Some (parseKey key), mkAiState TARGET rest (clusterHits (aiState demoState)))) \/
  ((forall x, In x (targetQueue (aiState demoState)) ->
              alreadyShot (userBoard demoState) x = true) /\
   aiDecideNextShot (userBoard demoState) (aiState demoState) 0
     = (aiChooseHuntTarget (userBoard demoState) 0, mkAiState HUNT [] [])).
Proof.
  apply (aiDecideNextShot_target (userBoard demoState) (aiState demoState) 0).
  vm_compute. reflexivity.
Defined.

Lemma uniquePush_In (queue : list string) (k x : string) :
  In x (uniquePush queue k) <-> In x queue \/ x = k.
Proof.
  unfold uniquePush. destruct (JSSet.includes k queue) eqn:Hk.
  - apply includes_In in Hk. split; [now left |]. intros [Hx | ->]; assumption.
  - rewrite in_app_iff. cbn [In]. intuition.
Qed.

Lemma uniquePush_NoDup (queue : list string) (k : string) :
  NoDup queue -> NoDup (uniquePush queue k).
Proof.
  intros Hnd. unfold uniquePush. destruct (JSSet.includes k queue) eqn:Hk; [exact Hnd |].
  apply NoDup_app; [exact Hnd | repeat constructor; intros [] |].
  intros x Hx [<- | []]. apply includes_In in Hx. congruence.
Qed.

(** The keys [aiQueueAdjacentsFromHits] may add: the keys of the unshot
    cells returned by [neighbors4] for the cells of the cluster. *)
Definition adjacentCandidate (userBoard : Board string) (clusterHits : list string)
    (x : string) : Prop :=
  exists hk nb,
    In hk clusterHits /\
    In nb (neighbors4 (r (parseKey hk)) (c (parseKey hk))) /\
    alreadyShot userBoard (coordKey nb) = false /\ x = coordKey nb.

Lemma queueNeighbors_spec (userBoard : Board string) (nbs : list Coord) :
  forall queue,
    let queue' :=
      fold_left (fun queue nb =>
                   if negb (alreadyShot userBoard (coordKey nb))
                   then uniquePush queue (coordKey nb) else queue) nbs queue in
    (forall x, In x queue' <->
               In x queue \/
               exists nb, In nb nbs /\ alreadyShot userBoard (coordKey nb) = false /\
                          x = coordKey nb) /\
    (NoDup queue -> NoDup queue').
Proof.
  induction nbs as [|nb rest IH]; intros queue; cbn [fold_left].
  - split; [| auto]. intros x. split; [now left |].
    intros [Hx | (nb & [] & _)]. exact Hx.
  - cbv zeta in IH.
    destruct (alreadyShot userBoard (coordKey nb)) eqn:Hshot; cbn [negb].
    + destruct (IH queue) as [Hin Hnd]. split; [| exact Hnd].
      intros x. rewrite Hin. split.
      * intros [Hx | (nb' & Hnb' & Hrest)]; [now left |].
        right. exists nb'. split; [now right | exact Hrest].
      * intros [Hx | (nb' & [<- | Hnb'] & Hs & Hx)]; [now left | congruence |].
        right. exists nb'. auto.
    + destruct (IH (uniquePush queue (coordKey nb))) as [Hin Hnd].
      split; [| intros Hq; apply Hnd, uniquePush_NoDup, Hq].
      intros x. rewrite Hin, uniquePush_In. split.
      * intros [[Hx | ->] | (nb' & Hnb' & Hrest)]; [now left | |].
        -- right. exists nb. auto with datatypes.
        -- right. exists nb'. split; [now right | exact Hrest].
      * intros [Hx | (nb' & [<- | Hnb'] & Hs & Hx)]; [now left; left | now left; right |].
        right. exists nb'. auto.
Qed.

Lemma aiQueueAdjacentsFromHits_spec (userBoard : Board string) (clusterHits : list string) :
  forall queue,
    (forall x, In x (aiQueueAdjacentsFromHits userBoard clusterHits queue) <->
               In x queue \/ adjacentCandidate userBoard clusterHits x) /\
    (NoDup queue -> NoDup (aiQueueAdjacentsFromHits userBoard clusterHits queue)).
Proof.
  unfold aiQueueAdjacentsFromHits, adjacentCandidate.
  induction clusterHits as [|hk rest IH]; intros queue; cbn [fold_left].
  - split; [| auto]. intros x. split; [now left |].
    intros [Hx | (hk & nb & [] & _)]. exact Hx.
  - pose proof (queueNeighbors_spec userBoard
                  (neighbors4 (r (parseKey hk)) (c (parseKey hk))) queue) as Hone.
    cbv zeta in Hone. destruct Hone as [Hin1 Hnd1].
    destruct (IH (fold_left
                    (fun queue nb =>
                       if negb (alreadyShot userBoard (coordKey nb))
                       then uniquePush queue (coordKey nb) else queue)
                    (neighbors4 (r (parseKey hk)) (c (parseKey hk))) queue))
      as [Hin Hnd].
    split; [| intros Hq; apply Hnd, Hnd1, Hq].
    intros x. rewrite Hin, Hin1. split.
    + intros [[Hx | (nb & Hnb & Hs & ->)] | (hk' & nb & Hhk & Hrest)].
      * now left.
      * right. exists hk, nb. auto with datatypes.
      * right. exists hk', nb. split; [now right | exact Hrest].
    + intros [Hx | (hk' & nb & [<- | Hhk] & Hnb & Hs & ->)].
      * now left; left.
      * left. right. exists nb. auto.
      * right. exists hk', nb. auto.
Qed.

(** The smallest argument is not above the largest. *)
Lemma Math_min_le_max (x : num) (xs : list num) (a b : Z) :
  Math_min x xs = Int a -> Math_max x xs = Int b -> a <= b.
Proof.
  revert x a b. induction xs as [|y ys IH]; intros x a b; cbn [Math_min Math_max].
  - destruct x; try discriminate. intros Ha Hb. injection Ha as <-. injection Hb as <-. lia.
  - destruct x as [z| |]; try discriminate.
    destruct (Math_min y ys) as [m| |] eqn:Hmin; try discriminate.
    destruct (Math_max y ys) as [M| |] eqn:Hmax; try discriminate.
    intros Ha Hb. injection Ha as <-. injection Hb as <-.
    specialize (IH y m M Hmin Hmax). lia.
Qed.

Lemma pushExtension_In (userBoard : Board string) (p : Coord) (front : list string)
    (x : string) :
  In x (pushExtension userBoard p front) <->
  In x front \/ (x = coordKey p /\ coordInBounds p = true /\
                 alreadyShot userBoard (coordKey p) = false).
Proof.
  unfold pushExtension.
  destruct (coordInBounds p); [| intuition discriminate].
  destruct (alreadyShot userBoard (coordKey p)); cbn [negb]; [intuition discriminate |].
  rewrite in_app_iff. cbn [In]. intuition.
Qed.

(** The two ends pushed in front of the queue are different keys. *)
Lemma extension_front_NoDup (userBoard : Board string) (p q : Coord) :
  (coordInBounds p = true -> coordInBounds q = true -> p <> q) ->
  NoDup (pushExtension userBoard q (pushExtension userBoard p [])).
Proof.
  intros Hne. unfold pushExtension.
  destruct (coordInBounds p) eqn:Hp;
    [destruct (alreadyShot userBoard (coordKey p)); cbn [negb app] |];
    (destruct (coordInBounds q) eqn:Hq;
     [destruct (alreadyShot userBoard (coordKey q)); cbn [negb app] |]);
    repeat constructor; cbn [In]; try tauto.
  intros [Heq | []]. apply (Hne eq_refl eq_refl).
  symmetry. now apply coordKey_inj.
Qed.

Lemma extendLineTargets_spec (userBoard : Board string) (clusterHits : list string)
    (ori : Orientation) (queue queue' : list string) :
  extendLineTargets userBoard clusterHits ori queue = Ok queue' ->
  (forall x, In x queue' ->
             In x queue \/ (In x gridKeys /\ alreadyShot userBoard x = false)) /\
  (forall x, In x queue \/ adjacentCandidate userBoard clusterHits x -> In x queue') /\
  (NoDup queue -> NoDup queue').
Proof.
  unfold extendLineTargets.
  destruct (map parseKey clusterHits) as [|c0 rest]; [discriminate |].
  destruct (aiQueueAdjacentsFromHits_spec userBoard clusterHits queue) as [Hin Hnd].
  set (front := match ori with
                | H => pushExtension userBoard _ (pushExtension userBoard _ [])
                | V => pushExtension userBoard _ (pushExtension userBoard _ [])
                end).
  assert (Hfront : forall x, In x front -> In x gridKeys /\ alreadyShot userBoard x = false).
  { intros x Hx. subst front.
    destruct ori; apply pushExtension_In in Hx as [Hx | (-> & Hb & Hs)];
      try (apply pushExtension_In in Hx as [[] | (-> & Hb & Hs)]);
      split; auto using coordKey_gridKeys. }
  assert (Hfnd : NoDup front).
  { subst front. destruct ori; apply extension_front_NoDup; intros Hp Hq Heq;
      injection Heq as Heq.
    - destruct (Math_min (c c0) (map c rest)) as [m| |] eqn:Hmin;
        destruct (Math_max (c c0) (map c rest)) as [M| |] eqn:Hmax;
        cbn [num_plus] in *;
        try (unfold coordInBounds, inBounds in Hp, Hq; cbn [r c in_range andb] in Hp, Hq;
             rewrite ?andb_false_r in Hp, Hq; discriminate).
      injection Heq as Heq. pose proof (Math_min_le_max _ _ _ _ Hmin Hmax). lia.
    - destruct (Math_min (r c0) (map r rest)) as [m| |] eqn:Hmin;
        destruct (Math_max (r c0) (map r rest)) as [M| |] eqn:Hmax;
        cbn [num_plus] in *;
        try (unfold coordInBounds, inBounds in Hp, Hq; cbn [r c in_range andb] in Hp, Hq;
             rewrite ?andb_false_r in Hp, Hq; discriminate).
      injection Heq as Heq. pose proof (Math_min_le_max _ _ _ _ Hmin Hmax). lia. }
  intros Heq. injection Heq as <-. repeat split.
  - intros x Hx. apply in_app_or in Hx as [Hx | Hx]; [right; now apply Hfront |].
    apply filter_In in Hx as [Hx _]. apply Hin in Hx as [Hx | Hx]; [now left |].
    right. destruct Hx as (hk & nb & _ & Hnb & Hs & ->).
    split; [apply coordKey_gridKeys, (neighbors4_inBounds _ _ _ Hnb) | exact Hs].
  - intros x Hx. apply Hin in Hx.
    destruct (JSSet.includes x front) eqn:Hf.
    + apply in_or_app. left. now apply includes_In.
    + apply in_or_app. right. apply filter_In. split; [exact Hx | now rewrite Hf].
  - intros Hq. apply NoDup_app; [exact Hfnd | apply NoDup_filter, Hnd, Hq |].
    intros x Hx Hx'. apply filter_In in Hx' as [_ Hx'].
    apply includes_In in Hx. rewrite Hx in Hx'. discriminate.
Qed.

(** The search keeps the keys it starts with, and any other key it returns is
    a hit. *)
Lemma clusterLoop_keys (userBoard : Board string) (fuel : nat) :
  forall visited queue cluster,
    clusterLoop fuel userBoard visited queue = Ok cluster ->
    incl (JSSet.elems visited) cluster /\
    (forall x, In x cluster ->
               In x (JSSet.elems visited) \/ JSSet.has (hitCells userBoard) x = true).
Proof.
  induction fuel as [|fuel IH]; intros visited queue cluster;
    destruct queue as [|k queue]; cbn [clusterLoop]; try discriminate;
    try (intros Heq; injection Heq as <-; split; [apply incl_refl | now left]).
  intros Hloop. apply IH in Hloop as [Hkeep Hhit].
  destruct (visitNeighbors_adds userBoard
              (neighbors4 (r (parseKey k)) (c (parseKey k))) visited queue)
    as (added & He & _ & Hadd & _).
  rewrite He in Hkeep, Hhit. split.
  - intros x Hx. apply Hkeep, in_or_app. now left.
  - intros x Hx. apply Hhit in Hx as [Hx | Hx]; [| now right].
    apply in_app_or in Hx as [Hx | Hx]; [now left |].
    right. now destruct (Hadd x Hx) as (_ & _ & _ & Hh).
Qed.

(** X9. What a hit does to the AI state: [aiAfterHit] returns; it leaves the
    AI in TARGET mode with the cluster [recomputeClusterFromHit] finds, which
    holds the key of the hit, and in the queue every key that was queued and
    the key of every unshot neighbour of a cell of the cluster; any key it
    adds is the key of an unshot cell of the grid; and a queue without
    repetition stays without repetition. *)
Theorem aiAfterHit_queue (userBoard : Board string) (st : AiState string) (hitKey : string) :
  exists st',
    aiAfterHit userBoard st hitKey = Ok st' /\
    mode st' = TARGET /\
    recomputeClusterFromHit userBoard hitKey = Ok (clusterHits st') /\
    In hitKey (clusterHits st') /\
    (forall x, In x (targetQueue st) \/ adjacentCandidate userBoard (clusterHits st') x ->
               In x (targetQueue st')) /\
    (forall x, In x (targetQueue st') ->
               In x (targetQueue st) \/
               (In x gridKeys /\ alreadyShot userBoard x = false)) /\
    (NoDup (targetQueue st) -> NoDup (targetQueue st')).
Proof.
  unfold aiAfterHit.
  destruct (recomputeClusterFromHit_returns userBoard hitKey) as [cluster Hrun].
  assert (Hkey : In hitKey cluster).
  { unfold recomputeClusterFromHit in Hrun. apply clusterLoop_keys in Hrun as [Hkeep _].
    apply Hkeep. rewrite JSSet.elems_add. cbn. now left. }
  rewrite Hrun. cbn [bind].
  destruct (aiQueueAdjacentsFromHits_spec userBoard cluster (targetQueue st)) as [Hin Hnd].
  destruct (inferOrientation cluster) as [ori|] eqn:Hori.
  - destruct (extendLineTargets_returns userBoard cluster ori
                (aiQueueAdjacentsFromHits userBoard cluster (targetQueue st))
                (inferOrientation_nonempty _ _ Hori)) as [queue' Hext].
    rewrite Hext. cbn [bind].
    destruct (extendLineTargets_spec _ _ _ _ _ Hext) as (Hfrom & Hto & Hnd').
    eexists. split; [reflexivity |]. cbn [mode clusterHits targetQueue].
    repeat split; try assumption.
    + intros x Hx. apply Hto. left. now apply Hin.
    + intros x Hx. apply Hfrom in Hx as [Hx | Hx]; [| now right].
      apply Hin in Hx as [Hx | (hk & nb & _ & Hnb & Hs & ->)]; [now left |].
      right. split; [apply coordKey_gridKeys, (neighbors4_inBounds _ _ _ Hnb) | exact Hs].
    + intros Hq. apply Hnd', Hnd, Hq.
  - eexists. split; [reflexivity |]. cbn [mode clusterHits targetQueue].
    repeat split; try assumption.
    + intros x Hx. now apply Hin.
    + intros x Hx. apply Hin in Hx as [Hx | (hk & nb & _ & Hnb & Hs & ->)]; [now left |].
      right. split; [apply coordKey_gridKeys, (neighbors4_inBounds _ _ _ Hnb) | exact Hs].
Qed.

(** ** What the handlers leave alone *)

Lemma onUserFireAtAI_frame (g g' : GameState) (r c : num) :
  onUserFireAtAI g r c = Ok g' ->
  userBoard g' = userBoard g /\ aiState g' = aiState g /\ aiShots g' = aiShots g /\
  shipCells (aiBoard g') = shipCells (aiBoard g).
Proof.
  unfold onUserFireAtAI.
  destruct (gameOver g); [intros Heq; injection Heq as <-; auto |].
  destruct (currentTurn g); [| intros Heq; injection Heq as <-; auto].
  destruct (applyShot_step (aiBoard g) r c) as (Hships & _).
  destruct (applyShot (aiBoard g) r c) as [[shot| |] board]; cbn [bind snd] in *;
    try discriminate.
  destruct shot as [|[|] key].
  - intros Heq. injection Heq as <-. auto.
  - cbn [aiBoard]. destruct (hasWon board); intros Heq; injection Heq as <-;
      unfold endGame; cbn; auto.
  - intros Heq. injection Heq as <-. cbn. auto.
Qed.

Lemma aiTakeTurnLoop_frame (g g' : GameState) (k : sample) :
  aiTakeTurnLoop g k = Ok g' ->
  aiBoard g' = aiBoard g /\ userShots g' = userShots g /\
  shipCells (userBoard g') = shipCells (userBoard g).
Proof.
  unfold aiTakeTurnLoop.
  destruct (gameOver g); [intros Heq; injection Heq as <-; auto |].
  destruct (currentTurn g); [intros Heq; injection Heq as <-; auto |].
  destruct (aiDecideNextShot (userBoard g) (aiState g) k) as [[p|] st]; [| discriminate].
  destruct (applyShot_step (userBoard g) (r p) (c p)) as (Hships & _).
  destruct (applyShot (userBoard g) (r p) (c p)) as [[shot| |] board]; cbn [bind snd] in *;
    try discriminate.
  destruct shot as [|[|] key].
  - intros Heq. injection Heq as <-. auto.
  - destruct (aiAfterHit board st key) as [st'| |]; cbn [bind]; try discriminate.
    cbn [userBoard]. destruct (hasWon board); intros Heq; injection Heq as <-;
      unfold endGame; cbn; auto.
  - intros Heq. injection Heq as <-. cbn. auto.
Qed.

(** X10. Commands out of place are ignored, and each side only writes its
    own part: a click when the game is over, when it is the AI's turn, or on a
    cell already shot returns with nothing changed, and so does a run of
    [aiTakeTurnLoop] when the game is over or it is the user's turn; a click
    never changes the user's board, the AI state or the AI's tally, a run of
    [aiTakeTurnLoop] never changes the AI's board or the user's tally, and
    neither ever changes a ship cell. *)
Theorem handlers_frame (g : GameState) :
  (forall r c, gameOver g = true \/ currentTurn g = AI \/
               alreadyShot (aiBoard g) (keyOf r c) = true ->
               onUserFireAtAI g r c = Ok g) /\
  (forall k, gameOver g = true \/ currentTurn g = USER -> aiTakeTurnLoop g k = Ok g) /\
  (forall r c g', onUserFireAtAI g r c = Ok g' ->
     userBoard g' = userBoard g /\ aiState g' = aiState g /\ aiShots g' = aiShots g /\
     shipCells (aiBoard g') = shipCells (aiBoard g)) /\
  (forall k g', aiTakeTurnLoop g k = Ok g' ->
     aiBoard g' = aiBoard g /\ userShots g' = userShots g /\
     shipCells (userBoard g') = shipCells (userBoard g)).
Proof.
  split; [| split; [| split]].
  - intros r c Hwhy. unfold onUserFireAtAI.
    destruct (gameOver g); [reflexivity |].
    destruct (currentTurn g); [| reflexivity].
    destruct Hwhy as [Hover | [Hturn | Hshot]]; try discriminate.
    now rewrite (applyShot_refused _ _ _ Hshot).
  - intros k Hwhy. unfold aiTakeTurnLoop.
    destruct (gameOver g); [reflexivity |].
    destruct (currentTurn g); [reflexivity |].
    destruct Hwhy as [Hover | Hturn]; discriminate.
  - intros r c g'. apply onUserFireAtAI_frame.
  - intros k g'. apply aiTakeTurnLoop_frame.
Qed.

(** ** The AI state of a reachable game *)

(** The queue holds each key once; in HUNT mode queue and cluster are empty;
    in TARGET mode the cluster is not empty; the keys of the cluster are hits
    of the user's board. *)
Definition aiStateSound (g : GameState) : Prop :=
  NoDup (targetQueue (aiState g)) /\
  (mode (aiState g) = HUNT ->
   targetQueue (aiState g) = [] /\ clusterHits (aiState g) = []) /\
  (mode (aiState g) = TARGET -> clusterHits (aiState g) <> []) /\
  (forall k, In k (clusterHits (aiState g)) ->
             JSSet.has (hitCells (userBoard g)) k = true).

Lemma applyShot_hit (board board' : Board string) (r c : num) (key : string) :
  applyShot board r c = (Ok (Valid true key), board') ->
  key = keyOf r c /\ JSSet.has (hitCells board') key = true.
Proof.
  unfold applyShot. destruct (alreadyShot board (keyOf r c)); [discriminate |].
  destruct (markCell r c); cbn [bind]; try discriminate.
  destruct (JSSet.has (shipCells board) (keyOf r c)); [| discriminate].
  intros Heq. injection Heq as <- <-. split; [reflexivity |].
  cbn [hitCells]. now rewrite has_add, String.eqb_refl, orb_true_r.
Qed.

(** What [aiDecideNextShot] leaves of a sound AI state. *)
Lemma aiDecideNextShot_sound (userBoard : Board string) (st st' : AiState string)
    (k : sample) (o : option Coord) :
  NoDup (targetQueue st) ->
  (mode st = HUNT -> targetQueue st = [] /\ clusterHits st = []) ->
  (mode st = TARGET -> clusterHits st <> []) ->
  aiDecideNextShot userBoard st k = (o, st') ->
  NoDup (targetQueue st') /\
  (mode st' = HUNT -> targetQueue st' = [] /\ clusterHits st' = []) /\
  (mode st' = TARGET -> clusterHits st' <> []) /\
  incl (clusterHits st') (clusterHits st).
Proof.
  intros Hnd Hhunt Htarget. unfold aiDecideNextShot.
  destruct (mode st) eqn:Hmode.
  - intros Heq. injection Heq as _ <-. rewrite Hmode.
    repeat split; auto using incl_refl; try discriminate; now apply Hhunt.
  - pose proof (aiChooseTargetModeCell_pops userBoard (targetQueue st)) as Hpop.
    destruct (aiChooseTargetModeCell userBoard (targetQueue st)) as [[t|] rest];
      intros Heq; injection Heq as _ <-; cbn [mode targetQueue clusterHits].
    + destruct Hpop as (shot & key & Hq & _).
      rewrite Hq in Hnd. apply NoDup_app_remove_l in Hnd. apply NoDup_cons_iff in Hnd as [_ Hnd].
      repeat split; auto using incl_refl; try discriminate.
    + destruct Hpop as [-> _].
      repeat split; auto using incl_nil_l; try constructor; try discriminate.
Qed.

Lemma onUserFireAtAI_aiStateSound (g g' : GameState) (r c : num) :
  aiStateSound g -> onUserFireAtAI g r c = Ok g' -> aiStateSound g'.
Proof.
  intros Hs Hstep. apply onUserFireAtAI_frame in Hstep as (Hb & Hst & _).
  unfold aiStateSound. now rewrite Hst, Hb.
Qed.

(** The state a hit leaves, when [aiAfterHit] returns one. *)
Lemma aiAfterHit_state (userBoard : Board string) (st st' : AiState string)
    (hitKey : string) :
  aiAfterHit userBoard st hitKey = Ok st' ->
  mode st' = TARGET /\
  recomputeClusterFromHit userBoard hitKey = Ok (clusterHits st') /\
  (NoDup (targetQueue st) -> NoDup (targetQueue st')).
Proof.
  unfold aiAfterHit.
  destruct (recomputeClusterFromHit userBoard hitKey) as [cluster| |]; cbn [bind];
    try discriminate.
  destruct (aiQueueAdjacentsFromHits_spec userBoard cluster (targetQueue st)) as [_ Hnd].
  destruct (inferOrientation cluster) as [ori|].
  - destruct (extendLineTargets userBoard cluster ori _) as [queue'| |] eqn:Hext;
      cbn [bind]; try discriminate.
    apply extendLineTargets_spec in Hext as (_ & _ & Hnd').
    intros Heq. injection Heq as <-. cbn [mode clusterHits targetQueue]. auto.
  - intros Heq. injection Heq as <-. cbn [mode clusterHits targetQueue]. auto.
Qed.

(** Splits a goal into its conjuncts, and no further. *)
Ltac conjuncts := repeat match goal with |- _ /\ _ => split end.

Lemma aiTakeTurnLoop_aiStateSound (g g' : GameState) (k : sample) :
  aiStateSound g -> aiTakeTurnLoop g k = Ok g' -> aiStateSound g'.
Proof.
  intros Hs. pose proof Hs as (Hnd & Hhunt & Htarget & Hhits). unfold aiTakeTurnLoop.
  destruct (gameOver g); [intros Heq; injection Heq as <-; exact Hs |].
  destruct (currentTurn g); [intros Heq; injection Heq as <-; exact Hs |].
  destruct (aiDecideNextShot (userBoard g) (aiState g) k) as [[p|] st] eqn:Hdec;
    [| discriminate].
  destruct (aiDecideNextShot_sound _ _ _ _ _ Hnd Hhunt Htarget Hdec)
    as (Hnd' & Hhunt' & Htarget' & Hsub).
  destruct (applyShot_step (userBoard g) (r p) (c p)) as (_ & Hkept & _).
  destruct (applyShot (userBoard g) (r p) (c p)) as [[shot| |] board] eqn:Hshot;
    cbn [bind snd] in *; try discriminate.
  destruct shot as [|[|] key].
  - intros Heq. injection Heq as <-. unfold aiStateSound. cbn [aiState userBoard].
    conjuncts; auto.
  - apply applyShot_hit in Hshot as [_ Hkey].
    destruct (aiAfterHit board st key) as [st'| |] eqn:Hafter; cbn [bind userBoard];
      try discriminate.
    apply aiAfterHit_state in Hafter as (Hmode & Hrun & Hnd'').
    assert (Hin : In key (clusterHits st')).
    { unfold recomputeClusterFromHit in Hrun. apply clusterLoop_keys in Hrun as [Hkeep _].
      apply Hkeep. rewrite JSSet.elems_add. cbn. now left. }
    assert (Hsound : aiStateSound
                       (mkGame board (aiBoard g) (currentTurn g) (gameOver g)
                               (userShots g) (hitsPlusPlus (aiShots g)) st')).
    { unfold aiStateSound. cbn [aiState userBoard]. conjuncts.
      - now apply Hnd''.
      - rewrite Hmode. discriminate.
      - intros _ Hnil. rewrite Hnil in Hin. destruct Hin.
      - intros x Hx. unfold recomputeClusterFromHit in Hrun.
        apply clusterLoop_keys in Hrun as [_ Hfrom].
        apply Hfrom in Hx as [Hx | Hx]; [| exact Hx].
        rewrite JSSet.elems_add in Hx. cbn in Hx. destruct Hx as [<- | []]. exact Hkey. }
    destruct (hasWon board); intros Heq; injection Heq as <-; exact Hsound.
  - intros Heq. injection Heq as <-. unfold aiStateSound. cbn [aiState userBoard].
    unfold aiAfterMiss. destruct (targetQueue st) eqn:Hq; cbn [mode targetQueue clusterHits].
    + conjuncts; try constructor; try discriminate; auto.
    + rewrite Hq. conjuncts; auto.
Qed.

Lemma resetGame_aiState (fuel : nat) (random : nat -> sample) (g : GameState) :
  resetGame fuel random = Ok g ->
  aiState g = mkAiState HUNT [] [] /\ currentTurn g = USER /\ gameOver g = false /\
  userShots g = mkShots 0 0 /\ aiShots g = mkShots 0 0.
Proof.
  unfold resetGame.
  destruct (placeAllShipsRandomly fuel random 0 createEmptyBoard) as [up| |];
    cbn [bind]; try discriminate.
  destruct (placeAllShipsRandomly fuel random (snd up) createEmptyBoard) as [ap| |];
    cbn [bind]; try discriminate.
  intros Heq. injection Heq as <-. cbn. auto.
Qed.

(** X11. The AI state of a game: in every state a game reaches the queue of
    targets holds no key twice and only keys of grid cells; in HUNT mode the
    queue and the cluster are empty; in TARGET mode the cluster is not empty;
    and every key of the cluster is a hit of the user's board. *)
Theorem reachable_aiState (g : GameState) (Hreach : reachable g) :
  NoDup (targetQueue (aiState g)) /\
  incl (targetQueue (aiState g)) gridKeys /\
  (mode (aiState g) = HUNT ->
   targetQueue (aiState g) = [] /\ clusterHits (aiState g) = []) /\
  (mode (aiState g) = TARGET -> clusterHits (aiState g) <> []) /\
  (forall k, In k (clusterHits (aiState g)) ->
             JSSet.has (hitCells (userBoard g)) k = true).
Proof.
  destruct (reachable_keysOnGrid g Hreach) as (_ & _ & Hgrid).
  assert (Hsound : aiStateSound g).
  { clear Hgrid.
    induction Hreach as [fuel random g Hreset | g g' r c _ IH Hin Hstep | g g' k _ IH Hstep].
    - apply resetGame_aiState in Hreset as (Hst & _). unfold aiStateSound. rewrite Hst.
      cbn [mode targetQueue clusterHits].
      conjuncts; try constructor; try discriminate; auto.
    - exact (onUserFireAtAI_aiStateSound g g' r c IH Hstep).
    - exact (aiTakeTurnLoop_aiStateSound g g' k IH Hstep). }
  destruct Hsound as (Hnd & Hhunt & Htarget & Hhits).
  conjuncts; assumption.
Qed.

Lemma reachable_aiState_witness :
  NoDup (targetQueue (aiState demoState)) /\
  incl (targetQueue (aiState demoState)) gridKeys /\
  (mode (aiState demoState) = HUNT ->
   targetQueue (aiState demoState) = [] /\ clusterHits (aiState demoState) = []) /\
  (mode (aiState demoState) = TARGET -> clusterHits (aiState demoState) <> []) /\
  (forall k, In k (clusterHits (aiState demoState)) ->
             JSSet.has (hitCells (userBoard demoState)) k = true).
Proof.
  apply (reachable_aiState demoState).
  apply demoGame_reachable. vm_compute. reflexivity.
Defined.

(** ** The tallies and the end of a game *)

(** What [setStatsUI] would count on a board: its hits and its misses. *)
Definition tally (board : Board string) : Shots :=
  mkShots (JSSet.size (hitCells board)) (JSSet.size (missCells board)).

Definition fleetSound (board : Board string) : Prop :=
  hitMissDisjoint board /\ hitsAreShips board /\
  JSSet.size (shipCells board) = fold_right Z.add 0 SHIPS.

(** The tallies are the sizes of the sets of the board fired at; no board is
    won while the game goes on; and when the game is over the side that holds
    the turn has won and the other side has not. *)
Definition scoreSound (g : GameState) : Prop :=
  fleetSound (userBoard g) /\ fleetSound (aiBoard g) /\
  userShots g = tally (aiBoard g) /\ aiShots g = tally (userBoard g) /\
  (gameOver g = false -> hasWon (aiBoard g) = false /\ hasWon (userBoard g) = false) /\
  (gameOver g = true ->
   (currentTurn g = USER /\ hasWon (aiBoard g) = true /\ hasWon (userBoard g) = false) \/
   (currentTurn g = AI /\ hasWon (userBoard g) = true /\ hasWon (aiBoard g) = false)).

Lemma applyShot_tally (board : Board string) (r c : num) (isHit : bool) (key : string) :
  fst (applyShot board r c) = Ok (Valid isHit key) ->
  tally (snd (applyShot board r c)) =
    if isHit then hitsPlusPlus (tally board) else missesPlusPlus (tally board).
Proof.
  unfold applyShot. destruct (alreadyShot board (keyOf r c)) eqn:Hshot; [discriminate |].
  apply orb_false_iff in Hshot as [Hhit Hmiss].
  cbn [fst snd]. destruct (markCell r c); cbn [bind]; try discriminate.
  intros Heq. injection Heq as <- _.
  destruct (JSSet.has (shipCells board) (keyOf r c));
    unfold tally, hitsPlusPlus, missesPlusPlus; cbn [hitCells missCells hits misses];
    now rewrite size_add_new.
Qed.

Lemma applyShot_fleetSound (board : Board string) (r c : num) :
  fleetSound board -> fleetSound (snd (applyShot board r c)).
Proof.
  intros (Hd & Hs & Hn).
  destruct (applyShot_step board r c) as (Hships & _ & _ & Hd' & Hs').
  unfold fleetSound. rewrite Hships. auto.
Qed.

Lemma resetGame_scoreSound (fuel : nat) (random : nat -> sample) (g : GameState) :
  resetGame fuel random = Ok g -> scoreSound g.
Proof.
  unfold resetGame, placeAllShipsRandomly.
  destruct (placeShips fuel random 0 createEmptyBoard SHIPS) as [[ub p1]| |] eqn:Hu;
    cbn [bind fst snd]; try discriminate.
  destruct (placeShips fuel random p1 createEmptyBoard SHIPS) as [[ab p2]| |] eqn:Ha;
    cbn [bind fst snd]; try discriminate.
  intros Heq. injection Heq as <-.
  pose proof (placeShips_size fuel random SHIPS SHIPS_fit _ _ _ _ Hu) as Hsu.
  pose proof (placeShips_size fuel random SHIPS SHIPS_fit _ _ _ _ Ha) as Hsa.
  apply placeShips_shots in Hu as [Huh Hum]. apply placeShips_shots in Ha as [Hah Ham].
  change (JSSet.size (shipCells createEmptyBoard)) with 0 in Hsu, Hsa.
  assert (Hfresh : forall b : Board string,
             hitCells b = hitCells createEmptyBoard ->
             missCells b = missCells createEmptyBoard ->
             JSSet.size (shipCells b) = 0 + fold_right Z.add 0 SHIPS ->
             fleetSound b /\ tally b = mkShots 0 0 /\ hasWon b = false).
  { intros b Hh Hm Hn. unfold fleetSound, hitMissDisjoint, hitsAreShips, tally, hasWon.
    rewrite Hh, Hm, Hn. cbn [createEmptyBoard hitCells missCells].
    repeat split; try discriminate. }
  destruct (Hfresh ub Huh Hum Hsu) as (Hfu & Htu & Hwu).
  destruct (Hfresh ab Hah Ham Hsa) as (Hfa & Hta & Hwa).
  unfold scoreSound.
  cbn [userBoard aiBoard userShots aiShots gameOver currentTurn].
  conjuncts; auto. discriminate.
Qed.

Lemma onUserFireAtAI_scoreSound (g g' : GameState) (r c : num) :
  scoreSound g -> onUserFireAtAI g r c = Ok g' -> scoreSound g'.
Proof.
  intros Hs. pose proof Hs as (Hu & Ha & Htu & Hta & Hlive & _). unfold onUserFireAtAI.
  destruct (gameOver g) eqn:Hover; [intros Heq; injection Heq as <-; exact Hs |].
  destruct (currentTurn g) eqn:Hturn; [| intros Heq; injection Heq as <-; exact Hs].
  destruct (Hlive eq_refl) as [Hwa Hwu].
  pose proof (applyShot_fleetSound (aiBoard g) r c Ha) as Ha'.
  pose proof (applyShot_tally (aiBoard g) r c) as Htally.
  pose proof (applyShot_result (aiBoard g) r c) as Hres.
  destruct (applyShot (aiBoard g) r c) as [[shot| |] board];
    cbn [bind fst snd] in *; try discriminate.
  destruct shot as [|[|] key].
  - intros Heq. injection Heq as <-. exact Hs.
  - specialize (Htally true key eq_refl). cbn [aiBoard].
    destruct (hasWon board) eqn:Hwon; intros Heq; injection Heq as <-;
      unfold scoreSound, endGame;
      cbn [userBoard aiBoard userShots aiShots gameOver currentTurn];
      rewrite ?Hover, ?Hturn, Htally, Htu; conjuncts; auto; try discriminate.
  - specialize (Htally false key eq_refl).
    destruct (Hres false key eq_refl) as [_ Hsame]. specialize (Hsame eq_refl).
    intros Heq. injection Heq as <-. unfold scoreSound.
    cbn [userBoard aiBoard userShots aiShots gameOver currentTurn].
    rewrite ?Hover, Htally, Htu, Hsame. conjuncts; auto; discriminate.
Qed.

Lemma aiTakeTurnLoop_scoreSound (g g' : GameState) (k : sample) :
  scoreSound g -> aiTakeTurnLoop g k = Ok g' -> scoreSound g'.
Proof.
  intros Hs. pose proof Hs as (Hu & Ha & Htu & Hta & Hlive & _). unfold aiTakeTurnLoop.
  destruct (gameOver g) eqn:Hover; [intros Heq; injection Heq as <-; exact Hs |].
  destruct (currentTurn g) eqn:Hturn; [intros Heq; injection Heq as <-; exact Hs |].
  destruct (Hlive eq_refl) as [Hwa Hwu].
  destruct (aiDecideNextShot (userBoard g) (aiState g) k) as [[p|] st]; [| discriminate].
  pose proof (applyShot_fleetSound (userBoard g) (r p) (c p) Hu) as Hu'.
  pose proof (applyShot_tally (userBoard g) (r p) (c p)) as Htally.
  pose proof (applyShot_result (userBoard g) (r p) (c p)) as Hres.
  destruct (applyShot_step (userBoard g) (r p) (c p)) as (_ & Hkh & Hkm & _).
  destruct (applyShot (userBoard g) (r p) (c p)) as [[shot| |] board] eqn:Hshot;
    cbn [bind fst snd] in *; try discriminate.
  destruct shot as [|[|] key].
  - apply (f_equal snd) in Hshot. cbn [snd] in Hshot.
    intros Heq. injection Heq as <-. unfold scoreSound.
    cbn [userBoard aiBoard userShots aiShots gameOver currentTurn].
    rewrite ?Hover. conjuncts; auto; discriminate.
  - specialize (Htally true key eq_refl).
    destruct (aiAfterHit board st key) as [st'| |]; cbn [bind]; try discriminate.
    cbn [userBoard].
    destruct (hasWon board) eqn:Hwon; intros Heq; injection Heq as <-;
      unfold scoreSound, endGame;
      cbn [userBoard aiBoard userShots aiShots gameOver currentTurn];
      rewrite ?Hover, ?Hturn, Htally, Hta; conjuncts; auto; try discriminate.
  - specialize (Htally false key eq_refl).
    destruct (Hres false key eq_refl) as [_ Hsame]. specialize (Hsame eq_refl).
    intros Heq. injection Heq as <-. unfold scoreSound.
    cbn [userBoard aiBoard userShots aiShots gameOver currentTurn].
    rewrite ?Hover, Htally, Hta, Hsame. conjuncts; auto; discriminate.
Qed.

Lemma reachable_scoreSound (g : GameState) : reachable g -> scoreSound g.
Proof.
  induction 1 as [fuel random g Hreset | g g' r c _ IH Hin Hstep | g g' k _ IH Hstep].
  - exact (resetGame_scoreSound fuel random g Hreset).
  - exact (onUserFireAtAI_scoreSound g g' r c IH Hstep).
  - exact (aiTakeTurnLoop_scoreSound g g' k IH Hstep).
Qed.

Lemma gridKeys_length : List.length gridKeys = 100%nat.
Proof. vm_compute. reflexivity. Qed.

(** On a board whose shots are on the grid there are at most as many hits as
    ship cells and at most as many shots as cells. *)
Lemma tally_bounds (board : Board string) :
  shotsOnGrid board -> fleetSound board ->
  0 <= hits (tally board) <= fold_right Z.add 0 SHIPS /\
  0 <= misses (tally board) /\
  hits (tally board) + misses (tally board) <= GRID_SIZE * GRID_SIZE.
Proof.
  intros [Hh Hm] (Hd & Hs & Hn). unfold tally. cbn [hits misses].
  rewrite <- Hn. unfold JSSet.size.
  assert (Hle : (List.length (JSSet.elems (hitCells board))
                 <= List.length (JSSet.elems (shipCells board)))%nat).
  { apply NoDup_incl_length; [apply elems_NoDup |].
    intros x Hx. now apply has_In, Hs, has_In. }
  assert (Hall : (List.length (JSSet.elems (hitCells board) ++ JSSet.elems (missCells board))
                  <= List.length gridKeys)%nat).
  { apply NoDup_incl_length; [| now apply incl_app].
    apply NoDup_app; [apply elems_NoDup | apply elems_NoDup |].
    intros x Hx Hx'. apply has_In in Hx, Hx'. apply Hd in Hx. congruence. }
  rewrite length_app, gridKeys_length in Hall. unfold GRID_SIZE. lia.
Qed.

(** X12. The tallies of a game: in every state a game reaches, each side's
    tally holds the numbers of hit and of miss cells of the board that side
    fires at; so a side has at most 10 hits and, hits and misses together, at
    most 100 shots. *)
Theorem reachable_tallies (g : GameState) (Hreach : reachable g) :
  hits (userShots g) = JSSet.size (hitCells (aiBoard g)) /\
  misses (userShots g) = JSSet.size (missCells (aiBoard g)) /\
  hits (aiShots g) = JSSet.size (hitCells (userBoard g)) /\
  misses (aiShots g) = JSSet.size (missCells (userBoard g)) /\
  0 <= hits (userShots g) <= 10 /\ 0 <= misses (userShots g) /\
  hits (userShots g) + misses (userShots g) <= 100 /\
  0 <= hits (aiShots g) <= 10 /\ 0 <= misses (aiShots g) /\
  hits (aiShots g) + misses (aiShots g) <= 100.
Proof.
  destruct (reachable_keysOnGrid g Hreach) as (Hgu & Hga & _).
  destruct (reachable_scoreSound g Hreach) as (Hu & Ha & Htu & Hta & _).
  pose proof (tally_bounds (aiBoard g) Hga Ha) as Hba.
  pose proof (tally_bounds (userBoard g) Hgu Hu) as Hbu.
  change (fold_right Z.add 0 SHIPS) with 10 in Hba, Hbu.
  change (GRID_SIZE * GRID_SIZE) with 100 in Hba, Hbu.
  rewrite Htu, Hta. cbn [tally hits misses] in *. lia.
Qed.

Lemma reachable_tallies_witness :
  hits (userShots demoState) = JSSet.size (hitCells (aiBoard demoState)) /\
  misses (userShots demoState) = JSSet.size (missCells (aiBoard demoState)) /\
  hits (aiShots demoState) = JSSet.size (hitCells (userBoard demoState)) /\
  misses (aiShots demoState) = JSSet.size (missCells (userBoard demoState)) /\
  0 <= hits (userShots demoState) <= 10 /\ 0 <= misses (userShots demoState) /\
  hits (userShots demoState) + misses (userShots demoState) <= 100 /\
  0 <= hits (aiShots demoState) <= 10 /\ 0 <= misses (aiShots demoState) /\
  hits (aiShots demoState) + misses (aiShots demoState) <= 100.
Proof.
  apply (reachable_tallies demoState).
  apply demoGame_reachable. vm_compute. reflexivity.
Defined.

(** X13. The end of a game: in every state a game reaches, the game is over
    exactly when one of the two boards is won, which is when a side's tally
    shows 10 hits; the side whose shots won holds the turn, and the two boards
    are never both won. *)
Theorem reachable_gameOver (g : GameState) (Hreach : reachable g) :
  (gameOver g = true <-> hasWon (aiBoard g) = true \/ hasWon (userBoard g) = true) /\
  (hasWon (aiBoard g) = true -> currentTurn g = USER /\ hasWon (userBoard g) = false) /\
  (hasWon (userBoard g) = true -> currentTurn g = AI /\ hasWon (aiBoard g) = false) /\
  (hasWon (aiBoard g) = true <-> hits (userShots g) = 10) /\
  (hasWon (userBoard g) = true <-> hits (aiShots g) = 10).
Proof.
  destruct (reachable_scoreSound g Hreach)
    as ((_ & _ & Hnu) & (_ & _ & Hna) & Htu & Hta & Hlive & Hover).
  change (fold_right Z.add 0 SHIPS) with 10 in Hnu, Hna.
  assert (Hwa : hasWon (aiBoard g) = true <-> hits (userShots g) = 10).
  { rewrite Htu. unfold hasWon, tally. cbn [hits]. rewrite Hna. apply Z.eqb_eq. }
  assert (Hwu : hasWon (userBoard g) = true <-> hits (aiShots g) = 10).
  { rewrite Hta. unfold hasWon, tally. cbn [hits]. rewrite Hnu. apply Z.eqb_eq. }
  split; [| split; [| split; [| split]]]; try assumption.
  - split.
    + intros Hg. destruct (Hover Hg) as [(_ & Hw & _) | (_ & Hw & _)]; auto.
    + intros Hw. destruct (gameOver g); [reflexivity |].
      destruct (Hlive eq_refl) as [H1 H2]. rewrite H1, H2 in Hw.
      destruct Hw; discriminate.
  - intros Hw. destruct (gameOver g) eqn:Hg.
    + destruct (Hover eq_refl) as [(Ht & _ & Hl) | (_ & _ & Hl)]; [now split | congruence].
    + destruct (Hlive eq_refl) as [H1 _]. congruence.
  - intros Hw. destruct (gameOver g) eqn:Hg.
    + destruct (Hover eq_refl) as [(_ & _ & Hl) | (Ht & _ & Hl)]; [congruence | now split].
    + destruct (Hlive eq_refl) as [_ H2]. congruence.
Qed.

Lemma reachable_gameOver_witness :
  (gameOver demoState = true <->
   hasWon (aiBoard demoState) = true \/ hasWon (userBoard demoState) = true) /\
  (hasWon (aiBoard demoState) = true ->
   currentTurn demoState = USER /\ hasWon (userBoard demoState) = false) /\
  (hasWon (userBoard demoState) = true ->
   currentTurn demoState = AI /\ hasWon (aiBoard demoState) = false) /\
  (hasWon (aiBoard demoState) = true <-> hits (userShots demoState) = 10) /\
  (hasWon (userBoard demoState) = true <-> hits (aiShots demoState) = 10).
Proof.
  apply (reachable_gameOver demoState).
  apply demoGame_reachable. vm_compute. reflexivity.
Defined.

(** ** The shape of the fleet *)

(** The cell below [p] and the cell to the right of [p]. *)
Definition below (p : Coord) : Coord := mkCoord (num_plus (r p) 1) (c p).
Definition rightOf (p : Coord) : Coord := mkCoord (r p) (num_plus (c p) 1).

(** Each cell of the list is [step] of the cell before it. *)
Inductive chain (step : Coord -> Coord) : list Coord -> Prop :=
| chain_nil : chain step []
| chain_one (p : Coord) : chain step [p]
| chain_next (p : Coord) (rest : list Coord) :
    chain step (step p :: rest) -> chain step (p :: step p :: rest).

(** [keys] are the keys of [length] cells of the grid in a straight line:
    each cell is the one below the cell before it, or each cell is the one
    to the right of the cell before it. *)
Definition isRun (length : Z) (keys : list string) : Prop :=
  exists cells,
    keys = map coordKey cells /\
    Z.of_nat (List.length cells) = length /\
    Forall (fun p => coordInBounds p = true) cells /\
    (chain below cells \/ chain rightOf cells).

(** The ship cells are a run of 5, then a run of 3, then a run of 2, and no
    cell is in two of them. *)
Definition isFleet (board : Board string) : Prop :=
  exists s5 s3 s2,
    isRun 5 s5 /\ isRun 3 s3 /\ isRun 2 s2 /\
    JSSet.to_array (shipCells board) = s5 ++ s3 ++ s2 /\
    NoDup (s5 ++ s3 ++ s2).

Lemma runCell_chain (vertical : bool) (startR startC : Z) (n : nat) :
  forall i : nat,
    chain (if vertical then below else rightOf)
          (map (runCell vertical startR startC) (map Z.of_nat (seq i n))).
Proof.
  induction n as [|n IH]; intros i; cbn [seq map]; [constructor |].
  specialize (IH (S i)). destruct n as [|n]; cbn [seq map] in *; [constructor |].
  assert (Hstep : runCell vertical startR startC (Z.of_nat (S i))
                  = (if vertical then below else rightOf)
                      (runCell vertical startR startC (Z.of_nat i))).
  { unfold runCell, below, rightOf. destruct vertical; cbn [r c num_plus];
      do 2 f_equal; lia. }
  rewrite Hstep in *. now constructor.
Qed.

Lemma candidateKeys_isRun (vertical : bool) (startR startC length : Z) :
  0 <= length -> runOnGrid vertical startR startC length ->
  isRun length (candidateKeys vertical startR startC length).
Proof.
  intros Hlen (Ha & Hb & Hfit).
  exists (map (runCell vertical startR startC) (map Z.of_nat (seq 0 (Z.to_nat length)))).
  split; [| split; [| split]].
  - unfold candidateKeys. rewrite (map_map (runCell vertical startR startC) coordKey).
    apply map_ext. intros i. unfold runCell. now destruct vertical.
  - rewrite !length_map, length_seq. lia.
  - apply Forall_forall. intros p Hp.
    apply in_map_iff in Hp as (i & <- & Hi). apply in_map_iff in Hi as (n & <- & Hn).
    apply in_seq in Hn. unfold runCell, coordInBounds, inBounds, in_range.
    destruct vertical; cbn [r c]; destruct Hfit as [Hfit1 Hfit2];
      apply andb_true_iff; split; apply andb_true_iff; split; lia.
  - pose proof (runCell_chain vertical startR startC (Z.to_nat length) 0) as Hchain.
    destruct vertical; [now left | now right].
Qed.

Lemma drawCandidate_isRun (length : Z) (k1 k2 k3 : sample) :
  1 <= length <= GRID_SIZE -> isRun length (drawCandidate length k1 k2 k3).
Proof.
  intros Hlen.
  destruct (drawCandidate_start length k1 k2 k3 ltac:(lia)) as (v & a & b & Hrun & ->).
  apply candidateKeys_isRun; [lia | exact Hrun].
Qed.

(** Keys that are new and pairwise different are added in their order. *)
Lemma elems_addAll (keys : list string) :
  NoDup keys ->
  forall s, (forall k, In k keys -> JSSet.has s k = false) ->
            JSSet.elems (addAll keys s) = JSSet.elems s ++ keys.
Proof.
  unfold addAll. induction 1 as [|k rest Hk Hnd IH]; intros s Hnew; cbn [fold_left].
  - now rewrite app_nil_r.
  - rewrite IH.
    + rewrite JSSet.elems_add, (Hnew k (or_introl eq_refl)), <- app_assoc. reflexivity.
    + intros x Hx. rewrite has_add, (Hnew x (or_intror Hx)). cbn [orb].
      apply String.eqb_neq. intros ->. contradiction.
Qed.

Lemma placeOneShipRandomly_run (fuel : nat) (random : nat -> sample) (length : Z) :
  1 <= length <= GRID_SIZE ->
  forall pos board board' pos',
    placeOneShipRandomly fuel random pos board length = Ok (board', pos') ->
    exists run,
      isRun length run /\
      JSSet.elems (shipCells board') = JSSet.elems (shipCells board) ++ run.
Proof.
  intros Hlen. induction fuel as [|fuel IH]; intros pos board board' pos';
    cbn [placeOneShipRandomly]; [discriminate |].
  destruct (existsb _ _) eqn:Hover; [apply IH |].
  intros Heq. injection Heq as <- _. cbn [shipCells].
  exists (drawCandidate length (random pos) (random (S pos)) (random (S (S pos)))).
  split; [now apply drawCandidate_isRun |].
  apply elems_addAll; [apply drawCandidate_NoDup; lia |].
  intros k Hk. destruct (JSSet.has (shipCells board) k) eqn:Hhas; [| reflexivity].
  assert (Hyes : existsb (fun k => JSSet.has (shipCells board) k)
                   (drawCandidate length (random pos) (random (S pos)) (random (S (S pos))))
                 = true) by (apply existsb_exists; eauto).
  congruence.
Qed.

Lemma placeShips_runs (fuel : nat) (random : nat -> sample) (lengths : list Z) :
  (forall length, In length lengths -> 1 <= length <= GRID_SIZE) ->
  forall pos board board' pos',
    placeShips fuel random pos board lengths = Ok (board', pos') ->
    exists runs,
      Forall2 isRun lengths runs /\
      JSSet.elems (shipCells board') = JSSet.elems (shipCells board) ++ List.concat runs.
Proof.
  induction lengths as [|length rest IH]; intros Hlens pos board board' pos';
    cbn [placeShips].
  - intros Heq. injection Heq as <- _. exists []. split; [constructor |].
    now rewrite app_nil_r.
  - destruct (placeOneShipRandomly fuel random pos board length) as [[b1 p1]| |] eqn:Hone;
      cbn [bind fst snd]; try discriminate.
    intros Hrest.
    apply (placeOneShipRandomly_run fuel random length (Hlens length (or_introl eq_refl)))
      in Hone as (run & Hrun & Hone).
    apply (IH (fun l Hl => Hlens l (or_intror Hl))) in Hrest as (runs & Hruns & Hrest).
    exists (run :: runs). split; [now constructor |].
    rewrite Hrest, Hone. cbn [List.concat]. now rewrite app_assoc.
Qed.

Lemma placeAllShipsRandomly_isFleet (fuel : nat) (random : nat -> sample) (pos pos' : nat)
    (board : Board string) :
  placeAllShipsRandomly fuel random pos createEmptyBoard = Ok (board, pos') ->
  isFleet board.
Proof.
  unfold placeAllShipsRandomly. intros Hplace.
  apply (placeShips_runs fuel random SHIPS SHIPS_fit) in Hplace as (runs & Hruns & Hkeys).
  unfold SHIPS in Hruns.
  inversion Hruns as [|? s5 ? runs3 H5 Hruns3]; subst.
  inversion Hruns3 as [|? s3 ? runs2 H3 Hruns2]; subst.
  inversion Hruns2 as [|? s2 ? runs1 H2 Hruns1]; subst.
  inversion Hruns1; subst.
  cbn [List.concat createEmptyBoard shipCells JSSet.elems JSSet.empty app] in Hkeys.
  rewrite app_nil_r in Hkeys.
  exists s5, s3, s2. unfold JSSet.to_array. rewrite <- Hkeys.
  repeat split; try assumption. apply elems_NoDup.
Qed.

(** X14. The shape of the fleet: whenever [resetGame] returns, the ship cells
    of each board are, in the order they were added, a run of 5, a run of 3
    and a run of 2 cells of the grid, each a straight line (every cell right
    below the one before it, or every cell right of the one before it), and
    no cell belongs to two ships. *)
Theorem resetGame_fleet (fuel : nat) (random : nat -> sample) (g : GameState)
    (Hreset : resetGame fuel random = Ok g) :
  isFleet (userBoard g) /\ isFleet (aiBoard g).
Proof.
  unfold resetGame in Hreset.
  destruct (placeAllShipsRandomly fuel random 0 createEmptyBoard) as [[ub p1]| |] eqn:Hu;
    cbn [bind fst snd] in Hreset; try discriminate.
  destruct (placeAllShipsRandomly fuel random p1 createEmptyBoard) as [[ab p2]| |] eqn:Ha;
    cbn [bind fst snd] in Hreset; try discriminate.
  injection Hreset as <-. cbn [userBoard aiBoard].
  split; eapply placeAllShipsRandomly_isFleet; eassumption.
Qed.

Lemma resetGame_fleet_witness :
  isFleet (userBoard demoStart) /\ isFleet (aiBoard demoStart).
Proof.
  apply (resetGame_fleet 5 demoRandom demoStart). vm_compute. reflexivity.
Defined.

(** ** What [loadGame] checks, and what it does not *)

(** A value of a restored set that [loadGame] of the embedding paints: a
    string whose two numbers, as [parseKey] here reads them, name a cell that
    has a button. *)
Definition paintable (k : json) : Prop :=
  exists s, k = JStr s /\ cellExists (r (parseKey s)) (c (parseKey s)) = true.


(** The index [r * GRID_SIZE + c] of [getCellEl] is computed without
    rounding: the two numbers, the product and the sum are safe integers. *)
Definition exactIndex (a b : Z) : bool :=
  safeInteger a && safeInteger b &&
  safeInteger (a * GRID_SIZE) && safeInteger (a * GRID_SIZE + b).

(** The values of a restored set on which the embedding follows the script
    to the letter: a value that is not a string (it has no [split]), and a
    string written as [keyOf] writes it for two integers whose index is
    computed without rounding.  (On a text written otherwise, with white
    space, a sign [+], a fraction, an exponent or a radix prefix, [Number]
    of the script may read a number where [Number] here answers [NaN].) *)
Definition plainValue (k : json) : Prop :=
  match k with
  | JStr s => exists a b, exactIndex a b = true /\ s = keyOf (Int a) (Int b)
  | _ => True
  end.

(** [k] is the key of two integers whose index is one of the hundred
    buttons of a grid. *)
Definition onButton (k : json) : Prop :=
  exists a b, k = JStr (keyOf (Int a) (Int b)) /\
              0 <= a * GRID_SIZE + b < GRID_SIZE * GRID_SIZE.


(** The values the four loops of [loadGame] paint, in the order in which
    they paint them. *)
Definition paintedShots (G : Game json json) : list json :=
  JSSet.elems (hitCells (userBoard G)) ++ JSSet.elems (missCells (userBoard G)) ++
  JSSet.elems (hitCells (aiBoard G)) ++ JSSet.elems (missCells (aiBoard G)).

Lemma paintKey_paintable (k : json) : paintKey k = Ok tt <-> paintable k.
Proof.
  unfold paintable. split.
  - destruct k; try discriminate. unfold paintKey, markCell.
    destruct (cellExists _ _) eqn:Hcell; [| discriminate]. eauto.
  - intros (s & -> & Hcell). unfold paintKey, markCell. now rewrite Hcell.
Qed.

Lemma paintKey_outcome (k : json) : paintKey k = Ok tt \/ paintKey k = TypeError.
Proof.
  destruct k; cbn [paintKey]; auto. unfold markCell. destruct (cellExists _ _); auto.
Qed.

Lemma paintKeys_outcome (ks : list json) :
  (paintKeys ks = Ok tt /\ Forall paintable ks) \/
  (paintKeys ks = TypeError /\ ~ Forall paintable ks).
Proof.
  induction ks as [|k rest IH]; cbn [paintKeys]; [left; split; [reflexivity | constructor] |].
  destruct (paintKey_outcome k) as [Hk | Hk]; rewrite Hk; cbn [bind].
  - apply paintKey_paintable in Hk.
    destruct IH as [[-> Hall] | [-> Hbad]]; [left | right]; split; try reflexivity.
    + now constructor.
    + intros Hall. apply Hbad. now inversion Hall.
  - right. split; [reflexivity |]. intros Hall. inversion Hall as [|? ? Hp _]; subst.
    apply paintKey_paintable in Hp. congruence.
Qed.


Lemma arrayToSet_outcome (a : option json) :
  arrayToSet a = TypeError \/ exists s, arrayToSet a = Ok s.
Proof.
  unfold arrayToSet. destruct (orElse a (JArr [])); cbn [newSet]; eauto.
Qed.

Lemma loadBoard_outcome (b : option json) :
  loadBoard b = TypeError \/
  exists board,
    loadBoard b = Ok board /\
    arrayToSet (get b "shipCells") = Ok (shipCells board) /\
    arrayToSet (get b "hitCells") = Ok (hitCells board) /\
    arrayToSet (get b "missCells") = Ok (missCells board).
Proof.
  unfold loadBoard.
  destruct (arrayToSet_outcome (get b "shipCells")) as [-> | [s1 ->]]; [now left |].
  destruct (arrayToSet_outcome (get b "hitCells")) as [-> | [s2 ->]]; [now left |].
  destruct (arrayToSet_outcome (get b "missCells")) as [-> | [s3 ->]]; [now left |].
  right. cbn [bind]. eexists. split; [reflexivity |]. cbn [shipCells hitCells missCells].
  auto.
Qed.


(** The four loops that paint the restored shots, in the order they run. *)
Definition paintShots (userBoard aiBoard : Board json) : result unit :=
  _ <- paintKeys (JSSet.elems (hitCells userBoard)) ;;
  _ <- paintKeys (JSSet.elems (missCells userBoard)) ;;
  _ <- paintKeys (JSSet.elems (hitCells aiBoard)) ;;
  paintKeys (JSSet.elems (missCells aiBoard)).

Lemma paintShots_outcome (userBoard aiBoard : Board json) :
  let shots := [hitCells userBoard; missCells userBoard; hitCells aiBoard; missCells aiBoard] in
  (paintShots userBoard aiBoard = Ok tt /\
   Forall (fun s => Forall paintable (JSSet.elems s)) shots) \/
  (paintShots userBoard aiBoard = TypeError /\
   ~ Forall (fun s => Forall paintable (JSSet.elems s)) shots).
Proof.
  cbv zeta. unfold paintShots. rewrite !Forall_cons_iff.
  destruct (paintKeys_outcome (JSSet.elems (hitCells userBoard))) as [[-> H1] | [-> H1]];
    cbn [bind]; [| right; split; [reflexivity | tauto]].
  destruct (paintKeys_outcome (JSSet.elems (missCells userBoard))) as [[-> H2] | [-> H2]];
    cbn [bind]; [| right; split; [reflexivity | tauto]].
  destruct (paintKeys_outcome (JSSet.elems (hitCells aiBoard))) as [[-> H3] | [-> H3]];
    cbn [bind]; [| right; split; [reflexivity | tauto]].
  destruct (paintKeys_outcome (JSSet.elems (missCells aiBoard))) as [[-> H4] | [-> H4]];
    [left | right]; (split; [reflexivity |]); [| tauto].
  repeat split; auto.
Qed.

(** [loadGame] on a parsed value, by what its two [loadBoard]s and its four
    loops end in. *)
Lemma loadGame_cases (data : json) :
  loadGame (Item data) = TypeError \/
  exists G,
    loadGame (Item data) = Ok (Some G) /\
    loadBoard (get (Some data) "userBoard") = Ok (userBoard G) /\
    loadBoard (get (Some data) "aiBoard") = Ok (aiBoard G) /\
    paintShots (userBoard G) (aiBoard G) = Ok tt.
Proof.
  unfold loadGame.
  destruct (loadBoard_outcome (get (Some data) "userBoard")) as [-> | (ub & Hub & _)];
    [now left |].
  rewrite Hub. cbn [bind].
  destruct (loadBoard_outcome (get (Some data) "aiBoard")) as [-> | (ab & Hab & _)];
    [now left |].
  rewrite Hab. cbn [bind].
  destruct (paintShots_outcome ub ab) as [[Hp _] | [Hp _]]; unfold paintShots in Hp.
  - right. eexists. split.
    + destruct (paintKeys (JSSet.elems (hitCells ub))) as [[]| |]; cbn [bind] in *;
        try discriminate.
      destruct (paintKeys (JSSet.elems (missCells ub))) as [[]| |]; cbn [bind] in *;
        try discriminate.
      destruct (paintKeys (JSSet.elems (hitCells ab))) as [[]| |]; cbn [bind] in *;
        try discriminate.
      rewrite Hp. reflexivity.
    + cbn [userBoard aiBoard]. unfold paintShots. auto.
  - left.
    destruct (paintKeys (JSSet.elems (hitCells ub))) as [[]| |]; cbn [bind] in *;
      try discriminate; try reflexivity.
    destruct (paintKeys (JSSet.elems (missCells ub))) as [[]| |]; cbn [bind] in *;
      try discriminate; try reflexivity.
    destruct (paintKeys (JSSet.elems (hitCells ab))) as [[]| |]; cbn [bind] in *;
      try discriminate; try reflexivity.
    now rewrite Hp.
Qed.

Lemma cellExists_index (a b : Z) :
  cellExists (Int a) (Int b) = true <->
  0 <= a * GRID_SIZE + b < GRID_SIZE * GRID_SIZE.
Proof. unfold cellExists. rewrite andb_true_iff, Z.leb_le, Z.ltb_lt. reflexivity. Qed.

Lemma paintable_onButton (k : json) : plainValue k -> paintable k -> onButton k.
Proof.
  intros Hplain (s & -> & Hcell). destruct Hplain as (a & b & _ & ->).
  rewrite parseKey_keyOf_Int in Hcell. cbn [r c] in Hcell.
  exists a, b. split; [reflexivity | now apply cellExists_index].
Qed.


(** X15. What a loaded game has been checked for: when [loadGame] returns
    [true] and the restored hits and misses are all keys written as [keyOf]
    writes them (for integers whose index is computed without rounding),
    each of them is the key of two integers (a, b) whose index [a * 10 + b]
    is one of the hundred buttons.  That is all: the cell need not be a cell
    of the grid, as with the key of (0, 15), which paints the button of
    (1, 5). *)
Theorem loadGame_painted (data : json) (G : Game json json)
    (Hload : loadGame (Item data) = Ok (Some G))
    (Hplain : Forall plainValue (paintedShots G)) :
  Forall onButton (paintedShots G).
Proof.
  destruct (loadGame_cases data) as [Hthrow | (G' & HG' & _ & _ & Hpaint)]; [congruence |].
  assert (G' = G) as -> by congruence.
  destruct (paintShots_outcome (userBoard G) (aiBoard G)) as [[_ Hall] | [Hbad _]];
    [| congruence].
  rewrite !Forall_cons_iff in Hall. destruct Hall as (H1 & H2 & H3 & H4 & _).
  assert (Hpainted : Forall paintable (paintedShots G)).
  { unfold paintedShots. rewrite !Forall_app. auto. }
  rewrite Forall_forall in *. intros k Hk.
  apply paintable_onButton; auto.
Qed.

(** A snapshot that holds two hits and one miss of the user's board only;
    the second hit is at no cell of the grid, but its index is 15. *)
Definition threeShotsSnapshot : json :=
  JObj [("userBoard", JObj [("hitCells", JArr [JStr "1,2"; JStr "0,15"]);
                            ("missCells", JArr [JStr "9,9"])])].

Definition threeShotsGame : Game json json :=
  Eval vm_compute in
    match loadGame (Item threeShotsSnapshot) with
    | Ok (Some G) => G
    | _ => defaultBindings
    end.

Lemma loadGame_painted_witness :
  Forall onButton (paintedShots threeShotsGame) /\
  paintedShots threeShotsGame = [JStr "1,2"; JStr "0,15"; JStr "9,9"] /\
  ~ In "0,15" gridKeys.
Proof.
  split; [| split].
  - apply (loadGame_painted threeShotsSnapshot threeShotsGame).
    + vm_compute. reflexivity.
    + change (paintedShots threeShotsGame) with [JStr "1,2"; JStr "0,15"; JStr "9,9"].
      constructor; [exists 1, 2; split; reflexivity |].
      constructor; [exists 0, 15; split; reflexivity |].
      constructor; [exists 9, 9; split; reflexivity | constructor].
  - reflexivity.
  - intros Hin. apply includes_In in Hin. vm_compute in Hin. discriminate Hin.
Defined.




(** ** What the hunt can choose *)

(** Every index of an array of [n] elements is the answer of
    [randomInt(0, n - 1)] for some sample, as long as [3 * n <= 2^53]: the
    sample is one whose product with [n], rounded or not, falls between the
    index and the next one. *)
Lemma randomInt_onto (n i : Z) :
  0 <= i < n -> 3 * n <= two53 ->
  exists k, 0 <= k < two53 /\ randomInt 0 (n - 1) k = i.
Proof.
  intros Hi Hspan.
  assert (H53 : 0 < two53) by reflexivity.
  set (k := (i * two53 + (n - 1)) / n + 1).
  assert (Hlow : i * two53 + n <= k * n).
  { pose proof (Z.mul_succ_div_gt (i * two53 + (n - 1)) n ltac:(lia)) as Hgt.
    unfold k. lia. }
  assert (Hhigh : k * n <= i * two53 + 2 * n - 1).
  { pose proof (Z.mul_div_le (i * two53 + (n - 1)) n ltac:(lia)) as Hle.
    unfold k. lia. }
  assert (Hk : 0 <= k < two53).
  { split; [unfold k; apply Z.add_nonneg_nonneg; [apply Z.div_pos; nia | lia] | nia]. }
  exists k. split; [exact Hk |]. unfold randomInt.
  replace (n - 1 - 0 + 1) with n by lia. rewrite Z.add_0_r.
  rewrite (Z.mod_small k two53 Hk).
  pose proof (round53_error (k * n) ltac:(nia)) as Herr.
  set (R := round53 (k * n)) in *.
  symmetry. apply (Z.div_unique_pos R two53 i (R - two53 * i)); [| lia].
  clearbody R k. generalize dependent two53. intros T. intros. split; nia.
Qed.

(** X17. What the hunt can choose: every unshot cell of the grid with even
    parity is returned by [aiChooseHuntTarget] for some value of
    [Math.random], and when no unshot cell has even parity so is every unshot
    cell; no cell of the pool is out of the hunt's reach. *)
Theorem aiChooseHuntTarget_reaches (userBoard : Board string) (p : Coord)
    (Hcell : coordInBounds p = true)
    (Hopen : alreadyShot userBoard (coordKey p) = false)
    (Hpool : evenParity p = true \/
             forall q, coordInBounds q = true ->
                       alreadyShot userBoard (coordKey q) = false ->
                       evenParity q = false) :
  exists k, 0 <= k < two53 /\ aiChooseHuntTarget userBoard k = Some p.
Proof.
  assert (Hp : In p (unshotCells userBoard)) by (now apply unshotCells_spec).
  set (parityCells := filter evenParity (unshotCells userBoard)).
  set (otherCells := filter (fun q => negb (evenParity q)) (unshotCells userBoard)).
  set (pool := match parityCells with [] => otherCells | _ :: _ => parityCells end).
  assert (Hin : In p pool).
  { unfold pool. destruct Hpool as [Heven | Hnone].
    - assert (Hpar : In p parityCells) by (apply filter_In; now split).
      destruct parityCells; [destruct Hpar | exact Hpar].
    - destruct parityCells as [|q rest] eqn:Hpar.
      + apply filter_In. split; [exact Hp |].
        apply unshotCells_spec in Hp as [Hb Hs]. now rewrite (Hnone p Hb Hs).
      + assert (Hq : In q parityCells) by (rewrite Hpar; now left).
        apply filter_In in Hq as [Hq Heven]. apply unshotCells_spec in Hq as [Hb Hs].
        rewrite (Hnone q Hb Hs) in Heven. discriminate. }
  assert (Hlen : (List.length pool <= 100)%nat).
  { assert (Hcells : List.length gridCells = 100%nat) by (vm_compute; reflexivity).
    assert (Hunshot : (List.length (unshotCells userBoard) <= 100)%nat).
    { rewrite <- Hcells. apply filter_length_le. }
    unfold pool. destruct parityCells eqn:Hpar.
    - etransitivity; [apply filter_length_le | exact Hunshot].
    - rewrite <- Hpar. etransitivity; [apply filter_length_le | exact Hunshot]. }
  apply In_nth_error in Hin as [i Hi].
  assert (Hlt : (i < List.length pool)%nat) by (apply nth_error_Some; congruence).
  destruct (randomInt_onto (Z.of_nat (List.length pool)) (Z.of_nat i))
    as (k & Hk & Hrand); [lia | |].
  { assert (H53 : 300 <= two53) by (vm_compute; discriminate). lia. }
  exists k. split; [exact Hk |].
  rewrite aiChooseHuntTarget_pool. cbv zeta.
  fold parityCells otherCells pool. now rewrite Hrand, Nat2Z.id.
Qed.

Lemma aiChooseHuntTarget_reaches_witness :
  exists k, 0 <= k < two53 /\
            aiChooseHuntTarget openBoard k = Some (mkCoord (Int 7) (Int 3)).
Proof.
  apply (aiChooseHuntTarget_reaches openBoard (mkCoord (Int 7) (Int 3))).
  - reflexivity.
  - reflexivity.
  - left. reflexivity.
Defined.

(** ** A shot at a cell without a button *)



(** ** The shot after a hit on a line *)

(** The two cells [extendLineTargets] computes past the ends of the cluster:
    [left] and [right] for "H", [up] and [down] for "V". *)
Definition lineEnds (ori : Orientation) (c0 : Coord) (rest : list Coord) : Coord * Coord :=
  match ori with
  | H => (mkCoord (r c0) (num_plus (Math_min (c c0) (map c rest)) (-1)),
          mkCoord (r c0) (num_plus (Math_max (c c0) (map c rest)) 1))
  | V => (mkCoord (num_plus (Math_min (r c0) (map r rest)) (-1)) (c c0),
          mkCoord (num_plus (Math_max (r c0) (map r rest)) 1) (c c0))
  end.

(** A cell of the grid that is not yet shot. *)
Definition openCell (userBoard : Board string) (p : Coord) : bool :=
  coordInBounds p && negb (alreadyShot userBoard (coordKey p)).

(** Whatever [Math.random] returns, the next shot is [p], taken from the head
    of the queue. *)
Definition nextShotIs (userBoard : Board string) (st : AiState string) (p : Coord) : Prop :=
  forall k, aiDecideNextShot userBoard st k =
            (Some p, mkAiState TARGET (tl (targetQueue st)) (clusterHits st)).

Lemma pushExtension_open (userBoard : Board string) (p : Coord) (front : list string) :
  pushExtension userBoard p front =
    if openCell userBoard p then front ++ [coordKey p] else front.
Proof.
  unfold pushExtension, openCell.
  now destruct (coordInBounds p), (alreadyShot userBoard (coordKey p)).
Qed.

Lemma extendLineTargets_front (userBoard : Board string) (clusterHits : list string)
    (ori : Orientation) (queue : list string) (c0 : Coord) (rest : list Coord) :
  map parseKey clusterHits = c0 :: rest ->
  let front := pushExtension userBoard (snd (lineEnds ori c0 rest))
                 (pushExtension userBoard (fst (lineEnds ori c0 rest)) []) in
  extendLineTargets userBoard clusterHits ori queue =
    Ok (front ++ filter (fun k => negb (JSSet.includes k front))
                        (aiQueueAdjacentsFromHits userBoard clusterHits queue)).
Proof.
  intros Hcoords. unfold extendLineTargets. rewrite Hcoords. now destruct ori.
Qed.

Lemma queueNeighbors_fixed (userBoard : Board string) (nbs : list Coord)
    (queue : list string) :
  (forall nb, In nb nbs -> alreadyShot userBoard (coordKey nb) = false ->
              In (coordKey nb) queue) ->
  fold_left (fun queue nb =>
               if negb (alreadyShot userBoard (coordKey nb))
               then uniquePush queue (coordKey nb) else queue) nbs queue = queue.
Proof.
  induction nbs as [|nb rest IH]; intros Hall; cbn [fold_left]; [reflexivity |].
  assert (Hsame : (if negb (alreadyShot userBoard (coordKey nb))
                   then uniquePush queue (coordKey nb) else queue) = queue).
  { destruct (alreadyShot userBoard (coordKey nb)) eqn:Hshot; [reflexivity |].
    cbn [negb]. unfold uniquePush.
    now rewrite (proj2 (includes_In _ _) (Hall nb (or_introl eq_refl) Hshot)). }
  rewrite Hsame. apply IH. intros nb' Hnb'. apply Hall. now right.
Qed.

(** A queue that holds every candidate already is left as it is. *)
Lemma aiQueueAdjacentsFromHits_fixed (userBoard : Board string)
    (clusterHits queue : list string) :
  (forall x, adjacentCandidate userBoard clusterHits x -> In x queue) ->
  aiQueueAdjacentsFromHits userBoard clusterHits queue = queue.
Proof.
  unfold aiQueueAdjacentsFromHits, adjacentCandidate.
  induction clusterHits as [|hk rest IH]; intros Hall; cbn [fold_left]; [reflexivity |].
  rewrite queueNeighbors_fixed.
  - apply IH. intros x (hk' & nb & Hhk & Hrest). apply Hall. exists hk', nb.
    split; [now right | exact Hrest].
  - intros nb Hnb Hshot. apply Hall. exists hk, nb. auto with datatypes.
Qed.

Lemma aiQueueAdjacentsFromHits_again (userBoard : Board string)
    (clusterHits queue : list string) :
  aiQueueAdjacentsFromHits userBoard clusterHits
    (aiQueueAdjacentsFromHits userBoard clusterHits queue)
  = aiQueueAdjacentsFromHits userBoard clusterHits queue.
Proof.
  apply aiQueueAdjacentsFromHits_fixed. intros x Hx.
  apply aiQueueAdjacentsFromHits_spec. now right.
Qed.

Lemma nextShotIs_head (userBoard : Board string) (cluster queue : list string) (p : Coord) :
  openCell userBoard p = true ->
  nextShotIs userBoard (mkAiState TARGET (coordKey p :: queue) cluster) p.
Proof.
  unfold openCell. intros Hopen k. apply andb_true_iff in Hopen as [Hin Hshot].
  unfold aiDecideNextShot. cbn [mode targetQueue clusterHits aiChooseTargetModeCell tl].
  rewrite Hshot. now destruct (parseKey_coordKey p Hin) as [-> _].
Qed.

(** X19. The shot after a hit on a line: when [aiAfterHit] has left a
    cluster whose orientation [inferOrientation] finds, the AI's next shot
    goes to the cell before the first end of the line (left of the smallest
    column for "H", above the smallest row for "V") if that is an unshot cell
    of the grid, otherwise to the cell past the other end if that is one,
    whatever the queue held before; and when neither is, the queue is the one
    [aiQueueAdjacentsFromHits] made: its second run inside
    [extendLineTargets] adds nothing. *)
Theorem aiAfterHit_extends_line (userBoard : Board string) (st st' : AiState string)
    (hitKey : string) (ori : Orientation) (c0 : Coord) (rest : list Coord)
    (Hafter : aiAfterHit userBoard st hitKey = Ok st')
    (Hori : inferOrientation (clusterHits st') = Some ori)
    (Hcoords : map parseKey (clusterHits st') = c0 :: rest) :
  (openCell userBoard (fst (lineEnds ori c0 rest)) = true ->
   nextShotIs userBoard st' (fst (lineEnds ori c0 rest))) /\
  (openCell userBoard (fst (lineEnds ori c0 rest)) = false ->
   openCell userBoard (snd (lineEnds ori c0 rest)) = true ->
   nextShotIs userBoard st' (snd (lineEnds ori c0 rest))) /\
  (openCell userBoard (fst (lineEnds ori c0 rest)) = false ->
   openCell userBoard (snd (lineEnds ori c0 rest)) = false ->
   targetQueue st' =
     aiQueueAdjacentsFromHits userBoard (clusterHits st') (targetQueue st)).
Proof.
  unfold aiAfterHit in Hafter.
  destruct (recomputeClusterFromHit userBoard hitKey) as [cluster| |];
    cbn [bind] in Hafter; try discriminate.
  destruct (inferOrientation cluster) as [o|] eqn:Hinf.
  - destruct (extendLineTargets userBoard cluster o _) as [queue'| |] eqn:Hext;
      cbn [bind] in Hafter; try discriminate.
    injection Hafter as <-. cbn [clusterHits targetQueue] in *.
    assert (o = ori) as -> by congruence.
    rewrite (extendLineTargets_front _ _ _ _ _ _ Hcoords) in Hext. cbv zeta in Hext.
    injection Hext as <-. rewrite !pushExtension_open, aiQueueAdjacentsFromHits_again.
    split; [| split].
    + intros Hfirst. rewrite Hfirst. cbn [app].
      destruct (openCell userBoard (snd (lineEnds ori c0 rest)));
        cbn [app]; now apply nextShotIs_head.
    + intros Hfirst Hsecond. rewrite Hfirst, Hsecond. cbn [app].
      now apply nextShotIs_head.
    + intros Hfirst Hsecond. rewrite Hfirst, Hsecond. cbn [app].
      apply forallb_filter_id. apply forallb_forall. reflexivity.
  - injection Hafter as <-. cbn [clusterHits] in Hori. congruence.
Qed.

(** The user's board after hits at (4,4) and (4,3) on a ship in row 4, the
    AI state before [aiAfterHit] runs for the second hit, and after it. *)
Definition lineBoard : Board string :=
  mkBoard (JSSet.of_array ["4,3"; "4,4"; "4,5"]) (JSSet.of_array ["4,4"; "4,3"]) JSSet.empty.

Definition lineBefore : AiState string :=
  mkAiState TARGET ["5,4"; "4,3"; "4,5"] ["4,4"].

Definition lineAfter : AiState string :=
  mkAiState TARGET ["4,2"; "4,5"; "5,4"; "4,3"; "3,3"; "5,3"; "3,4"] ["4,3"; "4,4"].

Lemma aiAfterHit_extends_line_witness :
  (openCell lineBoard (fst (lineEnds H (mkCoord (Int 4) (Int 3)) [mkCoord (Int 4) (Int 4)]))
   = true ->
   nextShotIs lineBoard lineAfter
     (fst (lineEnds H (mkCoord (Int 4) (Int 3)) [mkCoord (Int 4) (Int 4)]))) /\
  (openCell lineBoard (fst (lineEnds H (mkCoord (Int 4) (Int 3)) [mkCoord (Int 4) (Int 4)]))
   = false ->
   openCell lineBoard (snd (lineEnds H (mkCoord (Int 4) (Int 3)) [mkCoord (Int 4) (Int 4)]))
   = true ->
   nextShotIs lineBoard lineAfter
     (snd (lineEnds H (mkCoord (Int 4) (Int 3)) [mkCoord (Int 4) (Int 4)]))) /\
  (openCell lineBoard (fst (lineEnds H (mkCoord (Int 4) (Int 3)) [mkCoord (Int 4) (Int 4)]))
   = false ->
   openCell lineBoard (snd (lineEnds H (mkCoord (Int 4) (Int 3)) [mkCoord (Int 4) (Int 4)]))
   = false ->
   targetQueue lineAfter =
     aiQueueAdjacentsFromHits lineBoard (clusterHits lineAfter) (targetQueue lineBefore)).
Proof.
  apply (aiAfterHit_extends_line lineBoard lineBefore lineAfter "4,3" H
           (mkCoord (Int 4) (Int 3)) [mkCoord (Int 4) (Int 4)]).
  - vm_compute. reflexivity.
  - vm_compute. reflexivity.
  - vm_compute. reflexivity.
Defined.

(** ** Every shot counts *)

(** The shots a side has fired. *)
Definition fired (s : Shots) : Z := hits s + misses s.

(** The cell the AI decides on is a cell of the grid that is not yet shot. *)
Lemma aiDecideNextShot_fresh (userBoard : Board string) (st st' : AiState string)
    (k : sample) (p : Coord) :
  incl (targetQueue st) gridKeys ->
  aiDecideNextShot userBoard st k = (Some p, st') ->
  coordInBounds p = true /\ alreadyShot userBoard (coordKey p) = false.
Proof.
  intros Hq Hdec. destruct (aiDecideNextShot_onGrid _ _ _ _ _ Hq Hdec) as [Hp _].
  split; [exact Hp |]. unfold aiDecideNextShot in Hdec. destruct (mode st).
  - injection Hdec as Hhunt _.
    now apply aiChooseHuntTarget_unshot, unshotCells_spec in Hhunt.
  - pose proof (aiChooseTargetModeCell_unshot userBoard (targetQueue st)) as Hcell.
    destruct (aiChooseTargetModeCell userBoard (targetQueue st)) as [[t|] queue];
      cbn [fst] in Hcell; injection Hdec as Hhunt _.
    + subst t. destruct (Hcell p eq_refl) as (k' & Hk' & Hparse & Hshot).
      destruct (gridKeys_cell k' (Hq k' Hk')) as (q & Hqb & ->).
      destruct (parseKey_coordKey q Hqb) as [Hback _].
      rewrite Hback in Hparse. now subst p.
    + now apply aiChooseHuntTarget_unshot, unshotCells_spec in Hhunt.
Qed.

(** Gives the state a run ends in and the cell it shot. *)
Ltac exists_both p := eexists; exists p; split; [reflexivity |].

(** X20. Every shot counts: while a game that was reached goes on, a click of
    the user, on their turn, at an unshot cell of the grid returns with the
    user's tally one shot higher and the cell shot; and every run of
    [aiTakeTurnLoop] on the AI's turn returns with the AI's tally one shot
    higher, having shot one cell of the grid that was not shot before.  With
    at most 100 shots a side, a game cannot go on for ever. *)
Theorem every_shot_counts (g : GameState)
    (Hreach : reachable g) (Hlive : gameOver g = false) :
  (currentTurn g = USER ->
   forall r c, inBounds r c = true -> alreadyShot (aiBoard g) (keyOf r c) = false ->
     exists g',
       onUserFireAtAI g r c = Ok g' /\
       fired (userShots g') = fired (userShots g) + 1 /\
       alreadyShot (aiBoard g') (keyOf r c) = true) /\
  (currentTurn g = AI ->
   forall k, exists g' p,
     aiTakeTurnLoop g k = Ok g' /\
     fired (aiShots g') = fired (aiShots g) + 1 /\
     coordInBounds p = true /\
     alreadyShot (userBoard g) (coordKey p) = false /\
     alreadyShot (userBoard g') (coordKey p) = true).
Proof.
  split.
  - intros Hturn r c Hin Hnew. unfold onUserFireAtAI. rewrite Hlive, Hturn.
    destruct (parseKey_coordKey (mkCoord r c) Hin) as [_ Hcell].
    change (cellExists r c = true) in Hcell.
    pose proof (applyShot_valid (aiBoard g) r c Hcell Hnew) as Hvalid.
    pose proof (applyShot_marks (aiBoard g) r c) as Hmarks.
    destruct (applyShot (aiBoard g) r c) as [res board]. cbn [fst snd] in Hvalid, Hmarks.
    subst res. cbn [bind].
    destruct (JSSet.has (shipCells (aiBoard g)) (keyOf r c)).
    + cbn [aiBoard]. destruct (hasWon board); eexists; (split; [reflexivity |]);
        unfold endGame, fired, hitsPlusPlus; cbn [userShots aiBoard hits misses];
        (split; [lia | exact Hmarks]).
    + eexists. split; [reflexivity |].
      unfold fired, missesPlusPlus; cbn [userShots aiBoard hits misses].
      split; [lia | exact Hmarks].
  - intros Hturn k. unfold aiTakeTurnLoop. rewrite Hlive, Hturn.
    destruct (reachable_keysOnGrid g Hreach) as (_ & _ & Hq).
    destruct (userBoardSound_unshot g (reachable_userBoardSound g Hreach) Hlive)
      as [q Hunshot].
    destruct (aiDecideNextShot_returns (userBoard g) (aiState g) k q Hunshot)
      as (p & st & Hdec).
    rewrite Hdec.
    destruct (aiDecideNextShot_fresh _ _ _ _ _ Hq Hdec) as [Hp Hnew].
    destruct (parseKey_coordKey p Hp) as [_ Hcell].
    pose proof (applyShot_valid (userBoard g) (r p) (c p) Hcell Hnew) as Hvalid.
    pose proof (applyShot_marks (userBoard g) (r p) (c p)) as Hmarks.
    destruct (applyShot (userBoard g) (r p) (c p)) as [res board].
    cbn [fst snd] in Hvalid, Hmarks. subst res. cbn [bind].
    destruct (JSSet.has (shipCells (userBoard g)) (keyOf (r p) (c p))); cbn [bind].
    + destruct (aiAfterHit_returns board st (keyOf (r p) (c p))) as (st' & -> & _).
      cbn [bind userBoard]. destruct (hasWon board); exists_both p;
        unfold endGame, fired, hitsPlusPlus; cbn [aiShots userBoard hits misses];
        (split; [lia | auto]).
    + exists_both p.
      unfold fired, missesPlusPlus; cbn [aiShots userBoard hits misses].
      split; [lia | auto].
Qed.

Lemma every_shot_counts_witness :
  (currentTurn demoState = USER ->
   forall r c, inBounds r c = true -> alreadyShot (aiBoard demoState) (keyOf r c) = false ->
     exists g',
       onUserFireAtAI demoState r c = Ok g' /\
       fired (userShots g') = fired (userShots demoState) + 1 /\
       alreadyShot (aiBoard g') (keyOf r c) = true) /\
  (currentTurn demoState = AI ->
   forall k, exists g' p,
     aiTakeTurnLoop demoState k = Ok g' /\
     fired (aiShots g') = fired (aiShots demoState) + 1 /\
     coordInBounds p = true /\
     alreadyShot (userBoard demoState) (coordKey p) = false /\
     alreadyShot (userBoard g') (coordKey p) = true).
Proof.
  apply (every_shot_counts demoState).
  - apply demoGame_reachable. vm_compute. reflexivity.
  - reflexivity.
Defined.
